(** * pycpp: a C preprocessor preserving the formatting of the C code

    A shallow embedding of [src/src/pycpp.py] (and of the earlier text
    utilities in [src/cpreproc_utils.py]) together with theorems about
    its components: the text utilities, the condition manager, the
    output assembler, the macro expander and the engine facade.

    Conventions of the embedding.
    - A Python [str] is a [list ascii]; a character is a code point
      below 256.  Character classes follow Python: [str.strip] and
      [str.splitlines] use the Unicode classes (restricted to code
      points below 256), patterns compiled with [re.ASCII] use the
      ASCII classes.
    - Positions are [Z], with [-1] for "not found", as in the source.
    - A compiled pattern is a value of [Re.regex]; matching follows the
      backtracking discipline of Python's [re] (leftmost match, ordered
      alternatives, greedy and lazy repetition).
    - The methods of the engine run in a state monad over the engine
      object and the module-level logger ([Engine.M]).  The macro
      expander and [process_code] need not return; they take a step
      budget and end in [OutOfFuel] when it is used up.  The loops that
      always end are given the number of turns they can take at most
      ([LoopFacts] shows that this number is never used up).
    - Names and values that the source interpolates into patterns and
      replacement templates are covered when they stand for themselves:
      names made of word characters, values without a backslash.  A
      call that leaves this fragment ends in [Abort].
    - Python's [eval], [textwrap.dedent], [pathlib] and the file system
      are parameters of the engine. *)

From Stdlib Require Import Ascii String.
From Stdlib Require Import List ZArith Bool Arith Lia.
Import ListNotations.

Set Implicit Arguments.

(** ** Python string primitives *)

Module Py.

Definition text := list ascii.

Definition lit (s : string) : text := list_ascii_of_string s.
Arguments lit s%_string.

Definition LF : ascii := "010"%char.
Definition CR : ascii := "013"%char.
Definition TAB : ascii := "009"%char.
Definition SP : ascii := " "%char.
Definition DQUOTE : ascii := "034"%char.
Definition SQUOTE : ascii := "039"%char.
Definition BSLASH : ascii := "\"%char.

Definition code (c : ascii) : nat := nat_of_ascii c.

Definition ch_eqb (a b : ascii) : bool := Ascii.eqb a b.

Definition in_range (lo hi : nat) (c : ascii) : bool :=
  (lo <=? code c) && (code c <=? hi).

(** [str.isspace] on code points below 256. *)
Definition isspace (c : ascii) : bool :=
  in_range 9 13 c || in_range 28 32 c
  || (code c =? 133) || (code c =? 160).

(** Line boundaries of [str.splitlines] below code point 256. *)
Definition is_linebreak (c : ascii) : bool :=
  in_range 10 13 c || in_range 28 30 c || (code c =? 133).

Definition len (s : text) : Z := Z.of_nat (length s).

Fixpoint text_eqb (a b : text) : bool :=
  match a, b with
  | [], [] => true
  | x :: a', y :: b' => ch_eqb x y && text_eqb a' b'
  | _, _ => false
  end.

(** [s.startswith(p)] *)
Fixpoint startswith (s p : text) : bool :=
  match p, s with
  | [], _ => true
  | x :: p', y :: s' => ch_eqb x y && startswith s' p'
  | _ :: _, [] => false
  end.

(** [s.endswith(p)] *)
Definition endswith (s p : text) : bool := startswith (rev s) (rev p).

(** [s.lstrip()], [s.rstrip()], [s.strip()] *)
Fixpoint lstrip (s : text) : text :=
  match s with
  | c :: s' => if isspace c then lstrip s' else s
  | [] => []
  end.

Definition rstrip (s : text) : text := rev (lstrip (rev s)).

Definition strip (s : text) : text := rstrip (lstrip s).

(** Index adjustment of slicing, and of the end index of [find] and
    [rfind]: a negative index counts from the end and the result is
    clamped to [0 .. len]. *)
Definition adjust (n i : Z) : Z :=
  if (i <? 0)%Z then Z.max 0 (i + n) else Z.min i n.

(** Adjustment of the start index of [find] and [rfind]: a negative
    index counts from the end; an index past the end is kept (nothing
    is found from there). *)
Definition adjust_start (n i : Z) : Z :=
  if (i <? 0)%Z then Z.max 0 (i + n) else i.

(** [s[lo:hi]] *)
Definition slice (s : text) (lo hi : Z) : text :=
  let n := len s in
  let l := adjust n lo in
  let h := adjust n hi in
  firstn (Z.to_nat (h - l)) (skipn (Z.to_nat l) s).

(** [s[lo:]] and [s[:hi]] *)
Definition slice_from (s : text) (lo : Z) : text := slice s lo (len s).
Definition slice_to (s : text) (hi : Z) : text := slice s 0 hi.

(** First index [i >= pos] at which [sub] occurs in [s], the list [s]
    being the suffix of the whole string that starts at [pos]. *)
Fixpoint find_aux (sub s : text) (pos : Z) : Z :=
  if startswith s sub then pos
  else match s with
       | [] => (-1)%Z
       | _ :: s' => find_aux sub s' (pos + 1)
       end.

(** [s.find(sub, start, stop)] *)
Definition find_in (s sub : text) (start stop : Z) : Z :=
  let n := len s in
  let e := adjust n stop in
  let b := adjust_start n start in
  if (e - b <? len sub)%Z then (-1)%Z
  else find_aux sub (skipn (Z.to_nat b) (firstn (Z.to_nat e) s)) b.

(** [s.find(sub, start)] and [s.find(sub)] *)
Definition find_from (s sub : text) (start : Z) : Z :=
  find_in s sub start (len s).
Definition find (s sub : text) : Z := find_from s sub 0.

(** Last index at which [sub] occurs in [s], or [-1]. *)
Fixpoint rfind_aux (sub s : text) (pos : Z) : Z :=
  match s with
  | [] => if startswith s sub then pos else (-1)%Z
  | _ :: s' =>
      let r := rfind_aux sub s' (pos + 1) in
      if (0 <=? r)%Z then r
      else if startswith s sub then pos else (-1)%Z
  end.

(** [s.rfind(sub, start, stop)] *)
Definition rfind_in (s sub : text) (start stop : Z) : Z :=
  let n := len s in
  let e := adjust n stop in
  let b := adjust_start n start in
  if (e - b <? len sub)%Z then (-1)%Z
  else rfind_aux sub (skipn (Z.to_nat b) (firstn (Z.to_nat e) s)) b.

(** [sub in s] *)
Definition contains (s sub : text) : bool := (0 <=? find s sub)%Z.

(** Number of non-overlapping occurrences of a non-empty [sub]; [skip]
    characters of a match just counted are still to be passed over. *)
Fixpoint count_aux (sub s : text) (skip : nat) : Z :=
  match s with
  | [] => 0%Z
  | _ :: s' =>
      match skip with
      | S k => count_aux sub s' k
      | O => if startswith s sub
             then (1 + count_aux sub s' (length sub - 1))%Z
             else count_aux sub s' 0
      end
  end.

(** [s.count(sub)] *)
Definition count (s sub : text) : Z :=
  match sub with
  | [] => (len s + 1)%Z
  | _ => count_aux sub s 0
  end.

(** [s.replace(old, new)] for a non-empty [old]. *)
Fixpoint replace_aux (old new s : text) (skip : nat) : text :=
  match s with
  | [] => []
  | c :: s' =>
      match skip with
      | S k => replace_aux old new s' k
      | O => if startswith s old
             then new ++ replace_aux old new s' (length old - 1)
             else c :: replace_aux old new s' 0
      end
  end.

Definition interleave (new s : text) : text :=
  new ++ flat_map (fun c => c :: new) s.

Definition replace (s old new : text) : text :=
  match old with
  | [] => interleave new s
  | _ => replace_aux old new s 0
  end.

(** [s.replace(old, new, 1)] for a one-character [old]. *)
Fixpoint replace_first_char (s : text) (old : ascii) (new : text) : text :=
  match s with
  | [] => []
  | c :: s' => if ch_eqb c old then new ++ s'
               else c :: replace_first_char s' old new
  end.

(** [s.split(sep)] for a one-character separator. *)
Fixpoint split_aux (sep : ascii) (cur : text) (s : text) : list text :=
  match s with
  | [] => [rev cur]
  | c :: s' => if ch_eqb c sep then rev cur :: split_aux sep [] s'
               else split_aux sep (c :: cur) s'
  end.

Definition split (s : text) (sep : ascii) : list text := split_aux sep [] s.

(** [s.splitlines()] *)
Fixpoint splitlines_aux (cur : text) (s : text) : list text :=
  match s with
  | [] => match cur with [] => [] | _ => [rev cur] end
  | c :: s' =>
      if ch_eqb c CR then
        match s' with
        | d :: s'' => if ch_eqb d LF then rev cur :: splitlines_aux [] s''
                      else rev cur :: splitlines_aux [] s'
        | [] => rev cur :: splitlines_aux [] s'
        end
      else if is_linebreak c then rev cur :: splitlines_aux [] s'
      else splitlines_aux (c :: cur) s'
  end.

Definition splitlines (s : text) : list text := splitlines_aux [] s.

(** [sep.join(parts)] *)
Fixpoint join (sep : text) (parts : list text) : text :=
  match parts with
  | [] => []
  | [p] => p
  | p :: rest => p ++ sep ++ join sep rest
  end.

(** [n * " "] *)
Definition spaces (n : nat) : text := repeat SP n.

End Py.

(** ** Regular expressions, as Python's [re] matches them *)

Module Re.
Import Py.

(** Character classes of patterns compiled with [re.ASCII]. *)
Definition is_digit (c : ascii) : bool := in_range 48 57 c.
Definition is_word (c : ascii) : bool :=
  in_range 97 122 c || in_range 65 90 c || is_digit c || (code c =? 95).
Definition is_space (c : ascii) : bool := in_range 9 13 c || (code c =? 32).
Definition is_blank (c : ascii) : bool := ch_eqb c SP || ch_eqb c TAB.
Definition any_char (_ : ascii) : bool := true.
Definition not_newline (c : ascii) : bool := negb (ch_eqb c LF).
Definition is_ch (a : ascii) (c : ascii) : bool := ch_eqb c a.
Definition one_of (s : string) (c : ascii) : bool :=
  existsb (ch_eqb c) (list_ascii_of_string s).
Definition neg (p : ascii -> bool) (c : ascii) : bool := negb (p c).
Definition either (p q : ascii -> bool) (c : ascii) : bool := p c || q c.

(** The pattern syntax the source uses.  Repetition is only ever
    applied to a character class, or as an optional part. *)
Inductive regex : Type :=
| Eps                              (* the empty pattern *)
| Cls (p : ascii -> bool)          (* one character of a class *)
| Lit (s : text)                   (* a literal string *)
| Seq (r1 r2 : regex)              (* r1 r2 *)
| Alt (r1 r2 : regex)              (* r1|r2, r1 tried first *)
| Star (p : ascii -> bool)         (* [p]*, greedy *)
| StarLazy (p : ascii -> bool)     (* [p]*?, lazy *)
| Bol (multiline : bool)           (* ^ *)
| Eol (multiline : bool)           (* $ *)
| Grp (n : nat) (r : regex).       (* capture group number n *)

Definition Plus (p : ascii -> bool) : regex := Seq (Cls p) (Star p).
Definition Opt (r : regex) : regex := Alt r Eps.

Fixpoint seqs (rs : list regex) : regex :=
  match rs with
  | [] => Eps
  | [r] => r
  | r :: rs' => Seq r (seqs rs')
  end.

(** A position in the subject: its index, the character before it
    and the characters from it on. *)
Record cursor : Type := Cursor {
  c_pos : nat;
  c_prev : option ascii;
  c_rest : text
}.

Definition groups := list (nat * (nat * nat)).

Record mres : Type := MRes {
  m_start : nat;
  m_end : nat;
  m_groups : groups
}.

Definition kont := cursor -> groups -> option mres.

Fixpoint advance (c : cursor) (n : nat) : cursor :=
  match n, c_rest c with
  | S k, a :: t => advance (Cursor (S (c_pos c)) (Some a) t) k
  | _, _ => c
  end.

Definition at_bol (multiline : bool) (c : cursor) : bool :=
  match c_prev c with
  | None => true
  | Some a => multiline && ch_eqb a LF
  end.

Definition at_eol (multiline : bool) (c : cursor) : bool :=
  match c_rest c with
  | [] => true
  | a :: t => ch_eqb a LF && (multiline || match t with [] => true | _ => false end)
  end.

(** Greedy repetition of a class: take as many characters as possible
    and give them back one at a time while the rest fails. *)
Fixpoint star_greedy (p : ascii -> bool) (rest : text) (pos : nat)
    (prev : option ascii) (g : groups) (k : kont) : option mres :=
  match rest with
  | a :: t =>
      if p a then
        match star_greedy p t (S pos) (Some a) g k with
        | Some r => Some r
        | None => k (Cursor pos prev rest) g
        end
      else k (Cursor pos prev rest) g
  | [] => k (Cursor pos prev rest) g
  end.

(** Lazy repetition: try the rest first, take one more on failure. *)
Fixpoint star_lazy (p : ascii -> bool) (rest : text) (pos : nat)
    (prev : option ascii) (g : groups) (k : kont) : option mres :=
  match k (Cursor pos prev rest) g with
  | Some r => Some r
  | None =>
      match rest with
      | a :: t => if p a then star_lazy p t (S pos) (Some a) g k else None
      | [] => None
      end
  end.

(** Backtracking matcher in continuation-passing style. *)
Fixpoint rmatch (r : regex) (c : cursor) (g : groups) (k : kont)
    : option mres :=
  match r with
  | Eps => k c g
  | Cls p =>
      match c_rest c with
      | a :: t => if p a then k (Cursor (S (c_pos c)) (Some a) t) g else None
      | [] => None
      end
  | Lit s =>
      if startswith (c_rest c) s then k (advance c (length s)) g else None
  | Seq r1 r2 => rmatch r1 c g (fun c' g' => rmatch r2 c' g' k)
  | Alt r1 r2 =>
      match rmatch r1 c g k with
      | Some x => Some x
      | None => rmatch r2 c g k
      end
  | Star p => star_greedy p (c_rest c) (c_pos c) (c_prev c) g k
  | StarLazy p => star_lazy p (c_rest c) (c_pos c) (c_prev c) g k
  | Bol m => if at_bol m c then k c g else None
  | Eol m => if at_eol m c then k c g else None
  | Grp n r' =>
      rmatch r' c g (fun c' g' => k c' ((n, (c_pos c, c_pos c')) :: g'))
  end.

(** A match attempt anchored at the cursor.  With [must_advance] an
    empty match is a failure, and other alternatives are tried. *)
Definition match_here (r : regex) (c : cursor) (must_advance : bool)
    : option mres :=
  rmatch r c []
    (fun c' g =>
       if must_advance && (c_pos c' =? c_pos c) then None
       else Some (MRes (c_pos c) (c_pos c') g)).

Definition start_cursor (s : text) : cursor := Cursor 0 None s.

(** [re.match(r, s)] *)
Definition re_match (r : regex) (s : text) : option mres :=
  match_here r (start_cursor s) false.

(** [r.match(s, pos, endpos)] for [0 <= pos]: the subject is cut at
    [endpos] and the attempt is anchored at [pos]. *)
Definition match_range (r : regex) (s : text) (pos endpos : Z) : option mres :=
  let s' := firstn (Z.to_nat (Z.min endpos (len s))) s in
  if (len s' <? pos)%Z then None
  else match_here r (advance (start_cursor s') (Z.to_nat pos)) false.

(** Leftmost match at or after the cursor. *)
Fixpoint search_aux (r : regex) (rest : text) (pos : nat)
    (prev : option ascii) : option mres :=
  match match_here r (Cursor pos prev rest) false with
  | Some m => Some m
  | None =>
      match rest with
      | [] => None
      | a :: t => search_aux r t (S pos) (Some a)
      end
  end.

(** [re.search(r, s)] *)
Definition search (r : regex) (s : text) : option mres :=
  search_aux r s 0 None.

(** Text of group [n] of a match, empty when the group took no part. *)
Fixpoint group_span (g : groups) (n : nat) : option (nat * nat) :=
  match g with
  | [] => None
  | (i, sp) :: g' => if i =? n then Some sp else group_span g' n
  end.

Definition span_text (s : text) (sp : nat * nat) : text :=
  firstn (snd sp - fst sp) (skipn (fst sp) s).

Definition group (s : text) (m : mres) (n : nat) : option text :=
  option_map (span_text s) (group_span (m_groups m) n).

Definition group_or_empty (s : text) (m : mres) (n : nat) : text :=
  match group s m n with Some t => t | None => [] end.

(** [m.group()] *)
Definition whole (s : text) (m : mres) : text :=
  span_text s (m_start m, m_end m).

(** [re.sub(r, repl, s)]: every non-overlapping match, scanning from the
    left, is replaced by [repl] of it.  [skip] characters of the last
    match are still to be passed over.  An empty match is followed by a
    second attempt at the same place, which must then advance. *)
Fixpoint sub_aux (r : regex) (repl : mres -> text) (rest : text)
    (pos : nat) (prev : option ascii) (skip : nat) : text :=
  match skip with
  | S k =>
      match rest with
      | [] => []
      | a :: t => sub_aux r repl t (S pos) (Some a) k
      end
  | O =>
      let here := Cursor pos prev rest in
      let after (n : nat) :=
        match rest with
        | [] => []
        | a :: t => sub_aux r repl t (S pos) (Some a) n
        end in
      let keep :=
        match rest with
        | [] => []
        | a :: t => a :: sub_aux r repl t (S pos) (Some a) 0
        end in
      match match_here r here false with
      | None => keep
      | Some m =>
          if m_end m =? pos then
            repl m ++
            match match_here r here true with
            | Some m' => repl m' ++ after (m_end m' - pos - 1)
            | None => keep
            end
          else repl m ++ after (m_end m - pos - 1)
      end
  end.

Definition sub (r : regex) (repl : mres -> text) (s : text) : text :=
  sub_aux r repl s 0 None 0.

End Re.

(** ** CodeFormatter (src/src/pycpp.py) *)

Module CodeFormatter.
Import Py Re.

(** Pattern "/\*.*?\*/" with [re.DOTALL] *)
Definition RE_PTRN_MLINE_CMNT : regex :=
  seqs [Lit (lit "/*"); StarLazy any_char; Lit (lit "*/")].

(** Pattern "[ \t]*//[^\n]*" *)
Definition RE_PTRN_SLINE_CMNT : regex :=
  seqs [Star is_blank; Lit (lit "//"); Star not_newline].

(** Pattern "[ \t]*\\[ \t]*\n" *)
Definition RE_PTRN_LINE_CONT : regex :=
  seqs [Star is_blank; Lit [BSLASH]; Star is_blank; Lit [LF]].

(** The group [num] (group 1) is "\d[\d.]*\d*"; it is followed by the
    suffix "[uUlLfF]+". *)
Definition RE_PTRN_NUM_CONST : regex :=
  Seq (Grp 1 (seqs [Cls is_digit; Star (either is_digit (is_ch "."));
                    Star is_digit]))
      (Plus (one_of "uUlLfF")).

(** The [while tab_pos >= 0] loop of [replace_tabs] on one line; every
    turn removes one tab, so the length of the line is turns enough
    ([LoopFacts.tab_loop_ends]).  [tab_size] is positive (Python raises
    on zero). *)
Fixpoint replace_tabs_line (fuel : nat) (line : text) (tab_size : Z) : text :=
  match fuel with
  | O => line
  | S f =>
      let tab_pos := find line [TAB] in
      if (0 <=? tab_pos)%Z then
        replace_tabs_line f
          (replace_first_char line TAB
             (spaces (Z.to_nat (tab_size - tab_pos mod tab_size))))
          tab_size
      else line
  end.

Definition replace_tabs (code : text) (tab_size : Z) : text :=
  fold_left
    (fun out_code line =>
       out_code ++ replace_tabs_line (length line) line tab_size ++ [LF])
    (splitlines code) [].

Definition remove_line_escapes (code : text) (keep_newlines : bool) : text :=
  let repl_str := if keep_newlines then [LF] else [] in
  Re.sub RE_PTRN_LINE_CONT (fun _ => repl_str) code.

Definition is_empty (s : text) : bool :=
  match s with [] => true | _ => false end.

Definition remove_empty_lines (code : text) : text :=
  let out_lines :=
    filter (fun line => negb (is_empty (strip line))) (splitlines code) in
  join [LF] out_lines.

(** The replacement of every run "[^\n]+" of the comment by as many
    spaces. *)
Definition repl_with_spaces (s : text) (m : mres) : text :=
  Re.sub (Plus not_newline) (fun m' => spaces (m_end m' - m_start m'))
    (whole s m).

(** As many newlines as the comment holds. *)
Definition repl_with_newlines (s : text) (m : mres) : text :=
  repeat LF (Z.to_nat (count (whole s m) [LF])).

Definition remove_comments (code : text)
    (replace_with_spaces replace_with_newlines : bool) : text :=
  let out_code := code in
  if replace_with_spaces then
    let out_code :=
      Re.sub RE_PTRN_MLINE_CMNT (repl_with_spaces out_code) out_code in
    Re.sub RE_PTRN_SLINE_CMNT (repl_with_spaces out_code) out_code
  else if replace_with_newlines then
    let out_code :=
      Re.sub RE_PTRN_MLINE_CMNT (repl_with_newlines out_code) out_code in
    Re.sub RE_PTRN_SLINE_CMNT (repl_with_newlines out_code) out_code
  else out_code.

Definition remove_num_type_suffix (code : text) : text :=
  Re.sub RE_PTRN_NUM_CONST (fun m => group_or_empty code m 1) code.

(** Pattern "\s*", the default ignored prefix *)
Definition RE_PTRN_IGNORED_PREFIX : regex := Star is_space.

(** The condition of the [while] loop of [get_enclosed_subst_pos]. *)
Definition unbalanced (code : text) (s_pos : Z) (start_str end_str : text)
    (e_pos : Z) : bool :=
  (0 <=? e_pos)%Z
  && negb (count (slice code s_pos (e_pos + 1)) start_str
           =? count (slice code s_pos (e_pos + 1)) end_str)%Z.

(** The [while] loop of [get_enclosed_subst_pos]: [e_pos] moves to the
    next [end_str] until the counts of both delimiters in
    [code[s_pos : e_pos + 1]] agree, or none is left.  [e_pos] grows at
    every turn, so the length of [code] and one are turns enough
    ([LoopFacts.enclosing_loop_ends]). *)
Fixpoint find_enclosing_end (fuel : nat) (code : text) (s_pos : Z)
    (start_str end_str : text) (e_pos : Z) : Z :=
  match fuel with
  | O => e_pos
  | S f =>
      if unbalanced code s_pos start_str end_str e_pos
      then find_enclosing_end f code s_pos start_str end_str
             (find_from code end_str (e_pos + 1))
      else e_pos
  end.

Definition is_some {A : Type} (o : option A) : bool :=
  match o with Some _ => true | None => false end.

Definition get_enclosed_subst_pos (code : text) (start_pos : Z)
    (start_str end_str : text) (ignored_prefix_re_ptrn : regex) : Z * Z :=
  let s_pos := find_from code start_str start_pos in
  let e_pos := (-1)%Z in
  if (0 <=? s_pos)%Z
     && is_some (match_range ignored_prefix_re_ptrn code start_pos s_pos)
  then
    let e_pos := find_from code end_str (s_pos + 1) in
    let e_pos :=
      find_enclosing_end (S (length code)) code s_pos start_str end_str e_pos in
    if (e_pos <? 0)%Z then ((-1)%Z, e_pos) else (s_pos, e_pos)
  else (s_pos, e_pos).

Definition is_in_comment (code : text) (pos : Z) : bool :=
  if (0 <=? pos)%Z && (pos <? len code)%Z then
    let cmnt_pos := rfind_in code (lit "/*") 0 pos in
    let in_comment :=
      if (0 <=? cmnt_pos)%Z then
        let cmnt_pos := find_in code (lit "*/") cmnt_pos pos in
        (cmnt_pos <? 0)%Z
      else false in
    if negb in_comment then
      let cmnt_pos := rfind_in code (lit "//") 0 pos in
      if (0 <=? cmnt_pos)%Z then
        let newline_pos := find_in code [LF] cmnt_pos pos in
        (newline_pos <? 0)%Z
      else false
    else in_comment
  else false.

Definition is_in_string (code : text) (pos : Z) : bool :=
  if (0 <=? pos)%Z && (pos <? len code)%Z then
    let newline_pos := (rfind_in code [LF] 0 pos + 1)%Z in
    let dbl_quote_count := count (slice code newline_pos pos) [DQUOTE] in
    let sgl_quote_count := count (slice code newline_pos pos) [SQUOTE] in
    Z.odd dbl_quote_count || Z.odd sgl_quote_count
  else false.

End CodeFormatter.

(** ** The earlier text utilities (src/cpreproc_utils.py) *)

Module CpreprocUtils.
Import Py.

(** The line-by-line [remove_line_escapes]. *)
Definition remove_line_escapes (code : text) (keep_newlines : bool) : text :=
  let out_code :=
    fold_left
      (fun out_code line =>
         if endswith (rstrip line) [BSLASH] then
           let line := rstrip (slice_to line (-1)) in
           if keep_newlines then out_code ++ line ++ [LF]
           else
             let line := lstrip line in
             out_code ++ line ++ [SP]
         else out_code ++ line ++ [LF])
      (splitlines code) [] in
  slice_to out_code (-1).

End CpreprocUtils.

(** ** The logger *)

Module Logger.
Import Py.

Inductive ErrSeverity : Type := INFO | WARNING | CRITICAL | SEVERE.

(** The error texts of the source; the formatted parts are kept as
    arguments. *)
Inductive message : Type :=
| FileNotFound (file_path : text)
| UnexpectedEndif
| UnterminatedComment
| UnterminatedIf
| DepthLimitExceeded
| MissingArguments (macro_id : text) (arity : nat)
| MacroBodyNotDetected (code : text)
| DefineUnexpectedFormatting (code : text).

(** One call of the error printer, with the location the tag [%l] stands
    for at that moment. *)
Record entry : Type := Entry {
  e_severity : ErrSeverity;
  e_message : message;
  e_file_name : text;
  e_file_line : nat
}.

(** The module-level logger [log], in its default configuration: every
    error reaches the error printer (and no message is printed at
    verbosity 0).  [errors] lists the printed errors, oldest first. *)
Record t : Type := Log {
  proc_file_name : text;
  proc_file_line : nat;
  errors : list entry
}.

Definition init : t := Log [] 0 [].

Definition err (m : message) (sev : ErrSeverity) (l : t) : t :=
  Log (proc_file_name l) (proc_file_line l)
      (errors l ++ [Entry sev m (proc_file_name l) (proc_file_line l)]).

Definition set_file_name (n : text) (l : t) : t :=
  Log n (proc_file_line l) (errors l).

Definition set_file_line (n : nat) (l : t) : t :=
  Log (proc_file_name l) n (errors l).

End Logger.

(** ** ConditionManager *)

Module ConditionManager.

Inductive BranchState : Type := ACTIVE | SEARCH | IGNORE.

Record t : Type := Cond {
  branch_state : BranchState;
  branch_state_stack : list BranchState
}.

Definition init : t := Cond ACTIVE [].

Definition reset (_ : t) : t := Cond ACTIVE [].

Definition branch_depth (c : t) : nat := length (branch_state_stack c).

Definition branch_active (c : t) : bool :=
  match branch_state c with ACTIVE => true | _ => false end.

Definition branch_search_active (c : t) : bool :=
  match branch_state c with SEARCH | ACTIVE => true | IGNORE => false end.

(** [list.append] adds at the end of the stack. *)
Definition enter_if (is_true : bool) (c : t) : t :=
  let stack := branch_state_stack c ++ [branch_state c] in
  match branch_state c with
  | ACTIVE => if negb is_true then Cond SEARCH stack else Cond ACTIVE stack
  | _ => Cond IGNORE stack
  end.

Definition enter_elif (is_true : bool) (c : t) : t :=
  match branch_state c with
  | SEARCH =>
      if is_true then Cond ACTIVE (branch_state_stack c) else c
  | _ => Cond IGNORE (branch_state_stack c)
  end.

(** [list.pop] takes the last element of the stack.  The logger is the
    module-level [log]; it is passed along. *)
Definition exit_if (c : t) (log : Logger.t) : t * Logger.t :=
  if 0 <? branch_depth c then
    (Cond (last (branch_state_stack c) ACTIVE)
          (removelast (branch_state_stack c)), log)
  else (c, Logger.err Logger.UnexpectedEndif Logger.CRITICAL log).

End ConditionManager.

(** ** PreprocOutput *)

Inductive CodeType : Type := CODE | DIRECTIVE | COMMENT | SPACE.

Module PreprocOutput.
Import Py.

Record t : Type := Output {
  last_space : text;
  last_comment : text;
  non_empty : bool;
  code : text;
  code_all : text
}.

Definition init : t := Output [] [] false [] [].

Definition reset (_ : t) : t := init.

Definition add_code_part (code_part : text) (code_type : CodeType) (o : t) : t :=
  let code_all' := code_all o ++ code_part ++ [LF] in
  match code_type with
  | SPACE =>
      Output (if non_empty o then code_part ++ [LF] else last_space o)
             [] (non_empty o) (code o) code_all'
  | COMMENT =>
      Output (last_space o) (last_comment o ++ code_part ++ [LF])
             (non_empty o) (code o) code_all'
  | DIRECTIVE =>
      Output [] [] (non_empty o) (code o) code_all'
  | CODE =>
      Output [] [] true
             (code o ++ last_space o ++ last_comment o ++ code_part ++ [LF])
             code_all'
  end.

End PreprocOutput.

(** ** PreprocInput *)

Module PreprocInput.
Import Py CodeFormatter.

(** One segment the generator [yield_code_parts] yields, with what it
    writes to the logger on the way: the index of the segment's first
    line, and whether "unterminated comment" is reported. *)
Record part : Type := Part {
  p_line : nat;
  p_unterminated : bool;
  p_type : CodeType;
  p_code : text
}.

(** Lines taken after a line that ends with a backslash: up to and
    including the first one that does not. *)
Fixpoint take_continued (lines : list text) : list text * list text :=
  match lines with
  | [] => ([], [])
  | l :: rest =>
      let in_line := rstrip l in
      if endswith in_line [BSLASH] then
        let (more, rest') := take_continued rest in (in_line :: more, rest')
      else ([in_line], rest)
  end.

(** Lines taken after a line that opens a comment: up to and including
    the first one that closes it; the flag tells whether the input ran
    out before (the [else] of the [while]). *)
Fixpoint take_comment (lines : list text) : list text * list text * bool :=
  match lines with
  | [] => ([], [], true)
  | l :: rest =>
      let in_line := rstrip l in
      if contains in_line (lit "*/") then ([in_line], rest, false)
      else
        let '(more, rest', unterminated) := take_comment rest in
        (in_line :: more, rest', unterminated)
  end.

(** Blank lines taken after an empty line. *)
Fixpoint take_blank (lines : list text) : list text * list text :=
  match lines with
  | [] => ([], [])
  | l :: rest =>
      if is_empty (strip l) then
        let (more, rest') := take_blank rest in ([] :: more, rest')
      else ([], lines)
  end.

Definition classify (out_code : text) : CodeType :=
  let out_code_stripped := strip out_code in
  if startswith out_code_stripped (lit "#") then DIRECTIVE
  else if is_empty out_code_stripped then SPACE
  else if (startswith out_code_stripped (lit "/*")
           && endswith out_code_stripped (lit "*/"))
          || startswith out_code_stripped (lit "//") then COMMENT
  else CODE.

(** The outer [while line_idx < code_lines_num] loop; each turn takes
    at least one line, so the number of lines is turns enough
    ([LoopFacts.yield_loop_runs]). *)
Fixpoint yield_loop (fuel : nat) (in_lines : list text) (line_idx : nat)
    : list part :=
  match fuel, in_lines with
  | S f, l :: rest =>
      let in_line := rstrip l in
      let '(more, rest', unterminated) :=
        if endswith in_line [BSLASH] then
          let (more, rest') := take_continued rest in (more, rest', false)
        else if contains in_line (lit "/*") && negb (contains in_line (lit "*/"))
        then take_comment rest
        else if is_empty in_line then
          let (more, rest') := take_blank rest in (more, rest', false)
        else ([], rest, false) in
      let out_code := join [LF] (in_line :: more) in
      Part line_idx unterminated (classify out_code) out_code
      :: yield_loop f rest' (line_idx + 1 + length more)
  | _, _ => []
  end.

Definition yield_code_parts (code : text) : list part :=
  let in_lines := splitlines code in
  yield_loop (length in_lines) in_lines 0.

End PreprocInput.

(** ** Macro *)

Module Macro.
Import Py Re.

Record t : Type := Macro {
  identifier : text;
  args : list text;
  body : text
}.

(** A name is interpolated into patterns, a value into replacement
    templates.  The embedding covers names made of word characters
    (they stand for themselves in a pattern) and values without a
    backslash (they stand for themselves in a template). *)
Definition plain_word (s : text) : bool := forallb is_word s.
Definition plain_value (s : text) : bool := negb (existsb (ch_eqb BSLASH) s).

(** The class "[\s\\]" *)
Definition space_or_backslash : ascii -> bool := either is_space (is_ch BSLASH).

(** Pattern "[\s\\]*##[\s\\]*" followed by the name *)
Definition re_concat_before (arg_name : text) : regex :=
  seqs [Star space_or_backslash; Lit (lit "##"); Star space_or_backslash;
        Lit arg_name].

(** The name followed by pattern "[\s\\]*##[\s\\]*" *)
Definition re_concat_after (arg_name : text) : regex :=
  seqs [Lit arg_name; Star space_or_backslash; Lit (lit "##");
        Star space_or_backslash].

(** Group 1 "^|[^#]", then "#\s*", the name, and group 2 "$|[^\w]";
    [re.MULTILINE] *)
Definition re_stringify (arg_name : text) : regex :=
  seqs [Grp 1 (Alt (Bol true) (Cls (neg (is_ch "#")))); Lit (lit "#");
        Star is_space; Lit arg_name;
        Grp 2 (Alt (Eol true) (Cls (neg is_word)))].

(** Group 1 "^|[^\w]", the name, and group 2 "$|[^\w]"; [re.MULTILINE] *)
Definition re_standalone (arg_name : text) : regex :=
  seqs [Grp 1 (Alt (Bol true) (Cls (neg is_word))); Lit arg_name;
        Grp 2 (Alt (Eol true) (Cls (neg is_word)))].

(** Pattern "[\s\\]*##[\s\\]*" *)
Definition re_concat : regex :=
  seqs [Star space_or_backslash; Lit (lit "##"); Star space_or_backslash].

(** The four substitutions made for one parameter. *)
Definition subst_arg (arg_name arg_val fully_exp_arg_val exp_code : text)
    : text :=
  let exp_code := Re.sub (re_concat_before arg_name) (fun _ => arg_val) exp_code in
  let exp_code := Re.sub (re_concat_after arg_name) (fun _ => arg_val) exp_code in
  let exp_code :=
    Re.sub (re_stringify arg_name)
      (fun m => group_or_empty exp_code m 1 ++ [DQUOTE] ++ arg_val
                ++ [DQUOTE] ++ group_or_empty exp_code m 2)
      exp_code in
  Re.sub (re_standalone arg_name)
    (fun m => group_or_empty exp_code m 1 ++ fully_exp_arg_val
              ++ group_or_empty exp_code m 2)
    exp_code.

(** The values of indices [arg_idx ..], each followed by ", ", without
    the last two characters. *)
Definition variadic_value (vals : list text) (arg_idx : nat) : text :=
  slice_to (fold_left (fun acc v => acc ++ v ++ lit ", ") (skipn arg_idx vals) [])
           (-2).

(** The body of the [for] loop over [enumerate(self.args)].  [None]: the
    call leaves the fragment covered (see [plain_word]), or indexes
    [fully_exp_arg_vals] out of range. *)
Definition expand_arg (arg_vals fully_exp_arg_vals : list text)
    (arg_idx : nat) (arg_name : text) (exp_code : text) : option text :=
  if text_eqb arg_name (lit "...") then
    if (arg_idx <? length arg_vals)
       && (length fully_exp_arg_vals <? length arg_vals) then None
    else
      let arg_name := lit "__VA_ARGS__" in
      let arg_val := variadic_value arg_vals arg_idx in
      let fully_exp_arg_val :=
        variadic_value
          (firstn (length arg_vals) fully_exp_arg_vals) arg_idx in
      if plain_value arg_val && plain_value fully_exp_arg_val
      then Some (subst_arg arg_name arg_val fully_exp_arg_val exp_code)
      else None
  else
    let arg_val := nth arg_idx arg_vals [] in
    let fully_exp_arg_val := nth arg_idx fully_exp_arg_vals [] in
    if plain_word arg_name && plain_value arg_val
       && plain_value fully_exp_arg_val
    then Some (subst_arg arg_name arg_val fully_exp_arg_val exp_code)
    else None.

Fixpoint expand_each (arg_vals fully_exp_arg_vals : list text)
    (arg_idx : nat) (names : list text) (exp_code : text) : option text :=
  match names with
  | [] => Some exp_code
  | arg_name :: names' =>
      match expand_arg arg_vals fully_exp_arg_vals arg_idx arg_name exp_code with
      | Some exp_code' =>
          expand_each arg_vals fully_exp_arg_vals (S arg_idx) names' exp_code'
      | None => None
      end
  end.

(** [expand_args(arg_vals, fully_exp_arg_vals)]; both are [None] in the
    source when the macro is referenced as an object-like one. *)
Definition expand_args (m : t) (vals : option (list text * list text))
    : option text :=
  let exp_code :=
    match vals with
    | Some (arg_vals, fully_exp_arg_vals) =>
        expand_each arg_vals fully_exp_arg_vals 0 (args m) (body m)
    | None => Some (body m)
    end in
  match exp_code with
  | Some exp_code => Some (lstrip (Re.sub re_concat (fun _ => []) exp_code))
  | None => None
  end.

End Macro.

(** ** The engine state and its monad *)

(** How a call ends.  [OutOfFuel]: the step budget of the embedding is
    used up before the call returns.  [Abort]: the call leaves the
    fragment the embedding covers (see [Macro.plain_word]) or raises an
    exception the source does not catch. *)
Inductive outcome (A : Type) : Type :=
| Done (a : A)
| OutOfFuel
| Abort.
Arguments Done {A} a.
Arguments OutOfFuel {A}.
Arguments Abort {A}.

Module FileIO.
Import Py.

(** [incl_dir_paths] starts as the list of the empty path. *)
Record t : Type := Files { incl_dir_paths : list text }.

Definition init : t := Files [[]].

End FileIO.

Module Engine.
Import Py.

(** The fields of a [PyCpp] object. *)
Record t : Type := Make {
  file_io : FileIO.t;
  output : PreprocOutput.t;
  cond_mngr : ConditionManager.t;
  macros : list (text * Macro.t)   (* a dict, in insertion order *)
}.

Definition init : t :=
  Make FileIO.init PreprocOutput.init ConditionManager.init [].

(** The engine object together with the module-level logger. *)
Record world : Type := World {
  self : t;
  log : Logger.t
}.

Definition init_world : world := World init Logger.init.

(** Dictionary operations on the macro table. *)
Fixpoint dict_mem (k : text) (d : list (text * Macro.t)) : bool :=
  match d with
  | [] => false
  | (k', _) :: d' => text_eqb k k' || dict_mem k d'
  end.

Fixpoint dict_set (k : text) (v : Macro.t) (d : list (text * Macro.t))
    : list (text * Macro.t) :=
  match d with
  | [] => [(k, v)]
  | (k', v') :: d' =>
      if text_eqb k k' then (k', v) :: d' else (k', v') :: dict_set k v d'
  end.

Fixpoint dict_del (k : text) (d : list (text * Macro.t))
    : list (text * Macro.t) :=
  match d with
  | [] => []
  | (k', v') :: d' =>
      if text_eqb k k' then d' else (k', v') :: dict_del k d'
  end.

(** State and outcome monad of the engine's methods. *)
Definition M (A : Type) : Type := world -> outcome (A * world).

Definition ret {A : Type} (a : A) : M A := fun w => Done (a, w).

Definition bind {A B : Type} (m : M A) (f : A -> M B) : M B :=
  fun w =>
    match m w with
    | Done (a, w') => f a w'
    | OutOfFuel => OutOfFuel
    | Abort => Abort
    end.

Definition out_of_fuel {A : Type} : M A := fun _ => OutOfFuel.
Definition abort {A : Type} : M A := fun _ => Abort.

Definition lift {A : Type} (o : option A) : M A :=
  match o with Some a => ret a | None => abort end.

Definition gets {A : Type} (f : world -> A) : M A := fun w => Done (f w, w).

Definition modify (f : world -> world) : M unit := fun w => Done (tt, f w).

Definition modify_log (f : Logger.t -> Logger.t) : M unit :=
  modify (fun w => World (self w) (f (log w))).

Definition log_err (m : Logger.message) (sev : Logger.ErrSeverity) : M unit :=
  modify_log (Logger.err m sev).

Definition set_cond_mngr (c : ConditionManager.t) : M unit :=
  modify (fun w =>
    World (Make (file_io (self w)) (output (self w)) c (macros (self w)))
          (log w)).

Definition set_macros (d : list (text * Macro.t)) : M unit :=
  modify (fun w =>
    World (Make (file_io (self w)) (output (self w)) (cond_mngr (self w)) d)
          (log w)).

Definition set_output (o : PreprocOutput.t) : M unit :=
  modify (fun w =>
    World (Make (file_io (self w)) o (cond_mngr (self w)) (macros (self w)))
          (log w)).

Definition set_log (l : Logger.t) : M unit :=
  modify (fun w => World (self w) l).

Fixpoint mapM {A B : Type} (f : A -> M B) (l : list A) : M (list B) :=
  match l with
  | [] => ret []
  | a :: l' =>
      bind (f a) (fun b => bind (mapM f l') (fun bs => ret (b :: bs)))
  end.

Fixpoint foldM {A B : Type} (f : B -> A -> M B) (l : list A) (b : B) : M B :=
  match l with
  | [] => ret b
  | a :: l' => bind (f b a) (fun b' => foldM f l' b')
  end.

End Engine.

Declare Scope engine_scope.
Delimit Scope engine_scope with engine.
Notation "x <- m ;; k" := (Engine.bind m (fun x => k))
  (at level 61, m at next level, right associativity) : engine_scope.
Notation "m ;; k" := (Engine.bind m (fun _ => k))
  (at level 61, right associativity) : engine_scope.

(** ** PyCpp: the macro expander *)

Module Expander.
Import Py Re CodeFormatter Engine.
Local Open Scope engine_scope.

(** Pattern "(?:^|[^\w])" then the group [id] (group 1) holding the
    identifier, then "\s*\(" for a macro with parameters and
    "(?:$|[^\w])" for one without; [re.MULTILINE].  The result is
    [None] when the identifier is not a plain word. *)
Definition get_macro_ident_pos (code macro_ident : text) (has_args : bool)
    : option Z :=
  if Macro.plain_word macro_ident then
    let macro_re_ptrn_end :=
      if has_args then Seq (Star is_space) (Lit (lit "("))
      else Alt (Eol true) (Cls (neg is_word)) in
    let re_match_macro_id :=
      Re.search
        (seqs [Alt (Bol true) (Cls (neg is_word)); Grp 1 (Lit macro_ident);
               macro_re_ptrn_end]) code in
    match re_match_macro_id with
    | Some m =>
        match group_span (m_groups m) 1 with
        | Some sp => Some (Z.of_nat (fst sp))
        | None => Some (-1)%Z
        end
    | None => Some (-1)%Z
    end
  else None.

Definition odd_count (s : text) (c : ascii) : bool := Z.odd (count s [c]).

(** The [for temp_arg in temp_args[1:]] loop; [args] is kept reversed,
    its head being [args[arg_idx]]. *)
Fixpoint collect_args (rev_args : list text) (temp_args : list text)
    : list text :=
  match temp_args with
  | [] => rev rev_args
  | temp_arg :: rest =>
      match rev_args with
      | [] => collect_args [strip temp_arg] rest
      | cur :: done =>
          if odd_count cur DQUOTE || odd_count cur SQUOTE
             || negb (count cur (lit "(") =? count cur (lit ")"))%Z
          then collect_args ((cur ++ lit ", " ++ temp_arg) :: done) rest
          else collect_args (strip temp_arg :: cur :: done) rest
      end
  end.

Definition extract_macro_ref_args (args_code : text) : list text :=
  if is_empty args_code then []
  else
    let args_code := replace (strip args_code) [LF] [] in
    match split args_code "," with
    | [] => []
    | first :: rest => collect_args [first] rest
    end.

Definition insert_expanded_macro (code : text)
    (macro_ref_start_pos macro_ref_end_pos : Z) (exp_macro_code : text) : text :=
  let out_code := slice_to code macro_ref_start_pos in
  let exp_macro_code :=
    if contains exp_macro_code [LF] then
      let macro_insert_line :=
        if contains out_code [LF] then last (splitlines out_code) []
        else out_code in
      let strip_insert_line := lstrip macro_insert_line in
      let indent_symbols :=
        if negb (is_empty strip_insert_line)
        then slice_to macro_insert_line (- len strip_insert_line)
        else macro_insert_line in
      join [LF]
        (match splitlines exp_macro_code with
         | [] => []
         | line0 :: lines =>
             line0 :: map (fun line => rstrip (indent_symbols ++ line)) lines
         end)
    else exp_macro_code in
  out_code ++ exp_macro_code ++ slice_from code macro_ref_end_pos.

(** Truth value of the list [macro.args]. *)
Definition has_args (m : Macro.t) : bool :=
  match Macro.args m with [] => false | _ => true end.

(** [expand_macros] and the [while] loop in it over the references to
    one macro.  Every call and every turn of the loop takes one unit of
    [fuel]. *)
Fixpoint expand_macros (fuel : nat) (code : text) (exp_depth : nat)
    {struct fuel} : M text :=
  match fuel with
  | O => out_of_fuel
  | S f =>
      let exp_code :=
        if exp_depth =? 0 then remove_line_escapes code false else code in
      if 512 <? exp_depth then
        log_err Logger.DepthLimitExceeded Logger.SEVERE ;;
        ret exp_code
      else
        table <- gets (fun w => macros (self w)) ;;
        foldM
          (fun exp_code (entry : text * Macro.t) =>
             let (macro_id, macro) := entry in
             macro_start_pos <-
               lift (get_macro_ident_pos exp_code macro_id (has_args macro)) ;;
             expand_refs f macro_id macro exp_depth exp_code macro_start_pos)
          table exp_code
  end

with expand_refs (fuel : nat) (macro_id : text) (macro : Macro.t)
    (exp_depth : nat) (exp_code : text) (macro_start_pos : Z)
    {struct fuel} : M text :=
  match fuel with
  | O => out_of_fuel
  | S f =>
      if (0 <=? macro_start_pos)%Z
         && negb (is_in_comment exp_code macro_start_pos)
         && negb (is_in_string exp_code macro_start_pos)
      then
        let macro_end_pos := (macro_start_pos + len macro_id)%Z in
        res <-
          (if has_args macro then
             let (args_start_pos, args_end_pos) :=
               get_enclosed_subst_pos exp_code macro_end_pos
                 (lit "(") (lit ")") RE_PTRN_IGNORED_PREFIX in
             let macro_end_pos :=
               if (0 <=? args_start_pos)%Z then (args_end_pos + 1)%Z
               else macro_end_pos in
             let arg_vals :=
               if (0 <=? args_start_pos)%Z then
                 extract_macro_ref_args
                   (slice exp_code (args_start_pos + 1) args_end_pos)
               else [] in
             (if length arg_vals <? length (Macro.args macro) then
                log_err (Logger.MissingArguments macro_id
                           (length (Macro.args macro))) Logger.CRITICAL
              else ret tt) ;;
             fully_exp_arg_vals <-
               mapM (fun arg_val => expand_macros f arg_val (S exp_depth))
                    arg_vals ;;
             exp_macro_code <-
               lift (Macro.expand_args macro
                       (Some (arg_vals, fully_exp_arg_vals))) ;;
             ret (macro_end_pos, exp_macro_code)
           else
             exp_macro_code <- lift (Macro.expand_args macro None) ;;
             ret (macro_end_pos, exp_macro_code)) ;;
        let (macro_end_pos, exp_macro_code) := res : Z * text in
        exp_macro_code <- expand_macros f exp_macro_code (S exp_depth) ;;
        let exp_code :=
          insert_expanded_macro exp_code macro_start_pos macro_end_pos
            exp_macro_code in
        macro_start_pos <-
          lift (get_macro_ident_pos exp_code macro_id (has_args macro)) ;;
        expand_refs f macro_id macro exp_depth exp_code macro_start_pos
      else ret exp_code
  end.

End Expander.

(** ** PyCpp: directives, expressions and the facade *)

(** What Python's [eval] gives on a text. *)
Inductive py_value : Type :=
| PyInt (z : Z)
| PyBool (b : bool)
| PyStr (s : Py.text)
| PyOther (truth : bool).      (* any other object, with its truth value *)

Inductive eval_result : Type :=
| EvalValue (v : py_value)
| EvalCaught      (* SyntaxError, NameError, TypeError, ZeroDivisionError *)
| EvalRaised.     (* any other exception *)

Module PyCpp.
Import Py Re CodeFormatter Engine Expander.
Local Open Scope engine_scope.

(** The directive patterns, compiled with [re.ASCII] only; all start
    with "^[ \t]*#[ \t]*" and the directive's name. *)
Definition directive_head (name : string) : list regex :=
  [Bol false; Star is_blank; Lit (lit "#"); Star is_blank;
   Lit (list_ascii_of_string name)].

(** "define[ \t]+", the group [ident] (group 1) "\w+", and optionally a
    parenthesis "\(" , the group [args] (group 2) "[^\)]*" and "\)" *)
Definition RE_DEFINE : regex :=
  seqs (directive_head "define" ++
        [Plus is_blank; Grp 1 (Plus is_word);
         Opt (seqs [Lit (lit "("); Grp 2 (Star (neg (is_ch ")")));
                    Lit (lit ")")])]).

(** "undef[ \t]+" and the group [ident] (group 1) "\w+" *)
Definition RE_UNDEF : regex :=
  seqs (directive_head "undef" ++ [Plus is_blank; Grp 1 (Plus is_word)]).

(** "include[ \t]+", a double quote or "<", the group [file] (group 1)
    of characters other than a double quote and ">", and a double quote
    or ">" *)
Definition RE_INCLUDE : regex :=
  seqs (directive_head "include" ++
        [Plus is_blank; Alt (Lit [DQUOTE]) (Lit (lit "<"));
         Grp 1 (Plus (neg (either (is_ch DQUOTE) (is_ch ">"))));
         Alt (Lit [DQUOTE]) (Lit (lit ">"))]).

(** The name, "[ \t]+" and the group [expr] (group 1) ".*" *)
Definition re_with_expr (name : string) : regex :=
  seqs (directive_head name ++ [Plus is_blank; Grp 1 (Star not_newline)]).

(** The name and "(?:\s|$)" *)
Definition re_bare (name : string) : regex :=
  seqs (directive_head name ++ [Alt (Cls is_space) (Eol false)]).

Definition RE_IF : regex := re_with_expr "if".
Definition RE_ELIF : regex := re_with_expr "elif".
Definition RE_ELSE : regex := re_bare "else".
Definition RE_ENDIF : regex := re_bare "endif".
Definition RE_IFDEF : regex := re_with_expr "ifdef".
Definition RE_IFNDEF : regex := re_with_expr "ifndef".

(** Pattern "(?:^|[ \t])defined[ \t]*\(?\s*", the group [ident]
    (group 1) "\w+", and "[ \t]*\)?"; [re.MULTILINE] *)
Definition RE_DEFINED : regex :=
  seqs [Alt (Bol true) (Cls is_blank); Lit (lit "defined"); Star is_blank;
        Opt (Lit (lit "(")); Star is_space; Grp 1 (Plus is_word);
        Star is_blank; Opt (Lit (lit ")"))].

Definition eval_defined (table : list (text * Macro.t)) (code : text) : text :=
  Re.sub RE_DEFINED
    (fun m =>
       match group code m 1 with
       | Some ident => if dict_mem ident table then lit " 1" else lit " 0"
       | None => lit " 0"
       end)
    code.

(** [Directive.process]: the pattern is matched against the directive
    with its line continuations joined; the handler gets the match and
    the joined text it refers to, and the directive as written. *)
Definition directive_process (re_ptrn : regex)
    (handler : text -> mres -> text -> M unit) (code : text) : M bool :=
  let joined_code := remove_line_escapes code false in
  match re_match re_ptrn joined_code with
  | Some m => handler joined_code m code ;; ret true
  | None => ret false
  end.

(** The directives of a group are tried in order until one matches. *)
Fixpoint process_group (ds : list (regex * (text -> mres -> text -> M unit)))
    (code : text) : M bool :=
  match ds with
  | [] => ret false
  | (re_ptrn, handler) :: ds' =>
      processed <- directive_process re_ptrn handler code ;;
      if processed : bool then ret true else process_group ds' code
  end.

Section WithEnvironment.

(** Python's [eval] on the text [evaluate] hands to it; taken here as a
    function of the text alone. *)
Variable py_eval : text -> eval_result.

(** [textwrap.dedent] *)
Variable dedent : text -> text.

(** The file system: the text of the file [file_path] looked up in the
    directory [dir], if there is such a file. *)
Variable read_path : text -> text -> option text.

(** [Path(p).name] *)
Variable path_name : text -> text.

(** [FileIO.read_file] *)
Definition read_file (file_path : text) : M text :=
  dirs <- gets (fun w => FileIO.incl_dir_paths (file_io (self w))) ;;
  match
    List.find (fun o => is_some o)
      (map (fun dir => read_path dir file_path) dirs)
  with
  | Some (Some file_code) => ret file_code
  | _ => log_err (Logger.FileNotFound file_path) Logger.WARNING ;; ret []
  end.

Definition preproc_eval_expr (fuel : nat) (code : text) : M text :=
  table <- gets (fun w => macros (self w)) ;;
  let out_code := eval_defined table code in
  out_code <- expand_macros fuel out_code 0 ;;
  let out_code := remove_line_escapes out_code false in
  let out_code := remove_comments out_code false false in
  let out_code := remove_num_type_suffix out_code in
  table <- gets (fun w => macros (self w)) ;;
  let out_code := eval_defined table out_code in
  let out_code := remove_empty_lines out_code in
  ret out_code.

(** The text [evaluate] hands to [eval].  (The substitution for "!" in
    between is computed and dropped by the source.) *)
Definition eval_input (fuel : nat) (expr_code : text) : M text :=
  expr_code <- preproc_eval_expr fuel expr_code ;;
  let expr_code :=
    replace (replace (replace expr_code (lit "&&") (lit " and "))
                     (lit "||") (lit " or "))
            (lit "/") (lit "//") in
  ret (replace expr_code (lit "import") []).

Definition evaluate (fuel : nat) (expr_code : text) : M py_value :=
  expr_code <- eval_input fuel expr_code ;;
  match py_eval expr_code with
  | EvalValue v => ret v
  | EvalCaught => ret (PyBool false)
  | EvalRaised => abort
  end.

(** [bool(state)] *)
Definition truth (v : py_value) : bool :=
  match v with
  | PyInt z => negb (z =? 0)%Z
  | PyBool b => b
  | PyStr s => negb (is_empty s)
  | PyOther b => b
  end.

Definition is_true (fuel : nat) (expr_code : text) : M bool :=
  expr_code <- preproc_eval_expr fuel expr_code ;;
  state <- evaluate fuel expr_code ;;
  match state with
  | PyStr _ => ret false
  | _ => ret (truth state)
  end.

(** *** Directive handlers *)

Definition update_cond (f : ConditionManager.t -> ConditionManager.t)
    : M unit :=
  c <- gets (fun w => cond_mngr (self w)) ;;
  set_cond_mngr (f c).

Definition process_if (fuel : nat) (joined : text) (m : mres) (code : text)
    : M unit :=
  active <- gets (fun w => ConditionManager.branch_active (cond_mngr (self w))) ;;
  is_true <- (if active : bool then is_true fuel (group_or_empty joined m 1)
              else ret false) ;;
  update_cond (ConditionManager.enter_if is_true).

Definition process_elif (fuel : nat) (joined : text) (m : mres) (code : text)
    : M unit :=
  active <-
    gets (fun w => ConditionManager.branch_search_active (cond_mngr (self w))) ;;
  is_true <- (if active : bool then is_true fuel (group_or_empty joined m 1)
              else ret false) ;;
  update_cond (ConditionManager.enter_elif is_true).

Definition process_else (joined : text) (m : mres) (code : text) : M unit :=
  update_cond (ConditionManager.enter_elif true).

Definition process_endif (joined : text) (m : mres) (code : text) : M unit :=
  c <- gets (fun w => cond_mngr (self w)) ;;
  l <- gets log ;;
  let (c', l') := ConditionManager.exit_if c l in
  set_cond_mngr c' ;;
  set_log l'.

Definition process_ifdef (joined : text) (m : mres) (code : text) : M unit :=
  table <- gets (fun w => macros (self w)) ;;
  update_cond
    (ConditionManager.enter_if (dict_mem (group_or_empty joined m 1) table)).

Definition process_ifndef (joined : text) (m : mres) (code : text) : M unit :=
  table <- gets (fun w => macros (self w)) ;;
  update_cond
    (ConditionManager.enter_if
       (negb (dict_mem (group_or_empty joined m 1) table))).

(** The pattern that ends where the macro body starts: the last
    parameter, "\s*" and a closing parenthesis, or the identifier and
    "[ \t]*".  The parameter "..." is, as a pattern, any three
    characters of a line. *)
Definition re_body_start (ident : text) (args_list : list text)
    : option regex :=
  match args_list with
  | [] => Some (Seq (Lit ident) (Star is_blank))
  | _ =>
      let last_arg := last args_list [] in
      if text_eqb last_arg (lit "...") then
        Some (seqs [Cls not_newline; Cls not_newline; Cls not_newline;
                    Star is_space; Lit (lit ")")])
      else if Macro.plain_word last_arg then
        Some (seqs [Lit last_arg; Star is_space; Lit (lit ")")])
      else None
  end.

Definition process_define (joined : text) (m : mres) (code : text) : M unit :=
  match group joined m 1 with
  | Some ident =>
      let args_list :=
        match group joined m 2 with
        | Some args => map strip (split args ",")
        | None => []
        end in
      let multiline_code := remove_line_escapes code true in
      re_ptrn <- lift (re_body_start ident args_list) ;;
      match Re.search re_ptrn multiline_code with
      | Some re_match =>
          let body :=
            rstrip (slice_from multiline_code (Z.of_nat (m_end re_match))) in
          let body :=
            if startswith body [LF] then dedent (slice_from body 1)
            else lstrip body in
          table <- gets (fun w => macros (self w)) ;;
          set_macros (dict_set ident (Macro.Macro ident args_list body) table)
      | None => log_err (Logger.MacroBodyNotDetected code) Logger.CRITICAL
      end
  | None => log_err (Logger.DefineUnexpectedFormatting code) Logger.CRITICAL
  end.

Definition process_undef (joined : text) (m : mres) (code : text) : M unit :=
  table <- gets (fun w => macros (self w)) ;;
  match group joined m 1 with
  | Some ident =>
      if dict_mem ident table then set_macros (dict_del ident table)
      else ret tt
  | None => ret tt
  end.

(** [process_file], given [process_code]. *)
Definition process_file_with
    (process_code : text -> bool -> bool -> text -> M text)
    (file_path : text) (global_output full_local_output : bool) : M text :=
  file_code <- read_file file_path ;;
  if is_empty file_code then ret []
  else process_code file_code global_output full_local_output
         (path_name file_path).

Definition process_include
    (process_code : text -> bool -> bool -> text -> M text)
    (joined : text) (m : mres) (code : text) : M unit :=
  match group joined m 1 with
  | Some file =>
      orig_log_file_name <- gets (fun w => Logger.proc_file_name (log w)) ;;
      process_file_with process_code file false false ;;
      modify_log (Logger.set_file_name orig_log_file_name)
  | None => ret tt
  end.

(** The two groups of [self.__directives]. *)
Definition conditional_directives (fuel : nat)
    : list (regex * (text -> mres -> text -> M unit)) :=
  [(RE_IF, process_if fuel); (RE_ELIF, process_elif fuel);
   (RE_ELSE, process_else); (RE_ENDIF, process_endif);
   (RE_IFDEF, process_ifdef); (RE_IFNDEF, process_ifndef)].

Definition standard_directives
    (process_code : text -> bool -> bool -> text -> M text)
    : list (regex * (text -> mres -> text -> M unit)) :=
  [(RE_DEFINE, process_define); (RE_UNDEF, process_undef);
   (RE_INCLUDE, process_include process_code)].

Definition process_directives (fuel : nat)
    (process_code : text -> bool -> bool -> text -> M text)
    (code : text) : M bool :=
  processed <- process_group (conditional_directives fuel) code ;;
  active <- gets (fun w => ConditionManager.branch_active (cond_mngr (self w))) ;;
  if negb processed && active then
    process_group (standard_directives process_code) code
  else ret processed.

(** *** The facade *)

(** The body of the [for] loop of [process_code] on one segment;
    [local_output] is threaded through. *)
Definition process_part (fuel : nat)
    (process_code : text -> bool -> bool -> text -> M text)
    (global_output : bool)
    (local_output : PreprocOutput.t) (p : PreprocInput.part)
    : M PreprocOutput.t :=
  modify_log (Logger.set_file_line (PreprocInput.p_line p)) ;;
  (if PreprocInput.p_unterminated p
   then log_err Logger.UnterminatedComment Logger.CRITICAL else ret tt) ;;
  let code_type := PreprocInput.p_type p in
  let code_part := PreprocInput.p_code p in
  code_part <-
    match code_type with
    | DIRECTIVE =>
        process_directives fuel process_code code_part ;; ret code_part
    | _ =>
        active <-
          gets (fun w => ConditionManager.branch_active (cond_mngr (self w))) ;;
        if active : bool then
          match code_type with
          | CODE => expand_macros fuel code_part 0
          | _ => ret code_part
          end
        else ret code_part
    end ;;
  (if global_output then
     o <- gets (fun w => output (self w)) ;;
     set_output (PreprocOutput.add_code_part code_part code_type o)
   else ret tt) ;;
  ret (PreprocOutput.add_code_part code_part code_type local_output).

(** The [for] loop of [process_code] over the segments. *)
Definition process_parts (fuel : nat)
    (process_code : text -> bool -> bool -> text -> M text)
    (global_output : bool) (parts : list PreprocInput.part)
    : M PreprocOutput.t :=
  foldM (process_part fuel process_code global_output) parts
    PreprocOutput.init.

Definition branch_depth_now : M nat :=
  gets (fun w => ConditionManager.branch_depth (cond_mngr (self w))).

(** [process_code]; a nested call, for an included file, takes one unit
    of [fuel]. *)
Fixpoint process_code (fuel : nat) (code : text)
    (global_output full_local_output : bool) (proc_file_name : text)
    {struct fuel} : M text :=
  match fuel with
  | O => out_of_fuel
  | S f =>
      modify_log (Logger.set_file_name proc_file_name) ;;
      orig_branch_depth <- branch_depth_now ;;
      let code := replace_tabs code 4 in
      local_output <-
        process_parts f (process_code f) global_output
          (PreprocInput.yield_code_parts code) ;;
      branch_depth <- branch_depth_now ;;
      (if negb (branch_depth =? orig_branch_depth)
       then log_err Logger.UnterminatedIf Logger.CRITICAL else ret tt) ;;
      ret (if full_local_output then PreprocOutput.code_all local_output
           else PreprocOutput.code local_output)
  end.

Definition process_file (fuel : nat) (file_path : text)
    (global_output full_local_output : bool) : M text :=
  process_file_with (process_code fuel) file_path global_output
    full_local_output.

End WithEnvironment.

End PyCpp.

(** ** Scenarios: the inputs the properties below are stated on *)

Module Scenario.
Import Py Engine.

(** What a call returns, if it returns. *)
Definition returned {A : Type} (o : outcome (A * world)) : option A :=
  match o with
  | Done (a, _) => Some a
  | _ => None
  end.

(** The state a call leaves behind, if it returns. *)
Definition final {A : Type} (o : outcome (A * world)) : option world :=
  match o with
  | Done (_, w) => Some w
  | _ => None
  end.

(** Lines joined by newlines. *)
Definition lines (l : list text) : text := join [LF] l.

(** The output assembler fed with a sequence of segments, from its
    initial state. *)
Definition feed (segs : list (text * CodeType)) : PreprocOutput.t :=
  fold_left (fun o s => PreprocOutput.add_code_part (fst s) (snd s) o)
    segs PreprocOutput.init.

Definition is_code (s : text * CodeType) : bool :=
  match snd s with CODE => true | _ => false end.

End Scenario.

(** Macro tables and inputs of the scenarios. *)
Module Tables.
Import Py Engine Scenario.

Definition with_macros (table : list (text * Macro.t)) : world :=
  World (Make FileIO.init PreprocOutput.init ConditionManager.init table)
        Logger.init.

(** The table after [#define SUM(A,B) A + B]. *)
Definition SUM : Macro.t :=
  Macro.Macro (lit "SUM") [lit "A"; lit "B"] (lit "A + B").
Definition sum_world : world := with_macros [(lit "SUM", SUM)].

(** The table after [#define CAT(a,b) a##b]. *)
Definition CAT : Macro.t :=
  Macro.Macro (lit "CAT") [lit "a"; lit "b"] (lit "a##b").
Definition cat_world : world := with_macros [(lit "CAT", CAT)].

(** The table after [#define X X]. *)
Definition X : Macro.t := Macro.Macro (lit "X") [] (lit "X").
Definition x_table : list (text * Macro.t) := [(lit "X", X)].

Definition sum_input : text :=
  lines [lit "#define SUM(A,B) A + B"; lit "SUM(11, 22)"; []].

Definition cat_input : text :=
  lines [lit "#define CAT(a,b) a##b"; lit "CAT(foo,bar)"].

Definition self_reference_input : text :=
  lines [lit "#define X X"; lit "X"].

Definition conditional_input : text :=
  lines [lit "#if 0"; lit "X"; lit "#else"; lit "Y"; lit "#endif"].

(** An environment without files, and an evaluator that knows the two
    literals 0 and 1 and rejects every other text. *)
Definition eval_bit (t : text) : eval_result :=
  if text_eqb t (lit "0") then EvalValue (PyInt 0)
  else if text_eqb t (lit "1") then EvalValue (PyInt 1)
  else EvalCaught.

Definition no_file (_ _ : text) : option text := None.

Definition same_text (t : text) : text := t.

End Tables.

Module SelfReference.
Import Py Engine Tables.

(** The engine after [#define X X], with any output and any state of
    the logger. *)
Definition x_world (o : PreprocOutput.t) (l : Logger.t) : world :=
  World (Make FileIO.init o ConditionManager.init x_table) l.

End SelfReference.

Module TopLevel.
Import Py Engine.

(** A world with an empty macro table and the initial include list. *)
Definition top_world (o : PreprocOutput.t) (c : ConditionManager.t)
    (l : Logger.t) : world :=
  World (Make FileIO.init o c []) l.

(** The segments of [Tables.conditional_input]. *)
Definition conditional_segments : list (text * CodeType) :=
  [(lit "#if 0", DIRECTIVE); (lit "X", CODE); (lit "#else", DIRECTIVE);
   (lit "Y", CODE); (lit "#endif", DIRECTIVE)].

End TopLevel.

Module Continuation.
Import Py.

(** A text with a continued line, on which the two versions of
    [remove_line_escapes] are compared. *)
Definition continued_input : text := lit "a\" ++ [LF] ++ lit "b".

(** Texts without a backslash, whose only line boundary is the
    newline, and which do not end with a newline. *)
Definition plain_char (c : ascii) : bool :=
  negb (ch_eqb c BSLASH) && (negb (is_linebreak c) || ch_eqb c LF).

Definition no_continuation (code : text) : bool :=
  forallb plain_char code && negb (endswith code [LF]).

Definition no_backslash (s : text) : Prop :=
  Forall (fun c => ch_eqb c BSLASH = false) s.

Definition with_newline (l : text) : text := l ++ [LF].

End Continuation.

Module Reports.
Import Py Engine.

Definition is_unterminated_if (m : Logger.message) : bool :=
  match m with Logger.UnterminatedIf => true | _ => false end.

(** How many times "unterminated #if" was reported. *)
Definition unterminated_ifs (l : Logger.t) : nat :=
  length (filter (fun e => is_unterminated_if (Logger.e_message e))
            (Logger.errors l)).

(** The number of "unterminated #if" reports is the same. *)
Definition same_reports (w w' : world) : Prop :=
  unterminated_ifs (log w') = unterminated_ifs (log w).

Definition depth_of (w : world) : nat :=
  ConditionManager.branch_depth (cond_mngr (self w)).

(** The state of a call of [process_code] when it enters its loop. *)
Definition at_entry (proc_file_name : text) (w : world) : world :=
  World (self w) (Logger.set_file_name proc_file_name (log w)).

(** The state of the call when it returns, from the state [w1] at the
    end of its loop: the engine is as the loop left it, and the error
    is reported when the depth differs from the depth [orig] at the
    entry. *)
Definition at_exit (orig : nat) (w1 : world) : world :=
  World (self w1)
    (if depth_of w1 =? orig then log w1
     else Logger.err Logger.UnterminatedIf Logger.CRITICAL (log w1)).

(** No file can be read. *)
Definition no_files (read_path : text -> text -> option text) : Prop :=
  forall dir file_path, read_path dir file_path = None.

End Reports.

Module Witnesses.
Import Py Engine Tables.

(** A reference to SUM without its closing parenthesis: the expander
    reports the missing arguments. *)
Definition unclosed_reference : text := lit "SUM(1".

Definition after_unclosed_reference : world :=
  World (self sum_world)
    (Logger.err (Logger.MissingArguments (lit "SUM") 2) Logger.CRITICAL
       Logger.init).

(** A conditional that is not closed. *)
Definition unclosed_conditional : text := lit "#ifdef A".

Definition after_unclosed_conditional : world :=
  World
    (Make FileIO.init
       (PreprocOutput.add_code_part (lit "#ifdef A") DIRECTIVE
          PreprocOutput.init)
       (ConditionManager.Cond ConditionManager.SEARCH
          [ConditionManager.ACTIVE])
       [])
    (Logger.err Logger.UnterminatedIf Logger.CRITICAL Logger.init).

End Witnesses.

Module Measures.
Import Py.

(** The number of tabs of a line: what the loop of [replace_tabs]
    uses up. *)
Definition is_tab (c : ascii) : bool := ch_eqb c TAB.

Definition tabs (s : text) : nat := length (filter is_tab s).

End Measures.

(** The two texts of [src/samples/sample.py]. *)
Module Sample.
Import Py Engine Scenario.

Definition SAMPLE_CODE_1 : text :=
  lines [[]; lit "#define SUM(A, B)   A + B"; []; lit "SUM(11, 22)"; []].

Definition SAMPLE_CODE_2 : text :=
  lines [[]; lit "#define SQR(A)      A * A"; lit "#define A 5"; [];
         lit "#ifdef A"; lit "    #define A_SQR   SQR(A)"; lit "#endif"; [];
         lit "A_SQR /* Outputs 5 * 5 */"; []].

(** The state of a call that returns (and the initial one otherwise). *)
Definition state_after {A : Type} (o : outcome (A * world)) : world :=
  match final o with Some w => w | None => init_world end.

End Sample.

(** Texts made of tidy lines: a backslash only occurs as the last
    character of a line that is not the last one, after blanks that
    follow a text which is empty or ends with a character that is not
    white space. *)
Module Tidy.
Import Py Re.

Definition line_char (c : ascii) : bool :=
  negb (is_linebreak c) && negb (ch_eqb c BSLASH).

Inductive line : Type :=
| Plain (l : text)                    (* a line without a backslash *)
| Continued (core blanks : text).     (* a line that ends with one *)

Definition ends_tidy (core : text) : bool :=
  match rev core with
  | [] => true
  | c :: _ => negb (isspace c)
  end.

Definition tidy_line (p : line) : bool :=
  match p with
  | Plain l => forallb line_char l
  | Continued core blanks =>
      forallb line_char core && ends_tidy core && forallb is_blank blanks
  end.

(** The line as it is written, and as it is after the continuation is
    removed. *)
Definition written (p : line) : text :=
  match p with
  | Plain l => l
  | Continued core blanks => core ++ blanks ++ [BSLASH]
  end.

Definition joined (p : line) : text :=
  match p with
  | Plain l => l
  | Continued core _ => core
  end.

(** The text of the lines [ps], each followed by a newline, and of a
    last line. *)
Definition text_of (ps : list line) (last_line : text) : text :=
  concat (map (fun p => written p ++ [LF]) ps) ++ last_line.

Definition joined_text_of (ps : list line) (last_line : text) : text :=
  concat (map (fun p => joined p ++ [LF]) ps) ++ last_line.

(** The last line has no backslash, and is empty only if it is the
    whole text. *)
Definition tidy (ps : list line) (last_line : text) : bool :=
  forallb tidy_line ps && forallb line_char last_line
  && (negb (CodeFormatter.is_empty last_line)
      || match ps with [] => true | _ => false end).

(** What takes the place of the end of a line when the continuations
    are removed: the newline of a plain line stays, the continuation of
    a continued line becomes a newline or nothing. *)
Definition ending (keep_newlines : bool) (p : line) : text :=
  match p with
  | Plain _ => [LF]
  | Continued _ _ => if keep_newlines then [LF] else []
  end.

Definition joined_with (keep_newlines : bool) (ps : list line)
    (last_line : text) : text :=
  concat (map (fun p => joined p ++ ending keep_newlines p) ps) ++ last_line.

(** What the line-by-line version makes of a line: a continued line
    loses its blanks and its backslash and is followed by a newline, or
    loses its indentation too and is followed by a space. *)
Definition line_by_line_piece (keep_newlines : bool) (p : line) : text :=
  match p with
  | Plain l => l ++ [LF]
  | Continued core _ =>
      if keep_newlines then core ++ [LF] else lstrip core ++ [SP]
  end.

Definition line_by_line_text (keep_newlines : bool) (ps : list line)
    (last_line : text) : text :=
  concat (map (line_by_line_piece keep_newlines) ps) ++ last_line.

(** A definition written on two lines, its value indented, and the
    line after it. *)
Definition sample_lines : list line :=
  [Continued (lit "#define A") (lit " "); Plain (lit "  1")].

Definition sample_last_line : text := lit "A".

(** A continuation of a match that can only go on at a backslash. *)
Definition needs_backslash (k : kont) (g : groups) : Prop :=
  forall c, startswith (c_rest c) [BSLASH] = false -> k c g = None.

(** What follows a text [s] stops a run of blanks that starts in [s]
    short of a backslash: [s] ends with a character that is not a
    blank, or the text after it is empty or starts with a character
    that is neither a blank nor a backslash. *)
Definition stops (s tail : text) : Prop :=
  (exists c s', s = s' ++ [c] /\ is_blank c = false)
  \/ tail = []
  \/ (exists c t, tail = c :: t /\ is_blank c = false
                  /\ ch_eqb c BSLASH = false).

End Tidy.

(** Chains of conditional directives: an [#if] followed by [#elif]s (an
    [#else] is an [#elif] whose condition holds). *)
Module Chains.
Import ConditionManager.

(** The condition manager after [enter_if b] and one [enter_elif] for
    each condition of [bs], in order. *)
Definition after_chain (b : bool) (bs : list bool) (c : t) : t :=
  fold_left (fun c b' => enter_elif b' c) bs (enter_if b c).

(** The last condition of the chain holds and none before it does. *)
Definition selects_last (b : bool) (bs : list bool) : bool :=
  negb (existsb (fun x => x) (removelast (b :: bs))) && last (b :: bs) false.

End Chains.

(** Lines: texts without a line boundary, and the text made of lines
    that are each followed by a newline. *)
Module Lines.
Import Py.

Definition no_break (l : text) : bool :=
  forallb (fun c => negb (is_linebreak c)) l.

Definition terminated (ls : list text) : text :=
  concat (map (fun l => l ++ [LF]) ls).

(** The lines of a text whose last line is [last_line]: it counts as a
    line unless it is empty. *)
Definition last_as_lines (last_line : text) : list text :=
  match last_line with [] => [] | _ => [last_line] end.

End Lines.

(** The segments of [yield_code_parts], as lines. *)
Module Segments.
Import Py PreprocInput.

(** The number of lines of a segment: one more than its newlines. *)
Definition line_count (p : part) : nat :=
  1 + Z.to_nat (count (p_code p) [LF]).

(** Every segment starts at the line index that the segments before it
    end at, from [line_idx] on. *)
Fixpoint numbered (line_idx : nat) (parts : list part) : bool :=
  match parts with
  | [] => true
  | p :: parts' =>
      (p_line p =? line_idx) && numbered (line_idx + line_count p) parts'
  end.

End Segments.

(** Tab stops: the expansion of the tabs of a line in one pass from the
    left, the column being counted in the expanded line. *)
Module TabStops.
Import Py.

(** The number of columns from [col] to the next multiple of
    [tab_size]. *)
Definition to_next_stop (tab_size : Z) (col : nat) : nat :=
  Z.to_nat (tab_size - Z.of_nat col mod tab_size).

Fixpoint expand_tabs (tab_size : Z) (col : nat) (l : text) : text :=
  match l with
  | [] => []
  | c :: l' =>
      if ch_eqb c TAB then
        spaces (to_next_stop tab_size col)
        ++ expand_tabs tab_size (col + to_next_stop tab_size col) l'
      else c :: expand_tabs tab_size (S col) l'
  end.

End TabStops.

(** Lines that [remove_empty_lines] keeps. *)
Module Blank.
Import Py CodeFormatter.

Definition not_blank (line : text) : bool := negb (is_empty (strip line)).

End Blank.

(** Texts in which a character does not occur. *)
Module Absent.
Import Py.

Definition lacks (x : ascii) (s : text) : Prop :=
  Forall (fun c => ch_eqb c x = false) s.

End Absent.

(** Arguments of a macro reference. *)
Module Arguments.
Import Py Expander.

(** An argument in which the quotes are paired and the parentheses
    closed: the test the loop of [extract_macro_ref_args] makes before
    it starts the next argument. *)
Definition complete (arg : text) : bool :=
  negb (odd_count arg DQUOTE || odd_count arg SQUOTE
        || negb (count arg (lit "(") =? count arg (lit ")"))%Z).

End Arguments.

(** What the directives and the facade leave unchanged, and what the
    output buffers receive. *)
Module Frames.
Import Py Engine.

(** Both output buffers and the include directories are the same. *)
Definition same_buffers (w w' : world) : Prop :=
  output (self w') = output (self w)
  /\ file_io (self w') = file_io (self w).

(** The macro table is the same too. *)
Definition same_tables (w w' : world) : Prop :=
  macros (self w') = macros (self w)
  /\ output (self w') = output (self w)
  /\ file_io (self w') = file_io (self w).

(** The text [process_code] returns from its local output. *)
Definition pick (full_local_output : bool) (o : PreprocOutput.t) : text :=
  if full_local_output then PreprocOutput.code_all o else PreprocOutput.code o.

(** An output assembler fed with a sequence of segments. *)
Definition feed_from (o : PreprocOutput.t) (segs : list (text * CodeType))
    : PreprocOutput.t :=
  fold_left (fun o s => PreprocOutput.add_code_part (fst s) (snd s) o) segs o.

End Frames.

(** States and inputs on which the frame properties are instantiated. *)
Module FrameWitnesses.
Import Py Engine.

(** An engine inside a branch that is not taken. *)
Definition inactive_world : world :=
  World
    (Make FileIO.init PreprocOutput.init
       (ConditionManager.Cond ConditionManager.SEARCH
          [ConditionManager.ACTIVE])
       [])
    Logger.init.

Definition a_definition : text := lit "#define A 1".

Definition one_line : text := lit "x".

(** The engine after [one_line] went to the global output. *)
Definition after_one_line : world :=
  World
    (Make FileIO.init
       (PreprocOutput.add_code_part one_line CODE PreprocOutput.init)
       ConditionManager.init [])
    Logger.init.

End FrameWitnesses.

(** Looking a file up in the include directories. *)
Module Lookup.
Import Py CodeFormatter Engine.

(** Some include directory of the engine holds the file. *)
Definition found (read_path : text -> text -> option text) (w : world)
    (file_path : text) : bool :=
  existsb (fun dir => is_some (read_path dir file_path))
    (FileIO.incl_dir_paths (file_io (self w))).

(** The state after a file was reported as not found. *)
Definition not_found (file_path : text) (w : world) : world :=
  World (self w)
    (Logger.err (Logger.FileNotFound file_path) Logger.WARNING (log w)).

End Lookup.

(** Spans of matches, and what a substitution keeps. *)
Module Spans.
Import Py Re.

(** The cursor [c'] is further in the same subject than [c]. *)
Definition extends (c c' : cursor) : Prop :=
  exists xs, c_rest c = xs ++ c_rest c'
             /\ c_pos c' = c_pos c + length xs.

(** A character and what stands in its place once the comments are
    replaced with spaces: the character itself, or a space if it is not
    a newline. *)
Definition blanked (a b : ascii) : Prop :=
  b = a \/ (b = SP /\ ch_eqb a LF = false).

(** The number of newlines of a text. *)
Definition newlines (s : text) : Z := count s [LF].

End Spans.

(** Places in a text, for the search of a macro identifier. *)
Module Places.
Import Py Re.

(** No word character stands at index [n] of the text (nothing stands
    there past its end). *)
Definition not_word_at (code : text) (n : nat) : bool :=
  match nth_error code n with
  | Some c => negb (is_word c)
  | None => true
  end.

(** The cursor is at a place of the text [code]. *)
Definition placed (code : text) (c : cursor) : Prop :=
  c_rest c = skipn (c_pos c) code
  /\ c_prev c = match c_pos c with
                | O => None
                | S n => nth_error code n
                end.

(** The end of the pattern, after the identifier. *)
Definition after_ident (with_args : bool) (rest : text) : Prop :=
  if with_args
  then exists ws t, rest = ws ++ "("%char :: t /\ forallb is_space ws = true
  else match rest with [] => True | c :: _ => is_word c = false end.

End Places.

(** The lines of an expanded macro body, as they are inserted at a
    reference that stands after the indentation [indent]. *)
Module Indentation.
Import Py.

Definition indented (indent : text) (exp_macro_code : text) : text :=
  if contains exp_macro_code [LF] then
    join [LF]
      (match splitlines exp_macro_code with
       | [] => []
       | line0 :: lines =>
           line0 :: map (fun line => rstrip (indent ++ line)) lines
       end)
  else exp_macro_code.

(** The text starts with something else than white space, if it is not
    empty. *)
Definition starts_tidy (s : text) : bool :=
  match s with
  | [] => true
  | c :: _ => negb (isspace c)
  end.

End Indentation.

(** Texts that only lose characters of a class. *)
Module Dropping.
Import Py Re.

(** [drops p x y]: the text [y] is the text [x] without some of its
    characters, all of them of the class [p]. *)
Inductive drops (p : ascii -> bool) : text -> text -> Prop :=
| drops_nil : drops p [] []
| drops_keep (a : ascii) (x y : text) :
    drops p x y -> drops p (a :: x) (a :: y)
| drops_drop (a : ascii) (x y : text) :
    p a = true -> drops p x y -> drops p (a :: x) y.

(** A pattern without a capture group. *)
Fixpoint group_free (r : regex) : bool :=
  match r with
  | Seq r1 r2 | Alt r1 r2 => group_free r1 && group_free r2
  | Grp _ _ => false
  | _ => true
  end.

End Dropping.

(** A definition of a macro without parameters, written on one line:
    "#define", a space, the name, a space and the body. *)
Module Definitions.
Import Py Engine.

Definition define_line (name body : text) : text :=
  lit "#define " ++ name ++ SP :: body.

(** The engine after the macro [name] got the body [body]. *)
Definition defined (name body : text) (w : world) : world :=
  World
    (Make (file_io (self w)) (output (self w)) (cond_mngr (self w))
       (dict_set name (Macro.Macro name [] body) (macros (self w))))
    (log w).

End Definitions.

(** The directives that name a macro: "#undef", "#ifdef" and "#ifndef"
    followed by a space and the name. *)
Module NamedDirectives.
Import Py Engine.

Definition undef_line (name : text) : text := lit "#undef " ++ name.
Definition ifdef_line (name : text) : text := lit "#ifdef " ++ name.
Definition ifndef_line (name : text) : text := lit "#ifndef " ++ name.

(** The engine with another macro table. *)
Definition with_table (table : list (text * Macro.t)) (w : world) : world :=
  World
    (Make (file_io (self w)) (output (self w)) (cond_mngr (self w)) table)
    (log w).

(** The engine after the condition manager entered an [#if]. *)
Definition entered (is_true : bool) (w : world) : world :=
  World
    (Make (file_io (self w)) (output (self w))
       (ConditionManager.enter_if is_true (cond_mngr (self w)))
       (macros (self w)))
    (log w).

End NamedDirectives.

(** * Properties of the embedding *)

(** ** The output assembler *)

Module OutputFacts.
Import Py PreprocOutput Scenario.

Lemma feed_snoc (segs : list (text * CodeType)) (s : text * CodeType) :
  feed (segs ++ [s]) = add_code_part (fst s) (snd s) (feed segs).
Proof. unfold feed. now rewrite fold_left_app. Qed.

(** The flag [non_empty] records whether a CODE segment was fed. *)
Lemma feed_non_empty (segs : list (text * CodeType)) :
  non_empty (feed segs) = existsb is_code segs.
Proof.
  induction segs as [|[part ty] segs IH] using rev_ind; [reflexivity|].
  rewrite feed_snoc, existsb_app, <- IH. cbn [fst snd existsb].
  unfold is_code. cbn [snd].
  destruct ty; cbn; now rewrite ?orb_false_r, ?orb_true_r.
Qed.

(** Nothing is pending as space before the first CODE segment. *)
Lemma feed_last_space (segs : list (text * CodeType)) :
  existsb is_code segs = false -> last_space (feed segs) = [].
Proof.
  induction segs as [|[part ty] segs IH] using rev_ind; [reflexivity|].
  rewrite feed_snoc, existsb_app. cbn [fst snd existsb].
  intros H. apply orb_false_iff in H as [H1 H2].
  unfold is_code in H2. cbn [snd] in H2.
  destruct ty; cbn in *; try discriminate; auto.
  rewrite feed_non_empty, H1. auto.
Qed.

(** C6. For every sequence of segments fed to [add_code_part] and every
    further segment: its text and a newline are appended to [code_all]
    whatever its kind; a SPACE segment becomes the pending space exactly
    when a CODE segment was fed before (otherwise nothing is pending)
    and clears the pending comment; a COMMENT segment is appended to the
    pending comment; a DIRECTIVE segment clears both; a CODE segment
    appends pending space, pending comment and its own text and newline
    to [code], clears both and marks the stream non-empty. *)
Theorem add_code_part_assembles :
  forall (segs : list (text * CodeType)) (code_part : text)
         (code_type : CodeType),
    let o := feed segs in
    let o' := add_code_part code_part code_type o in
    code_all o' = code_all o ++ code_part ++ [LF]
    /\ non_empty o = existsb is_code segs
    /\ match code_type with
       | SPACE =>
           last_space o'
           = (if existsb is_code segs then code_part ++ [LF] else [])
           /\ last_comment o' = []
           /\ code o' = code o /\ non_empty o' = non_empty o
       | COMMENT =>
           last_comment o' = last_comment o ++ code_part ++ [LF]
           /\ last_space o' = last_space o
           /\ code o' = code o /\ non_empty o' = non_empty o
       | DIRECTIVE =>
           last_space o' = [] /\ last_comment o' = []
           /\ code o' = code o /\ non_empty o' = non_empty o
       | CODE =>
           code o'
           = code o ++ last_space o ++ last_comment o ++ code_part ++ [LF]
           /\ last_space o' = [] /\ last_comment o' = []
           /\ non_empty o' = true
       end.
Proof.
  intros segs code_part code_type o o'.
  split; [now destruct code_type|].
  split; [apply feed_non_empty|].
  destruct code_type; cbn; repeat split.
  subst o. rewrite feed_non_empty.
  destruct (existsb is_code segs) eqn:E; [reflexivity|].
  now apply feed_last_space.
Qed.

End OutputFacts.

(** ** What a method of the engine leaves unchanged *)

Module Frame.
Import Py Engine.
Local Open Scope engine_scope.

(** [preserves R m]: whenever [m] returns, the states before and after
    are related by [R]. *)
Definition preserves {A : Type} (R : world -> world -> Prop) (m : M A)
    : Prop :=
  forall w a w', m w = Done (a, w') -> R w w'.

Section Rules.

Variable R : world -> world -> Prop.
Hypothesis R_refl : forall w, R w w.
Hypothesis R_trans : forall w1 w2 w3, R w1 w2 -> R w2 w3 -> R w1 w3.

Lemma preserves_ret {A : Type} (a : A) : preserves R (ret a).
Proof. intros w a' w' H. injection H as _ <-. apply R_refl. Qed.

Lemma preserves_gets {A : Type} (f : world -> A) : preserves R (gets f).
Proof. intros w a' w' H. injection H as _ <-. apply R_refl. Qed.

Lemma preserves_abort {A : Type} : preserves R (@abort A).
Proof. intros w a w' H. discriminate H. Qed.

Lemma preserves_out_of_fuel {A : Type} : preserves R (@out_of_fuel A).
Proof. intros w a w' H. discriminate H. Qed.

Lemma preserves_lift {A : Type} (o : option A) : preserves R (lift o).
Proof. destruct o; [apply preserves_ret | apply preserves_abort]. Qed.

Lemma preserves_bind {A B : Type} (m : M A) (f : A -> M B) :
  preserves R m -> (forall a, preserves R (f a)) -> preserves R (bind m f).
Proof.
  intros Hm Hf w b w' H. unfold bind in H.
  destruct (m w) as [[a w1]| |] eqn:E; try discriminate.
  eapply R_trans; [eapply Hm, E | eapply Hf, H].
Qed.

Lemma preserves_mapM {A B : Type} (f : A -> M B) (l : list A) :
  (forall a, preserves R (f a)) -> preserves R (mapM f l).
Proof.
  intros Hf. induction l as [|a l IH]; cbn [mapM].
  - apply preserves_ret.
  - apply preserves_bind; [apply Hf|]. intros b.
    apply preserves_bind; [apply IH|]. intros bs. apply preserves_ret.
Qed.

Lemma preserves_foldM {A B : Type} (f : B -> A -> M B) (l : list A) :
  (forall b a, preserves R (f b a)) -> forall b, preserves R (foldM f l b).
Proof.
  intros Hf. induction l as [|a l IH]; intros b; cbn [foldM].
  - apply preserves_ret.
  - apply preserves_bind; [apply Hf | intros b'; apply IH].
Qed.

Lemma preserves_modify (f : world -> world) :
  (forall w, R w (f w)) -> preserves R (modify f).
Proof. intros Hf w a w' H. injection H as _ <-. apply Hf. Qed.

End Rules.

(** The engine object is the same; only the logger may differ. *)
Definition same_engine (w w' : world) : Prop := self w' = self w.

Lemma same_engine_refl w : same_engine w w.
Proof. reflexivity. Qed.

Lemma same_engine_trans w1 w2 w3 :
  same_engine w1 w2 -> same_engine w2 w3 -> same_engine w1 w3.
Proof. unfold same_engine. congruence. Qed.

Lemma log_err_same_engine m sev : preserves same_engine (log_err m sev).
Proof. apply preserves_modify. reflexivity. Qed.

Ltac frame_step :=
  first
    [ apply (preserves_ret _ same_engine_refl)
    | apply (preserves_gets _ same_engine_refl)
    | apply (preserves_lift _ same_engine_refl)
    | apply preserves_out_of_fuel
    | apply log_err_same_engine
    | apply (preserves_bind same_engine_trans)
    | apply (preserves_mapM same_engine_refl same_engine_trans)
    | apply (preserves_foldM same_engine_refl same_engine_trans)
    | match goal with
      | |- preserves _ (if ?b then _ else _) => destruct b
      | |- preserves _ (let (_, _) := ?p in _) => destruct p
      | |- preserves _ (match ?x with _ => _ end) => destruct x
      end
    | intro ].

Import Expander.

Lemma expand_same_engine (fuel : nat) :
  (forall code exp_depth,
      preserves same_engine (expand_macros fuel code exp_depth))
  /\ (forall macro_id macro exp_depth exp_code macro_start_pos,
         preserves same_engine
           (expand_refs fuel macro_id macro exp_depth exp_code
              macro_start_pos)).
Proof.
  induction fuel as [|f [IHm IHr]].
  - split; intros; apply preserves_out_of_fuel.
  - split; intros; cbn [expand_macros expand_refs];
      repeat first [ apply IHm | apply IHr | frame_step ].
Qed.



End Frame.

(** ** Running the monad *)

Module Run.
Import Py Engine.

Lemma bind_done {A B : Type} (m : M A) (f : A -> M B) (w w' : world) (a : A) :
  m w = Done (a, w') -> bind m f w = f a w'.
Proof. intros H. unfold bind. now rewrite H. Qed.

Lemma bind_out_of_fuel {A B : Type} (m : M A) (f : A -> M B) (w : world) :
  m w = OutOfFuel -> bind m f w = OutOfFuel.
Proof. intros H. unfold bind. now rewrite H. Qed.

Lemma bind_ret {A : Type} (m : M A) (w : world) : bind m ret w = m w.
Proof. unfold bind, ret. now destruct (m w) as [[a w']| |]. Qed.

End Run.

(** ** The macro expander on a self-referential macro *)

Module Divergence.
Import Py CodeFormatter Engine Expander Scenario Tables SelfReference Run.
Local Open Scope engine_scope.

Lemma expand_macros_S (f : nat) (code : text) (exp_depth : nat) :
  expand_macros (S f) code exp_depth
  = (let exp_code :=
       if exp_depth =? 0 then remove_line_escapes code false else code in
     if 512 <? exp_depth then
       log_err Logger.DepthLimitExceeded Logger.SEVERE ;;
       ret exp_code
     else
       table <- gets (fun w => macros (self w)) ;;
       foldM
         (fun exp_code (entry : text * Macro.t) =>
            let (macro_id, macro) := entry in
            macro_start_pos <-
              lift (get_macro_ident_pos exp_code macro_id (has_args macro)) ;;
            expand_refs f macro_id macro exp_depth exp_code macro_start_pos)
         table exp_code).
Proof. reflexivity. Qed.

(** The loop over the references to an object-like macro. *)
Lemma expand_refs_S (f : nat) (macro_id : text) (macro : Macro.t)
    (exp_depth : nat) (exp_code : text) (macro_start_pos : Z) :
  has_args macro = false ->
  ((0 <=? macro_start_pos)%Z
   && negb (is_in_comment exp_code macro_start_pos)
   && negb (is_in_string exp_code macro_start_pos)) = true ->
  expand_refs (S f) macro_id macro exp_depth exp_code macro_start_pos
  = (exp_macro_code <- lift (Macro.expand_args macro None) ;;
     exp_macro_code <- expand_macros f exp_macro_code (S exp_depth) ;;
     let exp_code :=
       insert_expanded_macro exp_code macro_start_pos
         (macro_start_pos + len macro_id) exp_macro_code in
     macro_start_pos <-
       lift (get_macro_ident_pos exp_code macro_id (has_args macro)) ;;
     expand_refs f macro_id macro exp_depth exp_code macro_start_pos).
Proof.
  intros Hargs Hcond. cbn [expand_refs]. rewrite Hcond, Hargs.
  unfold bind, lift.
  destruct (Macro.expand_args macro None); reflexivity.
Qed.

(** What the parts of the loop compute on the text X. *)
Lemma x_is_found :
  get_macro_ident_pos (lit "X") (lit "X") (has_args X) = Some 0%Z.
Proof. vm_compute. reflexivity. Qed.

Lemma x_is_code :
  ((0 <=? 0)%Z && negb (is_in_comment (lit "X") 0)
   && negb (is_in_string (lit "X") 0)) = true.
Proof. vm_compute. reflexivity. Qed.

Lemma x_body : Macro.expand_args X None = Some (lit "X").
Proof. vm_compute. reflexivity. Qed.

Lemma x_put_back :
  insert_expanded_macro (lit "X") 0 (0 + len (lit "X")) (lit "X") = lit "X".
Proof. vm_compute. reflexivity. Qed.

Lemma x_has_no_continuation : remove_line_escapes (lit "X") false = lit "X".
Proof. vm_compute. reflexivity. Qed.

(** Past the depth limit the text comes back unchanged, with a SEVERE
    error. *)
Lemma past_limit (f : nat) (o : PreprocOutput.t) (l : Logger.t) :
  expand_macros (S f) (lit "X") 513 (x_world o l)
  = Done (lit "X",
          x_world o (Logger.err Logger.DepthLimitExceeded Logger.SEVERE l)).
Proof. reflexivity. Qed.

(** One call on the text X is one entry into the loop over the
    references to X. *)
Lemma enter_loop (f : nat) (d : nat) (o : PreprocOutput.t) (l : Logger.t) :
  d <= 512 ->
  expand_macros (S f) (lit "X") d (x_world o l)
  = expand_refs f (lit "X") X d (lit "X") 0 (x_world o l).
Proof.
  intros Hd. rewrite expand_macros_S.
  assert (E : (512 <? d) = false) by (apply Nat.ltb_ge; exact Hd).
  cbv zeta. rewrite E, x_has_no_continuation.
  replace (if d =? 0 then lit "X" else lit "X") with (lit "X")
    by now destruct (d =? 0).
  erewrite bind_done by reflexivity.
  change (macros (self (x_world o l))) with [(lit "X", X)].
  cbn [foldM]. rewrite bind_ret.
  rewrite x_is_found. reflexivity.
Qed.

(** One turn of the loop: the body X is expanded one level deeper; if
    that returns X, the loop is entered again on the same text. *)
Lemma turn (f : nat) (d : nat) (o : PreprocOutput.t) (l : Logger.t) :
  expand_refs (S f) (lit "X") X d (lit "X") 0 (x_world o l)
  = (exp_macro_code <- expand_macros f (lit "X") (S d) ;;
     let exp_code :=
       insert_expanded_macro (lit "X") 0 (0 + len (lit "X")) exp_macro_code in
     macro_start_pos <-
       lift (get_macro_ident_pos exp_code (lit "X") (has_args X)) ;;
     expand_refs f (lit "X") X d exp_code macro_start_pos) (x_world o l).
Proof.
  rewrite (expand_refs_S f (lit "X") X d (lit "X") 0 eq_refl x_is_code).
  rewrite x_body. reflexivity.
Qed.

Lemma loop_at_limit (o : PreprocOutput.t) (f : nat) :
  forall l,
    expand_refs f (lit "X") X 512 (lit "X") 0 (x_world o l) = OutOfFuel.
Proof.
  induction f as [|f IH]; intros l; [reflexivity|].
  rewrite turn. destruct f as [|f']; [reflexivity|].
  erewrite bind_done by apply past_limit.
  cbv zeta. rewrite x_put_back, x_is_found. apply IH.
Qed.

Lemma diverges_below (o : PreprocOutput.t) (n : nat) :
  forall d, d + n = 512 ->
    (forall f l,
        expand_refs f (lit "X") X d (lit "X") 0 (x_world o l) = OutOfFuel)
    /\ (forall f l, expand_macros f (lit "X") d (x_world o l) = OutOfFuel).
Proof.
  induction n as [|n IH]; intros d Hd.
  - assert (d = 512) by lia. subst d.
    split; [intros; apply loop_at_limit|].
    intros [|f] l; [reflexivity|].
    rewrite enter_loop by lia. apply loop_at_limit.
  - destruct (IH (S d) ltac:(lia)) as [_ IHm].
    assert (Hr : forall f l,
               expand_refs f (lit "X") X d (lit "X") 0 (x_world o l)
               = OutOfFuel).
    { intros [|f] l; [reflexivity|].
      rewrite turn. apply bind_out_of_fuel, IHm. }
    split; [exact Hr|].
    intros [|f] l; [reflexivity|].
    rewrite enter_loop by lia. apply Hr.
Qed.

(** With the table of [#define X X], the call [expand_macros("X")] does
    not return, whatever the number of steps it is given. *)
Lemma expand_self_reference_diverges :
  forall (fuel : nat) (o : PreprocOutput.t) (l : Logger.t),
    expand_macros fuel (lit "X") 0 (x_world o l) = OutOfFuel.
Proof.
  intros fuel o l. apply (proj2 (diverges_below o 512 0 eq_refl)).
Qed.

End Divergence.

(** ** The facade on the scenarios *)

Module Facade.
Import Py Re CodeFormatter Engine Expander PyCpp Scenario Tables SelfReference
  TopLevel Run.
Local Open Scope engine_scope.

Section WithEnvironment.

Variable py_eval : text -> eval_result.
Variable dedent : text -> text.
Variable read_path : text -> text -> option text.
Variable path_name : text -> text.

Local Abbreviation process_code :=
  (process_code py_eval dedent read_path path_name).
Local Abbreviation process_parts :=
  (process_parts py_eval dedent read_path path_name).
Local Abbreviation process_part :=
  (process_part py_eval dedent read_path path_name).

Lemma process_code_S (f : nat) (code : text)
    (global_output full_local_output : bool) (proc_file_name : text) :
  process_code (S f) code global_output full_local_output proc_file_name
  = (modify_log (Logger.set_file_name proc_file_name) ;;
     orig_branch_depth <- branch_depth_now ;;
     let code := replace_tabs code 4 in
     local_output <-
       process_parts f (process_code f) global_output
         (PreprocInput.yield_code_parts code) ;;
     branch_depth <- branch_depth_now ;;
     (if negb (branch_depth =? orig_branch_depth)
      then log_err Logger.UnterminatedIf Logger.CRITICAL else ret tt) ;;
     ret (if full_local_output then PreprocOutput.code_all local_output
          else PreprocOutput.code local_output)).
Proof. reflexivity. Qed.

Lemma self_reference_parts :
  PreprocInput.yield_code_parts (replace_tabs self_reference_input 4)
  = [PreprocInput.Part 0 false DIRECTIVE (lit "#define X X");
     PreprocInput.Part 1 false CODE (lit "X")].
Proof. vm_compute. reflexivity. Qed.

(** C3. Processing [#define X X] followed by the reference [X] does not
    return: with any number of steps, and in any environment,
    [process_code] is still running when the steps are used up.  (The
    loop over the references to X finds X again after each expansion,
    also at the depth limit, where each turn reports the SEVERE
    error.) *)
Theorem self_reference_never_returns :
  forall (fuel : nat),
    process_code fuel self_reference_input true false [] init_world
    = OutOfFuel.
Proof.
  intros [|f]; [reflexivity|].
  rewrite process_code_S.
  erewrite bind_done by reflexivity.
  erewrite bind_done by reflexivity.
  cbv zeta. rewrite self_reference_parts.
  apply bind_out_of_fuel.
  unfold PyCpp.process_parts. cbn [foldM].
  erewrite bind_done by (vm_compute; reflexivity).
  apply bind_out_of_fuel.
  unfold PyCpp.process_part.
  erewrite bind_done by reflexivity.
  erewrite bind_done by reflexivity.
  apply bind_out_of_fuel.
  apply (Divergence.expand_self_reference_diverges f).
Qed.

Lemma sum_parts :
  PreprocInput.yield_code_parts (replace_tabs sum_input 4)
  = [PreprocInput.Part 0 false DIRECTIVE (lit "#define SUM(A,B) A + B");
     PreprocInput.Part 1 false CODE (lit "SUM(11, 22)")].
Proof. vm_compute. reflexivity. Qed.

(** C7. Processing [#define SUM(A,B) A + B] followed by the line
    [SUM(11, 22)] returns the trimmed local output [11 + 22] and a
    newline, given six steps or more; the directive has put the macro
    SUM, with the parameters A and B and the body [A + B], into the
    table. *)
Theorem sum_is_expanded :
  forall (fuel : nat),
    returned
      (process_code (6 + fuel) sum_input true false [] init_world)
    = Some (lit "11 + 22" ++ [LF])
    /\ option_map (fun w => macros (self w))
         (final (process_code (6 + fuel) sum_input true false [] init_world))
       = Some [(lit "SUM", SUM)].
Proof. intros fuel. split; vm_compute; reflexivity. Qed.

(** C2, as the code has it. After [#define CAT(a,b) a##b] the reference
    [CAT(foo,bar)] expands to [foob]: the substitution for the first
    parameter removes the operator, and the second parameter, now next
    to a word character, is not replaced. *)
Theorem token_pasting_drops_second_argument :
  forall (fuel : nat),
    option_map (fun w => macros (self w))
      (final (process_code (6 + fuel) cat_input true false [] init_world))
    = Some [(lit "CAT", CAT)]
    /\ returned (expand_macros (5 + fuel) (lit "CAT(foo,bar)") 0 cat_world)
       = Some (lit "foob")
    /\ returned (process_code (6 + fuel) cat_input true false [] init_world)
       = Some (lit "foob" ++ [LF]).
Proof. intros fuel. repeat split; vm_compute; reflexivity. Qed.

(** A segment that is not a directive is handed to the output whatever
    the branch state: outside an active branch it is only left
    unexpanded. *)
Lemma inactive_part_is_kept :
  forall (fuel : nat) (pc : text -> bool -> bool -> text -> M text)
         (local_output : PreprocOutput.t) (line : nat) (code_part : text)
         (w : world),
    ConditionManager.branch_active (cond_mngr (self w)) = false ->
    returned
      (process_part fuel pc false local_output
         (PreprocInput.Part line false CODE code_part) w)
    = Some (PreprocOutput.add_code_part code_part CODE local_output).
Proof.
  intros fuel pc local_output line code_part w H.
  unfold PyCpp.process_part, bind, modify_log, modify, gets, ret.
  cbn. rewrite H. reflexivity.
Qed.

(** [is_true] in terms of what [eval] gives on the text handed to it. *)
Lemma is_true_of_value (fuel : nat) (expr_code e1 e2 : text) (w w1 w2 : world)
    (v : py_value) :
  preproc_eval_expr fuel expr_code w = Done (e1, w1) ->
  eval_input fuel e1 w1 = Done (e2, w2) ->
  py_eval e2 = EvalValue v ->
  is_true py_eval fuel expr_code w
  = Done (match v with PyStr _ => false | _ => truth v end, w2).
Proof.
  intros Hp He Hv. unfold is_true, evaluate.
  erewrite bind_done by exact Hp.
  erewrite bind_done
    by (erewrite bind_done by exact He; rewrite Hv; reflexivity).
  now destruct v.
Qed.

Lemma is_true_of_caught (fuel : nat) (expr_code e1 e2 : text)
    (w w1 w2 : world) :
  preproc_eval_expr fuel expr_code w = Done (e1, w1) ->
  eval_input fuel e1 w1 = Done (e2, w2) ->
  py_eval e2 = EvalCaught ->
  is_true py_eval fuel expr_code w = Done (false, w2).
Proof.
  intros Hp He Hv. unfold is_true, evaluate.
  erewrite bind_done by exact Hp.
  erewrite bind_done
    by (erewrite bind_done by exact He; rewrite Hv; reflexivity).
  reflexivity.
Qed.

(** The directive [#if 0] at the top level, for an [eval] that gives 0
    on the text [0]: the condition manager goes to SEARCH. *)
Lemma is_true_zero (f : nat) (o : PreprocOutput.t) (c : ConditionManager.t)
    (l : Logger.t) :
  py_eval (lit "0") = EvalValue (PyInt 0) ->
  is_true py_eval (S f) (lit "0") (top_world o c l)
  = Done (false, top_world o c l).
Proof.
  intros H.
  apply is_true_of_value
    with (e1 := lit "0") (e2 := lit "0") (w1 := top_world o c l)
         (v := PyInt 0);
    [vm_compute; reflexivity | vm_compute; reflexivity | exact H].
Qed.

Lemma if_zero_matches :
  re_match RE_IF (remove_line_escapes (lit "#if 0") false)
  = Some (MRes 0 5 [(1, (4, 5))]).
Proof. vm_compute. reflexivity. Qed.

Lemma if_zero_handler (f : nat) (o : PreprocOutput.t) (l : Logger.t) :
  py_eval (lit "0") = EvalValue (PyInt 0) ->
  process_if py_eval (S f) (lit "#if 0") (MRes 0 5 [(1, (4, 5))])
    (lit "#if 0") (top_world o ConditionManager.init l)
  = Done (tt,
          top_world o
            (ConditionManager.Cond ConditionManager.SEARCH
               [ConditionManager.ACTIVE]) l).
Proof.
  intros H. unfold process_if.
  erewrite bind_done by reflexivity.
  erewrite bind_done by exact (is_true_zero f o ConditionManager.init l H).
  reflexivity.
Qed.

Lemma if_zero_directive (f : nat) (o : PreprocOutput.t) (l : Logger.t)
    (pc : text -> bool -> bool -> text -> M text) :
  py_eval (lit "0") = EvalValue (PyInt 0) ->
  process_directives py_eval dedent read_path path_name (S f) pc
    (lit "#if 0") (top_world o ConditionManager.init l)
  = Done (true,
          top_world o
            (ConditionManager.Cond ConditionManager.SEARCH
               [ConditionManager.ACTIVE]) l).
Proof.
  intros H. unfold process_directives, conditional_directives.
  cbn [process_group]. unfold directive_process at 1.
  rewrite if_zero_matches.
  erewrite bind_done
    by (erewrite bind_done
          by (erewrite bind_done by exact (if_zero_handler f o l H);
              reflexivity);
        reflexivity).
  reflexivity.
Qed.

Lemma conditional_parts :
  PreprocInput.yield_code_parts (replace_tabs conditional_input 4)
  = [PreprocInput.Part 0 false DIRECTIVE (lit "#if 0");
     PreprocInput.Part 1 false CODE (lit "X");
     PreprocInput.Part 2 false DIRECTIVE (lit "#else");
     PreprocInput.Part 3 false CODE (lit "Y");
     PreprocInput.Part 4 false DIRECTIVE (lit "#endif")].
Proof. vm_compute. reflexivity. Qed.

(** All five segments reach the output assembler, in both streams. *)
Lemma conditional_loop (f : nat)
    (pc : text -> bool -> bool -> text -> M text) :
  py_eval (lit "0") = EvalValue (PyInt 0) ->
  process_parts (S f) pc true
    (PreprocInput.yield_code_parts (replace_tabs conditional_input 4))
    (top_world PreprocOutput.init ConditionManager.init Logger.init)
  = Done (feed conditional_segments,
          top_world (feed conditional_segments) ConditionManager.init
            (Logger.Log [] 4 [])).
Proof.
  intros H. rewrite conditional_parts.
  unfold PyCpp.process_parts. cbn [foldM].
  erewrite bind_done.
  2: { unfold PyCpp.process_part.
       erewrite bind_done by reflexivity.
       erewrite bind_done by reflexivity.
       cbn [PreprocInput.p_type PreprocInput.p_code].
       erewrite bind_done
         by (erewrite bind_done
               by exact (if_zero_directive f PreprocOutput.init
                           (Logger.Log [] 0 []) pc H);
             reflexivity).
       vm_compute. reflexivity. }
  vm_compute. reflexivity.
Qed.

(** C1, as the code has it. On the five lines [#if 0], [X], [#else],
    [Y], [#endif] the trimmed output of [process_code] holds both X and
    Y; the verbatim output holds the five lines. *)
Theorem inactive_branch_is_emitted :
  forall (fuel : nat),
    py_eval (lit "0") = EvalValue (PyInt 0) ->
    returned
      (process_code (2 + fuel) conditional_input true false [] init_world)
    = Some (lines [lit "X"; lit "Y"; []])
    /\ returned
         (process_code (2 + fuel) conditional_input true true [] init_world)
       = Some (lines [lit "#if 0"; lit "X"; lit "#else"; lit "Y";
                      lit "#endif"; []]).
Proof.
  intros fuel H. change (2 + fuel) with (S (S fuel)).
  split; rewrite process_code_S;
    (erewrite bind_done by reflexivity);
    (erewrite bind_done by reflexivity);
    cbv zeta;
    (erewrite bind_done by exact (conditional_loop fuel _ H));
    vm_compute; reflexivity.
Qed.

(** C5, as the code has it. [remove_comments] without a mode returns
    its argument, so a comment reaches [eval]: for an [eval] that gives
    1 on the text [1] and rejects the text [1 //* c *//] as a syntax
    error, [is_true] is false on [1 /* c */] and true on [1]. *)
Theorem comment_reaches_eval :
  forall (fuel : nat),
    py_eval (lit "1") = EvalValue (PyInt 1) ->
    py_eval (lit "1 //* c *//") = EvalCaught ->
    (forall code : text, remove_comments code false false = code)
    /\ returned (eval_input (1 + fuel) (lit "1 /* c */") init_world)
       = Some (lit "1 //* c *//")
    /\ returned (is_true py_eval (1 + fuel) (lit "1 /* c */") init_world)
       = Some false
    /\ returned (is_true py_eval (1 + fuel) (lit "1") init_world)
       = Some true.
Proof.
  intros fuel H1 Hc. change (1 + fuel) with (S fuel).
  split; [reflexivity|]. split; [vm_compute; reflexivity|]. split.
  - erewrite is_true_of_caught
      with (e1 := lit "1 /* c */") (e2 := lit "1 //* c *//")
           (w1 := init_world) (w2 := init_world);
      [reflexivity | vm_compute; reflexivity | vm_compute; reflexivity
      | exact Hc].
  - erewrite is_true_of_value
      with (e1 := lit "1") (e2 := lit "1")
           (w1 := init_world) (w2 := init_world) (v := PyInt 1);
      [reflexivity | vm_compute; reflexivity | vm_compute; reflexivity
      | exact H1].
Qed.

End WithEnvironment.

(** The scenario of C1 in an environment without files, with the
    evaluator [eval_bit]. *)
Lemma inactive_branch_is_emitted_witness :
  eval_bit (lit "0") = EvalValue (PyInt 0)
  /\ returned
       (PyCpp.process_code eval_bit same_text no_file same_text 3
          conditional_input true false [] init_world)
     = Some (lines [lit "X"; lit "Y"; []]).
Proof.
  split; [reflexivity|].
  apply (inactive_branch_is_emitted eval_bit same_text no_file same_text 1).
  reflexivity.
Defined.

Lemma comment_reaches_eval_witness :
  eval_bit (lit "1") = EvalValue (PyInt 1)
  /\ eval_bit (lit "1 //* c *//") = EvalCaught
  /\ returned (is_true eval_bit 1 (lit "1 /* c */") init_world) = Some false
  /\ returned (is_true eval_bit 1 (lit "1") init_world) = Some true.
Proof.
  split; [reflexivity|]. split; [reflexivity|].
  apply (comment_reaches_eval eval_bit 0); reflexivity.
Defined.

End Facade.

(** ** The text utilities *)

Module TextFacts.
Import Py Re CodeFormatter Continuation.

(** *** The ignored prefix of [get_enclosed_subst_pos] *)

Lemma star_greedy_total (p : ascii -> bool) (k : kont) (rest : text) :
  (forall c g, k c g <> None) ->
  forall pos prev g, star_greedy p rest pos prev g k <> None.
Proof.
  intros Hk. induction rest as [|a t IH]; intros pos prev g; cbn.
  - apply Hk.
  - destruct (p a); [|apply Hk].
    destruct (star_greedy p t (S pos) (Some a) g k) eqn:E;
      [discriminate | apply Hk].
Qed.

(** The pattern "\s*" matches at every position, so the test on the
    ignored prefix never fails. *)
Lemma ignored_prefix_always_matches (code : text) (start_pos s_pos : Z) :
  (0 <= start_pos <= s_pos)%Z -> (s_pos <= len code)%Z ->
  is_some (match_range RE_PTRN_IGNORED_PREFIX code start_pos s_pos) = true.
Proof.
  intros H1 H2. unfold match_range.
  replace (Z.min s_pos (len code)) with s_pos by lia.
  assert (E : len (firstn (Z.to_nat s_pos) code) = s_pos).
  { unfold len in *. rewrite length_firstn. lia. }
  rewrite E. replace (s_pos <? start_pos)%Z with false by lia.
  unfold match_here, RE_PTRN_IGNORED_PREFIX. cbn [rmatch].
  match goal with
  | |- is_some ?x = true => destruct x eqn:Hx; [reflexivity|]
  end.
  exfalso. revert Hx. apply star_greedy_total. intros c g. discriminate.
Qed.

(** C4, as the code has it. On the text [x + f(a)], searched from
    position 0 with the default ignored prefix, the result is the pair
    (5, 7) of the parentheses, although a character of the prefix
    [x + f] is not white space: the prefix pattern is only matched at
    the start position, where it matches the empty string. *)
Theorem ignored_prefix_is_not_checked :
  get_enclosed_subst_pos (lit "x + f(a)") 0 (lit "(") (lit ")")
    RE_PTRN_IGNORED_PREFIX
  = (5%Z, 7%Z).
Proof. vm_compute. reflexivity. Qed.

(** *** The two versions of [remove_line_escapes] *)


Lemma ch_eqb_sym (a b : ascii) : ch_eqb a b = ch_eqb b a.
Proof. apply Ascii.eqb_sym. Qed.

Lemma startswith_backslash (s : text) :
  no_backslash s -> startswith s [BSLASH] = false.
Proof.
  intros H. destruct s as [|c s]; [reflexivity|].
  inversion H; subst. cbn [startswith]. rewrite ch_eqb_sym.
  now rewrite H2.
Qed.

(** The regex version: without a backslash there is no match. *)
Lemma star_greedy_none (p : ascii -> bool) (k : kont) (g : groups)
    (rest : text) :
  (forall c, no_backslash (c_rest c) -> k c g = None) ->
  no_backslash rest ->
  forall pos prev, star_greedy p rest pos prev g k = None.
Proof.
  intros Hk. induction rest as [|a t IH]; intros Hn pos prev; cbn.
  - now apply Hk.
  - inversion Hn; subst.
    destruct (p a); [rewrite IH by assumption|]; now apply Hk.
Qed.

Lemma line_cont_no_match (c : cursor) :
  no_backslash (c_rest c) -> match_here RE_PTRN_LINE_CONT c false = None.
Proof.
  intros H. unfold match_here, RE_PTRN_LINE_CONT. cbn [seqs rmatch].
  apply star_greedy_none; [|exact H].
  intros c' H'. cbn [rmatch]. now rewrite startswith_backslash.
Qed.

Lemma sub_no_match (r : regex) (repl : mres -> text) (rest : text) :
  (forall c, no_backslash (c_rest c) -> match_here r c false = None) ->
  no_backslash rest ->
  forall pos prev, sub_aux r repl rest pos prev 0 = rest.
Proof.
  intros Hr. induction rest as [|a t IH]; intros Hn pos prev; cbn.
  - now rewrite Hr.
  - rewrite Hr by assumption. inversion Hn; subst. now rewrite IH.
Qed.

Lemma regex_version_plain (code : text) (keep_newlines : bool) :
  no_backslash code ->
  CodeFormatter.remove_line_escapes code keep_newlines = code.
Proof.
  intros H. unfold CodeFormatter.remove_line_escapes, Re.sub.
  apply sub_no_match; [apply line_cont_no_match | exact H].
Qed.

(** The line-by-line version: no line ends with a backslash, and the
    lines, put together again, are the text. *)
Lemma lstrip_no_backslash (s : text) :
  no_backslash s -> no_backslash (lstrip s).
Proof.
  induction s as [|c s IH]; intros H; cbn; [constructor|].
  destruct (isspace c); [|exact H]. inversion H; subst. now apply IH.
Qed.

Lemma endswith_rstrip_backslash (line : text) :
  no_backslash line -> endswith (rstrip line) [BSLASH] = false.
Proof.
  intros H. unfold endswith, rstrip. rewrite rev_involutive.
  change (rev [BSLASH]) with [BSLASH].
  apply startswith_backslash, lstrip_no_backslash.
  unfold no_backslash. now apply Forall_rev.
Qed.

Lemma line_by_line_fold (keep_newlines : bool) (ls : list text) :
  Forall no_backslash ls ->
  forall acc,
    fold_left
      (fun out_code line =>
         if endswith (rstrip line) [BSLASH] then
           let line := rstrip (slice_to line (-1)) in
           if keep_newlines then out_code ++ line ++ [LF]
           else
             let line := lstrip line in
             out_code ++ line ++ [SP]
         else out_code ++ line ++ [LF])
      ls acc
    = acc ++ concat (map with_newline ls).
Proof.
  induction 1 as [|l ls Hl Hls IH]; intros acc; cbn [fold_left map concat].
  - now rewrite app_nil_r.
  - rewrite endswith_rstrip_backslash by exact Hl.
    rewrite IH. unfold with_newline. now rewrite <- !app_assoc.
Qed.

Lemma splitlines_no_backslash_upto (n : nat) :
  forall s, length s <= n -> no_backslash s ->
  forall cur, no_backslash cur -> Forall no_backslash (splitlines_aux cur s).
Proof.
  assert (Hrev : forall cur, no_backslash cur -> no_backslash (rev cur))
    by (intros cur Hc; now apply Forall_rev).
  induction n as [|n IH]; intros s Hlen Hs cur Hcur.
  - destruct s; [|cbn in Hlen; lia]. cbn.
    destruct cur; constructor; [now apply Hrev | constructor].
  - destruct s as [|c s]; cbn [splitlines_aux].
    + destruct cur; constructor; [now apply Hrev | constructor].
    + inversion Hs as [|? ? Hc Hs']; subst. cbn in Hlen.
      assert (Hnil : no_backslash []) by constructor.
      destruct (ch_eqb c CR).
      * destruct s as [|d s'].
        -- constructor; [now apply Hrev | apply IH; [cbn; lia | assumption..]].
        -- inversion Hs' as [|? ? Hd Hs'']; subst. cbn in Hlen.
           destruct (ch_eqb d LF);
             (constructor; [now apply Hrev|]);
             apply IH; try assumption; cbn; lia.
      * destruct (is_linebreak c).
        -- constructor; [now apply Hrev | apply IH; [lia | assumption..]].
        -- apply IH; [lia | assumption | now constructor].
Qed.

Lemma splitlines_no_backslash (s : text) :
  no_backslash s -> Forall no_backslash (splitlines s).
Proof.
  intros H. apply splitlines_no_backslash_upto with (n := length s);
    [lia | exact H | constructor].
Qed.

(** Put together again, each followed by a newline, the lines of a text
    with plain characters that does not end with a newline are the text
    followed by a newline. *)
Lemma not_linebreak_not_cr (c : ascii) :
  is_linebreak c = false -> ch_eqb c CR = false.
Proof.
  intros H. destruct (ch_eqb c CR) eqn:E; [|reflexivity].
  apply Ascii.eqb_eq in E. subst c. discriminate H.
Qed.

Lemma lf_not_cr (c : ascii) : ch_eqb c LF = true -> ch_eqb c CR = false.
Proof. intros E. apply Ascii.eqb_eq in E. now subst c. Qed.

Lemma lf_is_linebreak (c : ascii) : ch_eqb c LF = true -> is_linebreak c = true.
Proof. intros E. apply Ascii.eqb_eq in E. now subst c. Qed.

Lemma splitlines_rejoin (s : text) :
  forallb plain_char s = true ->
  ch_eqb (last s SP) LF = false ->
  forall cur, (cur <> [] \/ s <> []) ->
    concat (map with_newline (splitlines_aux cur s)) = rev cur ++ s ++ [LF].
Proof.
  induction s as [|c s IH]; intros Hp Hl cur Hne; cbn [splitlines_aux].
  - destruct cur as [|x cur]; [destruct Hne; congruence|].
    cbn [map concat]. unfold with_newline. now rewrite app_nil_r.
  - cbn [forallb] in Hp. apply andb_prop in Hp as [Hc Hp].
    unfold plain_char in Hc. apply andb_prop in Hc as [_ Hc].
    assert (Hl' : ch_eqb (last s SP) LF = false).
    { destruct s; [reflexivity | exact Hl]. }
    destruct (ch_eqb c LF) eqn:ELF.
    + rewrite (lf_not_cr _ ELF), (lf_is_linebreak _ ELF).
      assert (Hs : s <> []).
      { intros ->. cbn in Hl. congruence. }
      cbn [map concat]. rewrite IH by (auto; now right).
      apply Ascii.eqb_eq in ELF. subst c.
      unfold with_newline. cbn. now rewrite <- app_assoc.
    + rewrite orb_false_r in Hc. apply negb_true_iff in Hc.
      rewrite (not_linebreak_not_cr _ Hc), Hc.
      rewrite IH by (auto; left; discriminate).
      cbn [rev]. now rewrite <- app_assoc.
Qed.

Lemma drop_last_newline (s : text) : slice_to (s ++ [LF]) (-1) = s.
Proof.
  unfold slice_to, slice, adjust, len. rewrite length_app. cbn [length].
  replace (0 <? 0)%Z with false by reflexivity.
  replace (-1 <? 0)%Z with true by reflexivity.
  replace (Z.to_nat (Z.min 0 (Z.of_nat (length s + 1)))) with 0 by lia.
  cbn [skipn].
  replace (Z.to_nat
             (Z.max 0 (-1 + Z.of_nat (length s + 1))
              - Z.min 0 (Z.of_nat (length s + 1))))
    with (length s + 0) by lia.
  rewrite firstn_app_2. cbn. now rewrite app_nil_r.
Qed.

Lemma endswith_last (s : text) : endswith s [LF] = ch_eqb (last s SP) LF.
Proof.
  unfold endswith. change (rev [LF]) with [LF].
  destruct s as [|c s] using rev_ind; [reflexivity|].
  rewrite rev_unit, last_last. cbn [startswith].
  replace (startswith (rev s) []) with true by now destruct (rev s).
  now rewrite andb_true_r, ch_eqb_sym.
Qed.

Lemma plain_no_backslash (s : text) :
  forallb plain_char s = true -> no_backslash s.
Proof.
  intros H. apply Forall_forall. intros c Hc.
  rewrite forallb_forall in H. specialize (H c Hc).
  unfold plain_char in H. apply andb_prop in H as [H _].
  now apply negb_true_iff in H.
Qed.

Lemma line_by_line_version_plain (code : text) (keep_newlines : bool) :
  no_continuation code = true ->
  CpreprocUtils.remove_line_escapes code keep_newlines = code.
Proof.
  intros H. unfold no_continuation in H. apply andb_prop in H as [Hp He].
  apply negb_true_iff in He. rewrite endswith_last in He.
  unfold CpreprocUtils.remove_line_escapes.
  rewrite line_by_line_fold
    by (apply splitlines_no_backslash, plain_no_backslash, Hp).
  cbn [app]. destruct code as [|c code]; [reflexivity|].
  unfold splitlines.
  rewrite splitlines_rejoin by (auto; right; discriminate).
  cbn [rev app]. apply (drop_last_newline (c :: code)).
Qed.



End TextFacts.

(** ** Reports of unbalanced conditionals *)

Module ReportFacts.
Import Py Re CodeFormatter Engine Expander PyCpp Reports Frame Run.
Local Open Scope engine_scope.

Lemma same_reports_refl w : same_reports w w.
Proof. reflexivity. Qed.

Lemma same_reports_trans w1 w2 w3 :
  same_reports w1 w2 -> same_reports w2 w3 -> same_reports w1 w3.
Proof. unfold same_reports. congruence. Qed.

Lemma err_count (m : Logger.message) (sev : Logger.ErrSeverity)
    (l : Logger.t) :
  unterminated_ifs (Logger.err m sev l)
  = unterminated_ifs l + (if is_unterminated_if m then 1 else 0).
Proof.
  unfold unterminated_ifs, Logger.err. cbn [Logger.errors].
  rewrite filter_app, length_app. cbn.
  now destruct (is_unterminated_if m).
Qed.

Lemma exit_if_same_count (c : ConditionManager.t) (l : Logger.t) :
  unterminated_ifs (snd (ConditionManager.exit_if c l)) = unterminated_ifs l.
Proof.
  unfold ConditionManager.exit_if.
  destruct (0 <? ConditionManager.branch_depth c); cbn [snd];
    [reflexivity|].
  now rewrite err_count, Nat.add_0_r.
Qed.

Lemma log_err_same_reports m sev :
  is_unterminated_if m = false -> preserves same_reports (log_err m sev).
Proof.
  intros H. unfold log_err, modify_log. apply preserves_modify.
  intros w. unfold same_reports. cbn [log].
  rewrite err_count, H. lia.
Qed.

Lemma modify_same_log (f : world -> world) :
  (forall w, log (f w) = log w) -> preserves same_reports (modify f).
Proof.
  intros H. apply preserves_modify. intros w. unfold same_reports.
  now rewrite H.
Qed.

Lemma modify_log_same_reports (f : Logger.t -> Logger.t) :
  (forall l, Logger.errors (f l) = Logger.errors l) ->
  preserves same_reports (modify_log f).
Proof.
  intros H. unfold modify_log. apply preserves_modify. intros w.
  unfold same_reports, unterminated_ifs. cbn [log]. now rewrite H.
Qed.

Ltac quiet_step :=
  first
    [ apply (preserves_ret _ same_reports_refl)
    | apply (preserves_gets _ same_reports_refl)
    | apply (preserves_lift _ same_reports_refl)
    | apply preserves_out_of_fuel
    | apply preserves_abort
    | apply log_err_same_reports; reflexivity
    | apply modify_same_log; reflexivity
    | apply modify_log_same_reports; reflexivity
    | apply (preserves_bind same_reports_trans)
    | apply (preserves_mapM same_reports_refl same_reports_trans)
    | apply (preserves_foldM same_reports_refl same_reports_trans)
    | match goal with
      | |- preserves _ (if ?b then _ else _) => destruct b
      | |- preserves _ (let (_, _) := ?p in _) => destruct p
      | |- preserves _ (match ?x with _ => _ end) => destruct x
      end
    | intro ].

Lemma expand_same_reports (fuel : nat) :
  (forall code exp_depth,
      preserves same_reports (expand_macros fuel code exp_depth))
  /\ (forall macro_id macro exp_depth exp_code macro_start_pos,
         preserves same_reports
           (expand_refs fuel macro_id macro exp_depth exp_code
              macro_start_pos)).
Proof.
  induction fuel as [|f [IHm IHr]].
  - split; intros; apply preserves_out_of_fuel.
  - split; intros; cbn [expand_macros expand_refs];
      repeat first [ apply IHm | apply IHr | quiet_step ].
Qed.

Section WithEnvironment.

Variable py_eval : text -> eval_result.
Variable dedent : text -> text.
Variable read_path : text -> text -> option text.
Variable path_name : text -> text.

Hypothesis Hfiles : no_files read_path.

Lemma is_true_same_reports fuel expr :
  preserves same_reports (is_true py_eval fuel expr).
Proof.
  unfold is_true, evaluate, eval_input, preproc_eval_expr.
  repeat first [ apply (proj1 (expand_same_reports fuel)) | quiet_step ].
Qed.

Local Abbreviation process_code :=
  (process_code py_eval dedent read_path path_name).
Local Abbreviation process_parts :=
  (process_parts py_eval dedent read_path path_name).
Local Abbreviation process_part :=
  (process_part py_eval dedent read_path path_name).
Local Abbreviation process_directives :=
  (process_directives py_eval dedent read_path path_name).

Ltac quiet :=
  repeat first
    [ apply (proj1 (expand_same_reports _))
    | apply is_true_same_reports
    | quiet_step ].

Lemma process_if_same_reports fuel joined m code :
  preserves same_reports (process_if py_eval fuel joined m code).
Proof. unfold process_if, update_cond. quiet. Qed.

Lemma process_elif_same_reports fuel joined m code :
  preserves same_reports (process_elif py_eval fuel joined m code).
Proof. unfold process_elif, update_cond. quiet. Qed.

Lemma process_else_same_reports joined m code :
  preserves same_reports (process_else joined m code).
Proof. unfold process_else, update_cond. quiet. Qed.

Lemma process_endif_same_reports joined m code :
  preserves same_reports (process_endif joined m code).
Proof.
  intros w a w' H.
  unfold process_endif, bind, gets, set_cond_mngr, set_log, modify in H.
  pose proof (exit_if_same_count (cond_mngr (self w)) (log w)) as E.
  destruct (ConditionManager.exit_if (cond_mngr (self w)) (log w))
    as [c' l'].
  injection H as _ <-. exact E.
Qed.

Lemma process_ifdef_same_reports joined m code :
  preserves same_reports (process_ifdef joined m code).
Proof. unfold process_ifdef, update_cond. quiet. Qed.

Lemma process_ifndef_same_reports joined m code :
  preserves same_reports (process_ifndef joined m code).
Proof. unfold process_ifndef, update_cond. quiet. Qed.

Lemma process_define_same_reports joined m code :
  preserves same_reports (process_define dedent joined m code).
Proof. unfold process_define. quiet. Qed.

Lemma process_undef_same_reports joined m code :
  preserves same_reports (process_undef joined m code).
Proof. unfold process_undef. quiet. Qed.

(** Without files, [read_file] finds nothing. *)
Lemma nothing_found (file_path : text) (dirs : list text) :
  List.find (fun o => is_some o)
    (map (fun dir => read_path dir file_path) dirs) = None.
Proof.
  induction dirs as [|d dirs IH]; [reflexivity|].
  cbn [map List.find]. now rewrite Hfiles.
Qed.

Lemma read_file_nothing (file_path : text) (w : world) :
  read_file read_path file_path w
  = Done ([], World (self w)
                (Logger.err (Logger.FileNotFound file_path) Logger.WARNING
                   (log w))).
Proof.
  unfold read_file. erewrite bind_done by reflexivity.
  rewrite nothing_found. reflexivity.
Qed.

Lemma process_include_same_reports pc joined m code :
  preserves same_reports
    (process_include read_path path_name pc joined m code).
Proof.
  unfold process_include. destruct (group joined m 1); [|quiet].
  apply (preserves_bind same_reports_trans); [quiet|]. intros orig.
  apply (preserves_bind same_reports_trans); [|quiet].
  intros w a w' H. unfold process_file_with in H.
  erewrite bind_done in H by apply read_file_nothing.
  cbn in H. injection H as _ <-. unfold same_reports. cbn [log].
  now rewrite err_count, Nat.add_0_r.
Qed.

Lemma process_group_same_reports
    (ds : list (regex * (text -> mres -> text -> M unit))) (code : text) :
  Forall (fun d => forall joined m code',
              preserves same_reports (snd d joined m code')) ds ->
  preserves same_reports (process_group ds code).
Proof.
  induction 1 as [|[re_ptrn handler] ds Hd Hds IH]; cbn [process_group].
  - quiet.
  - apply (preserves_bind same_reports_trans).
    + unfold directive_process.
      destruct (re_match re_ptrn (remove_line_escapes code false)); [|quiet].
      apply (preserves_bind same_reports_trans); [apply Hd | quiet].
    + intros [|]; [quiet | exact IH].
Qed.

Lemma process_directives_same_reports fuel pc code :
  preserves same_reports (process_directives fuel pc code).
Proof.
  unfold PyCpp.process_directives.
  apply (preserves_bind same_reports_trans).
  - apply process_group_same_reports. unfold conditional_directives.
    repeat constructor; cbn [snd]; intros.
    + apply process_if_same_reports.
    + apply process_elif_same_reports.
    + apply process_else_same_reports.
    + apply process_endif_same_reports.
    + apply process_ifdef_same_reports.
    + apply process_ifndef_same_reports.
  - intros processed. apply (preserves_bind same_reports_trans); [quiet|].
    intros active. destruct (negb processed && active); [|quiet].
    apply process_group_same_reports. unfold standard_directives.
    repeat constructor; cbn [snd]; intros.
    + apply process_define_same_reports.
    + apply process_undef_same_reports.
    + apply process_include_same_reports.
Qed.

Lemma process_part_same_reports fuel pc g lo p :
  preserves same_reports (process_part fuel pc g lo p).
Proof.
  unfold PyCpp.process_part.
  repeat first
    [ apply process_directives_same_reports
    | apply (proj1 (expand_same_reports _))
    | quiet_step ].
Qed.

Lemma process_parts_same_reports fuel pc g parts :
  preserves same_reports (process_parts fuel pc g parts).
Proof.
  unfold PyCpp.process_parts.
  apply (preserves_foldM same_reports_refl same_reports_trans).
  intros lo p. apply process_part_same_reports.
Qed.

(** A call of [process_code] in terms of its loop. *)
Lemma process_code_by_loop (f : nat) (code : text)
    (global_output full_local_output : bool) (proc_file_name : text)
    (w : world) :
  process_code (S f) code global_output full_local_output proc_file_name w
  = match
      process_parts f (process_code f) global_output
        (PreprocInput.yield_code_parts (replace_tabs code 4))
        (at_entry proc_file_name w)
    with
    | Done (local_output, w1) =>
        Done (if full_local_output
              then PreprocOutput.code_all local_output
              else PreprocOutput.code local_output,
              at_exit (depth_of w) w1)
    | OutOfFuel => OutOfFuel
    | Abort => Abort
    end.
Proof.
  cbn [PyCpp.process_code].
  unfold bind at 1. cbn [modify_log modify].
  unfold bind at 1. cbn [branch_depth_now gets].
  unfold bind at 1. unfold at_entry.
  destruct (process_parts f (process_code f) global_output
              (PreprocInput.yield_code_parts (replace_tabs code 4))
              (World (self w) (Logger.set_file_name proc_file_name (log w))))
    as [[local_output [e1 l1]]| |]; [|reflexivity..].
  unfold bind, branch_depth_now, gets, at_exit, depth_of. cbn [self].
  destruct (ConditionManager.branch_depth (cond_mngr e1)
            =? ConditionManager.branch_depth (cond_mngr (self w)));
    reflexivity.
Qed.

Lemma process_code_reports (fuel : nat) (code : text)
    (global_output full_local_output : bool) (proc_file_name : text)
    (w : world) (out : text) (w' : world) :
  process_code fuel code global_output full_local_output proc_file_name w
  = Done (out, w') ->
  unterminated_ifs (log w')
  = unterminated_ifs (log w)
    + (if depth_of w' =? depth_of w then 0 else 1).
Proof.
  destruct fuel as [|f]; [discriminate|].
  rewrite process_code_by_loop.
  destruct (process_parts f (process_code f) global_output
              (PreprocInput.yield_code_parts (replace_tabs code 4))
              (at_entry proc_file_name w))
    as [[local_output w1]| |] eqn:E; try discriminate.
  intros H. injection H as _ <-.
  apply process_parts_same_reports in E. unfold same_reports in E.
  cbn [at_entry log] in E.
  change (unterminated_ifs (Logger.set_file_name proc_file_name (log w)))
    with (unterminated_ifs (log w)) in E.
  unfold at_exit. change (depth_of (World (self w1) _)) with (depth_of w1).
  cbn [log]. destruct (depth_of w1 =? depth_of w).
  - rewrite E. lia.
  - rewrite err_count, E. reflexivity.
Qed.

End WithEnvironment.



End ReportFacts.

(** ** The bounded loops run to their end *)

Module LoopFacts.
Import Py CodeFormatter PreprocInput Measures.

(** *** The loop of [get_enclosed_subst_pos] *)

Lemma find_aux_bounds (sub s : text) :
  forall pos,
    find_aux sub s pos = (-1)%Z
    \/ (pos <= find_aux sub s pos <= pos + len s)%Z.
Proof.
  unfold len. induction s as [|a s IH]; intros pos; cbn [find_aux].
  - destruct (startswith [] sub); [right; cbn; lia | now left].
  - destruct (startswith (a :: s) sub); [right; cbn [length]; lia|].
    destruct (IH (pos + 1)%Z) as [E|E]; [now left | right].
    cbn [length]. lia.
Qed.

Lemma find_from_next (code sub : text) (e : Z) :
  (0 <= e)%Z ->
  find_from code sub (e + 1) = (-1)%Z
  \/ (e + 1 <= find_from code sub (e + 1) <= len code)%Z.
Proof.
  intros He. unfold find_from, find_in, adjust, adjust_start.
  assert (Hn : (0 <= len code)%Z) by (unfold len; lia).
  replace (len code <? 0)%Z with false by lia.
  replace (e + 1 <? 0)%Z with false by lia.
  rewrite Z.min_id.
  destruct (len code - (e + 1) <? len sub)%Z eqn:E; [now left|].
  assert (Hs : (0 <= len sub)%Z) by (unfold len; lia).
  match goal with
  | |- context [find_aux sub ?s ?p] =>
      destruct (find_aux_bounds sub s p) as [B|B]; [now left | right];
      assert (L : len s = (len code - (e + 1))%Z)
  end.
  { unfold len in *. rewrite length_skipn, length_firstn. lia. }
  lia.
Qed.

Lemma find_enclosing_end_runs (code : text) (s_pos : Z)
    (start_str end_str : text) (fuel : nat) :
  forall e_pos,
    e_pos = (-1)%Z
    \/ (0 <= e_pos <= len code /\ len code - e_pos < Z.of_nat fuel)%Z ->
    unbalanced code s_pos start_str end_str
      (find_enclosing_end fuel code s_pos start_str end_str e_pos)
    = false.
Proof.
  induction fuel as [|f IH]; intros e_pos H; cbn [find_enclosing_end].
  - destruct H as [->|H]; [reflexivity | lia].
  - destruct (unbalanced code s_pos start_str end_str e_pos) eqn:U;
      [|exact U].
    apply IH.
    assert (He : (0 <= e_pos)%Z).
    { unfold unbalanced in U. apply andb_prop in U as [U _]. lia. }
    destruct H as [->|H]; [lia|].
    destruct (find_from_next code end_str He) as [E|E];
      [now left | right; lia].
Qed.

(** When the loop of [get_enclosed_subst_pos] is left, its condition is
    false: the step budget of [find_enclosing_end] is never used up. *)
Lemma enclosing_loop_ends (code : text) (s_pos : Z)
    (start_str end_str : text) :
  (0 <= s_pos)%Z ->
  unbalanced code s_pos start_str end_str
    (find_enclosing_end (S (length code)) code s_pos start_str end_str
       (find_from code end_str (s_pos + 1)))
  = false.
Proof.
  intros Hs. apply find_enclosing_end_runs.
  destruct (find_from_next code end_str Hs) as [E|E];
    [now left | right]. unfold len in *. lia.
Qed.

(** *** The loop of [replace_tabs] *)

Lemma find_char (s : text) (c : ascii) : find s [c] = find_aux [c] s 0.
Proof.
  unfold find, find_from, find_in, adjust, adjust_start.
  assert (Hn : (0 <= len s)%Z) by (unfold len; lia).
  replace (len s <? 0)%Z with false by lia.
  replace (0 <? 0)%Z with false by reflexivity.
  rewrite Z.min_id, Z.sub_0_r.
  destruct s as [|a s]; [reflexivity|].
  replace (len (a :: s) <? len [c])%Z with false
    by (symmetry; apply Z.ltb_ge; unfold len; cbn [length]; lia).
  cbn [Z.to_nat skipn]. unfold len. now rewrite Nat2Z.id, firstn_all.
Qed.

Lemma startswith_char (a c : ascii) (s : text) :
  startswith (a :: s) [c] = ch_eqb c a.
Proof.
  cbn [startswith].
  replace (startswith s []) with true by now destruct s.
  apply andb_true_r.
Qed.

Lemma no_tab_found (s : text) :
  forall pos, tabs s = 0 -> find_aux [TAB] s pos = (-1)%Z.
Proof.
  unfold tabs. induction s as [|a s IH]; intros pos H; [reflexivity|].
  cbn [find_aux]. rewrite startswith_char.
  cbn [filter] in H. unfold is_tab in H.
  unfold ch_eqb in *. rewrite (Ascii.eqb_sym TAB a).
  destruct (Ascii.eqb a TAB); [discriminate H | now apply IH].
Qed.

Lemma tab_found (s : text) :
  forall pos, (0 <= pos)%Z -> 0 < tabs s -> (0 <= find_aux [TAB] s pos)%Z.
Proof.
  unfold tabs. induction s as [|a s IH]; intros pos Hp H; [cbn in H; lia|].
  cbn [find_aux]. rewrite startswith_char.
  cbn [filter] in H. unfold is_tab in H.
  unfold ch_eqb in *. rewrite (Ascii.eqb_sym TAB a).
  destruct (Ascii.eqb a TAB); [exact Hp | apply IH; [lia | exact H]].
Qed.

Lemma spaces_no_tab (n : nat) : filter is_tab (spaces n) = [].
Proof. induction n as [|n IH]; [reflexivity | exact IH]. Qed.

Lemma replace_first_tab (s : text) (n : nat) :
  0 < tabs s -> tabs (replace_first_char s TAB (spaces n)) = tabs s - 1.
Proof.
  unfold tabs. induction s as [|a s IH]; intros H; [cbn in H; lia|].
  cbn [replace_first_char filter] in *. unfold is_tab in *.
  destruct (ch_eqb a TAB) eqn:E.
  - rewrite filter_app, spaces_no_tab. cbn [app length]. lia.
  - cbn [filter]. unfold is_tab. rewrite E. now apply IH.
Qed.

Lemma replace_tabs_line_runs (tab_size : Z) (fuel : nat) :
  forall line,
    tabs line <= fuel ->
    tabs (replace_tabs_line fuel line tab_size) = 0.
Proof.
  induction fuel as [|f IH]; intros line H; cbn [replace_tabs_line].
  - lia.
  - rewrite find_char.
    destruct (tabs line) as [|k] eqn:E.
    + rewrite no_tab_found by exact E. cbn. exact E.
    + replace (0 <=? find_aux [TAB] line 0)%Z with true
        by (symmetry; apply Z.leb_le, tab_found; lia).
      apply IH. rewrite replace_first_tab by lia. lia.
Qed.

(** When the loop of [replace_tabs] on a line is left, no tab is left:
    the step budget of [replace_tabs_line] is never used up. *)
Lemma tab_loop_ends (line : text) (tab_size : Z) :
  find (replace_tabs_line (length line) line tab_size) [TAB] = (-1)%Z.
Proof.
  rewrite find_char. apply no_tab_found, replace_tabs_line_runs.
  unfold tabs. apply filter_length_le.
Qed.

(** *** The loop of [yield_code_parts] *)

Lemma take_continued_shorter (lines : list text) :
  length (snd (take_continued lines)) <= length lines.
Proof.
  induction lines as [|l rest IH]; [reflexivity|]. cbn [take_continued].
  destruct (endswith (rstrip l) [BSLASH]); [|cbn; lia].
  destruct (take_continued rest) as [more rest']. cbn [snd length] in *. lia.
Qed.

Lemma take_comment_shorter (lines : list text) :
  length (snd (fst (take_comment lines))) <= length lines.
Proof.
  induction lines as [|l rest IH]; [reflexivity|]. cbn [take_comment].
  destruct (contains (rstrip l) (lit "*/")); [cbn; lia|].
  destruct (take_comment rest) as [[more rest'] u].
  cbn [fst snd length] in *. lia.
Qed.

Lemma take_blank_shorter (lines : list text) :
  length (snd (take_blank lines)) <= length lines.
Proof.
  induction lines as [|l rest IH]; [reflexivity|]. cbn [take_blank].
  destruct (is_empty (strip l)); [|cbn; lia].
  destruct (take_blank rest) as [more rest']. cbn [snd length] in *. lia.
Qed.

(** The segments do not depend on the step budget of [yield_loop], once
    it is the number of lines: each turn takes a line or more. *)
Lemma yield_loop_runs (f1 : nat) :
  forall f2 in_lines line_idx,
    length in_lines <= f1 -> length in_lines <= f2 ->
    yield_loop f1 in_lines line_idx = yield_loop f2 in_lines line_idx.
Proof.
  induction f1 as [|f1 IH]; intros f2 in_lines line_idx H1 H2.
  - destruct in_lines; [now destruct f2 | cbn in H1; lia].
  - destruct in_lines as [|l rest]; [now destruct f2|].
    destruct f2 as [|f2]; [cbn in H2; lia|].
    cbn [length] in H1, H2. cbn [yield_loop].
    pose proof (take_continued_shorter rest) as Hc.
    pose proof (take_comment_shorter rest) as Hm.
    pose proof (take_blank_shorter rest) as Hb.
    destruct (endswith (rstrip l) [BSLASH]).
    + destruct (take_continued rest) as [more rest']. cbn [snd] in Hc.
      f_equal. apply IH; lia.
    + destruct (contains (rstrip l) (lit "/*")
                && negb (contains (rstrip l) (lit "*/"))).
      * destruct (take_comment rest) as [[more rest'] u].
        cbn [fst snd] in Hm. f_equal. apply IH; lia.
      * destruct (is_empty (rstrip l)).
        -- destruct (take_blank rest) as [more rest']. cbn [snd] in Hb.
           f_equal. apply IH; lia.
        -- f_equal. apply IH; lia.
Qed.

End LoopFacts.

(** ** The sample of the repository *)

Module SampleFacts.
Import Py Engine Expander PyCpp Scenario Sample.

Section WithEnvironment.

Variable py_eval : text -> eval_result.
Variable dedent : text -> text.
Variable read_path : text -> text -> option text.
Variable path_name : text -> text.

Local Abbreviation process_code :=
  (process_code py_eval dedent read_path path_name).

(** The engine after [process_code(SAMPLE_CODE_1)] and then
    [process_code(SAMPLE_CODE_2, full_local_output=True,
    global_output=False)], as in [sample.py]. *)
Local Abbreviation first_run :=
  (process_code 10 SAMPLE_CODE_1 true false [] init_world).
Local Abbreviation second_run :=
  (process_code 10 SAMPLE_CODE_2 false true [] (state_after first_run)).

(** What [sample.py] says it prints: the local output of the first
    text; the full local output of the second; the global output and
    the full global output, to which the second text was not added; and
    the expansion of [A + A == SUM(3, 7)]. *)
Lemma sample_outputs :
  returned first_run = Some (lines [lit "11 + 22"; []])
  /\ returned second_run
     = Some (lines [[]; lit "#define SQR(A)      A * A"; lit "#define A 5";
                    []; lit "#ifdef A"; lit "    #define A_SQR   SQR(A)";
                    lit "#endif"; []; lit "5 * 5 /* Outputs 5 * 5 */"; []])
  /\ PreprocOutput.code (output (self (state_after second_run)))
     = lines [lit "11 + 22"; []]
  /\ PreprocOutput.code_all (output (self (state_after second_run)))
     = lines [[]; lit "#define SUM(A, B)   A + B"; []; lit "11 + 22"; []]
  /\ returned
       (expand_macros 10 (lit "A + A == SUM(3, 7)") 0
          (state_after second_run))
     = Some (lit "5 + 5 == 3 + 7").
Proof. repeat split; vm_compute; reflexivity. Qed.

(** The texts [evaluate("A_SQR")] and [is_true("SUM(1, 2) >= 3")] hand
    to [eval]; [sample.py] says the results are 25 and True. *)
Lemma sample_expressions :
  returned (eval_input 10 (lit "A_SQR") (state_after second_run))
  = Some (lit "5 * 5")
  /\ returned (eval_input 10 (lit "SUM(1, 2) >= 3") (state_after second_run))
     = Some (lit "1 + 2 >= 3").
Proof. split; vm_compute; reflexivity. Qed.

End WithEnvironment.

End SampleFacts.

(** ** The condition manager on a chain of conditional directives *)

Module ConditionFacts.
Import ConditionManager Chains.

Lemma after_chain_snoc (b x : bool) (bs : list bool) (c : t) :
  after_chain b (bs ++ [x]) c = enter_elif x (after_chain b bs c).
Proof. unfold after_chain. now rewrite fold_left_app. Qed.

Lemma enter_elif_stack (x : bool) (c : t) :
  branch_state_stack (enter_elif x c) = branch_state_stack c.
Proof. unfold enter_elif. destruct (branch_state c), x; reflexivity. Qed.

Lemma after_chain_stack (b : bool) (bs : list bool) (c : t) :
  branch_state_stack (after_chain b bs c)
  = branch_state_stack c ++ [branch_state c].
Proof.
  induction bs as [|x bs IH] using rev_ind.
  - unfold after_chain, enter_if. cbn [fold_left].
    destruct (branch_state c), b; reflexivity.
  - now rewrite after_chain_snoc, enter_elif_stack.
Qed.

(** The state in a chain entered from an active branch: still searching
    while no condition held, active when the last one is the first that
    holds, and ignoring the rest of the chain after that. *)
Lemma after_chain_state (b : bool) (bs : list bool) (c : t) :
  branch_state (after_chain b bs c)
  = if branch_active c then
      if negb (existsb (fun x => x) (b :: bs)) then SEARCH
      else if selects_last b bs then ACTIVE else IGNORE
    else IGNORE.
Proof.
  induction bs as [|x bs IH] using rev_ind.
  - unfold after_chain, enter_if, branch_active, selects_last.
    cbn [fold_left]. destruct (branch_state c), b; reflexivity.
  - rewrite after_chain_snoc. unfold enter_elif. rewrite IH.
    unfold selects_last.
    change (b :: bs ++ [x]) with ((b :: bs) ++ [x]).
    rewrite removelast_last, last_last, existsb_app.
    replace (existsb (fun y => y) [x]) with x
      by (cbn; now rewrite orb_false_r).
    destruct (branch_active c); [|reflexivity].
    destruct (existsb (fun x => x) (b :: bs)) eqn:E; cbn [negb orb andb].
    + now destruct (_ && _).
    + now destruct x.
Qed.

(** X1. The branch of a chain is active exactly when the chain was entered
    from an active branch and its last condition is the first one that
    holds: at most one branch of a chain is active, and none is in a
    chain nested in an inactive branch. *)
Theorem one_branch_of_a_chain_is_active :
  forall (b : bool) (bs : list bool) (c : t),
    branch_active (after_chain b bs c)
    = branch_active c && selects_last b bs.
Proof.
  intros b bs c. unfold branch_active at 1. rewrite after_chain_state.
  destruct (branch_active c); [|reflexivity]. cbn [andb].
  unfold selects_last.
  destruct (existsb (fun x => x) (b :: bs)) eqn:E; cbn [negb].
  - now destruct (_ && _).
  - destruct bs as [|y bs] using rev_ind.
    + destruct b; [discriminate E | reflexivity].
    + change (b :: bs ++ [y]) with ((b :: bs) ++ [y]) in *.
      rewrite existsb_app in E. apply orb_false_iff in E as [_ E].
      cbn [existsb] in E. rewrite orb_false_r in E.
      rewrite last_last, E. now rewrite andb_false_r.
Qed.

(** X2. [exit_if] after a chain gives back the condition manager as it was
    before the chain, whatever the conditions were, and reports
    nothing. *)
Theorem exit_if_undoes_a_chain :
  forall (b : bool) (bs : list bool) (c : t) (l : Logger.t),
    exit_if (after_chain b bs c) l = (c, l).
Proof.
  intros b bs c l. unfold exit_if, branch_depth.
  rewrite after_chain_stack, length_app, removelast_last, last_last.
  cbn [length]. replace (0 <? _ + 1) with true
    by (symmetry; apply Nat.ltb_lt; lia).
  now destruct c.
Qed.

End ConditionFacts.

(** ** Lines and [str.splitlines] *)

Module LineFacts.
Import Py Lines TextFacts.

Lemma no_break_cons (c : ascii) (l : text) :
  no_break (c :: l) = true -> is_linebreak c = false /\ no_break l = true.
Proof.
  unfold no_break. cbn [forallb]. intros H.
  apply andb_prop in H as [H1 H2]. now apply negb_true_iff in H1.
Qed.

Lemma splitlines_aux_line (l : text) :
  no_break l = true ->
  forall cur rest,
    splitlines_aux cur (l ++ LF :: rest)
    = (rev cur ++ l) :: splitlines_aux [] rest.
Proof.
  induction l as [|c l IH]; intros H cur rest.
  - cbn. now rewrite app_nil_r.
  - apply no_break_cons in H as [Hc Hl]. cbn [app splitlines_aux].
    rewrite (not_linebreak_not_cr _ Hc), Hc, (IH Hl).
    cbn [rev]. now rewrite <- app_assoc.
Qed.

Lemma splitlines_aux_end (l : text) :
  no_break l = true ->
  forall cur, splitlines_aux cur l = last_as_lines (rev cur ++ l).
Proof.
  induction l as [|c l IH]; intros H cur.
  - cbn [splitlines_aux]. rewrite app_nil_r.
    destruct cur as [|x cur]; [reflexivity|].
    cbn [rev]. now destruct (rev cur).
  - apply no_break_cons in H as [Hc Hl]. cbn [splitlines_aux].
    rewrite (not_linebreak_not_cr _ Hc), Hc, (IH Hl).
    cbn [rev]. now rewrite <- app_assoc.
Qed.

(** The lines of a text made of lines, each followed by a newline, and
    of a last line. *)
Lemma splitlines_terminated (ls : list text) (last_line : text) :
  forallb no_break ls = true -> no_break last_line = true ->
  splitlines (terminated ls ++ last_line) = ls ++ last_as_lines last_line.
Proof.
  unfold splitlines, terminated. intros Hls Hl.
  induction ls as [|l ls IH]; cbn [map concat app].
  - now rewrite splitlines_aux_end.
  - cbn [forallb] in Hls. apply andb_prop in Hls as [H1 H2].
    rewrite <- !app_assoc. cbn [app].
    rewrite splitlines_aux_line by exact H1. cbn [rev app].
    now rewrite IH.
Qed.

(** No line of a text holds a line boundary. *)
Lemma splitlines_aux_no_break (n : nat) :
  forall s cur, length s <= n -> no_break cur = true ->
    forallb no_break (splitlines_aux cur s) = true.
Proof.
  assert (Hrev : forall cur, no_break cur = true -> no_break (rev cur) = true).
  { intros cur H. unfold no_break in *. rewrite forallb_forall in *.
    intros c Hc. apply H. now apply in_rev. }
  induction n as [|n IH]; intros s cur Hlen Hcur.
  - destruct s; [|cbn in Hlen; lia]. cbn.
    destruct cur; [reflexivity|]. cbn [forallb]. now rewrite Hrev.
  - destruct s as [|c s]; cbn [splitlines_aux].
    + destruct cur; [reflexivity|]. cbn [forallb]. now rewrite Hrev.
    + cbn in Hlen. destruct (ch_eqb c CR).
      * destruct s as [|d s'].
        -- cbn [forallb]. rewrite Hrev by exact Hcur. now apply IH; [lia|].
        -- cbn in Hlen.
           destruct (ch_eqb d LF); cbn [forallb];
             rewrite Hrev by exact Hcur; apply IH; cbn; try lia; reflexivity.
      * destruct (is_linebreak c) eqn:E.
        -- cbn [forallb]. rewrite Hrev by exact Hcur. now apply IH; [lia|].
        -- apply IH; [lia|]. unfold no_break. cbn [forallb].
           now rewrite E.
Qed.

Lemma splitlines_no_break (s : text) :
  forallb no_break (splitlines s) = true.
Proof. now apply splitlines_aux_no_break with (n := length s). Qed.

(** Lines joined by newlines, and lines followed each by a newline. *)
Lemma join_terminated (l : text) (ls : list text) :
  join [LF] (l :: ls) ++ [LF] = terminated (l :: ls).
Proof.
  unfold terminated. revert l. induction ls as [|l' ls IH]; intros l.
  - cbn. now rewrite app_nil_r.
  - change (join [LF] (l :: l' :: ls))
      with (l ++ [LF] ++ join [LF] (l' :: ls)).
    rewrite <- !app_assoc, (IH l'). cbn [map concat].
    now rewrite <- !app_assoc.
Qed.

Lemma terminated_app (ls1 ls2 : list text) :
  terminated (ls1 ++ ls2) = terminated ls1 ++ terminated ls2.
Proof. unfold terminated. now rewrite map_app, concat_app. Qed.

(** Dropping the last character. *)
Lemma drop_last_char (s : text) (c : ascii) : slice_to (s ++ [c]) (-1) = s.
Proof.
  unfold slice_to, slice, adjust, len. rewrite length_app. cbn [length].
  replace (0 <? 0)%Z with false by reflexivity.
  replace (-1 <? 0)%Z with true by reflexivity.
  replace (Z.to_nat (Z.min 0 (Z.of_nat (length s + 1)))) with 0 by lia.
  cbn [skipn].
  replace (Z.to_nat
             (Z.max 0 (-1 + Z.of_nat (length s + 1))
              - Z.min 0 (Z.of_nat (length s + 1))))
    with (length s + 0) by lia.
  rewrite firstn_app_2. cbn. now rewrite app_nil_r.
Qed.

(** Stripping white space. *)
Lemma lstrip_spaces (b s : text) :
  forallb isspace b = true -> lstrip (b ++ s) = lstrip s.
Proof.
  induction b as [|c b IH]; intros H; [reflexivity|].
  cbn [forallb] in H. apply andb_prop in H as [H1 H2].
  cbn [app lstrip]. rewrite H1. now apply IH.
Qed.

Lemma rstrip_spaces (s b : text) :
  forallb isspace b = true -> rstrip (s ++ b) = rstrip s.
Proof.
  intros H. unfold rstrip. rewrite rev_app_distr, lstrip_spaces;
    [reflexivity|].
  rewrite forallb_forall in *. intros c Hc. apply H. now apply in_rev.
Qed.

Lemma rstrip_last (s : text) (c : ascii) :
  isspace c = false -> rstrip (s ++ [c]) = s ++ [c].
Proof.
  intros H. unfold rstrip. rewrite rev_app_distr. cbn [rev app lstrip].
  rewrite H. cbn [rev]. now rewrite rev_involutive.
Qed.

End LineFacts.

(** ** The two versions of [remove_line_escapes] on tidy lines *)

Module TidyFacts.
Import Py Re CodeFormatter Continuation Lines Tidy TextFacts LineFacts.

(** *** The regex version *)

Lemma stops_tail (a : ascii) (s tail : text) :
  stops (a :: s) tail -> s <> [] -> stops s tail.
Proof.
  intros [(c & s' & E & Hc)|H] Hs; [left | now right].
  destruct s' as [|x s']; cbn in E.
  - injection E as _ E. now subst s.
  - injection E as _ E. now exists c, s'.
Qed.

Lemma stops_blank_last (a : ascii) (tail : text) :
  stops [a] tail -> is_blank a = true ->
  tail = []
  \/ (exists c t, tail = c :: t /\ is_blank c = false
                  /\ ch_eqb c BSLASH = false).
Proof.
  intros [(c & s' & E & Hc)|H] Ha; [|exact H].
  destruct s' as [|x s']; cbn in E.
  - injection E as ->. congruence.
  - injection E as _ E. now destruct s'.
Qed.

Lemma startswith_head (c : ascii) (t : text) :
  ch_eqb c BSLASH = false -> startswith (c :: t) [BSLASH] = false.
Proof.
  intros H. cbn [startswith]. rewrite ch_eqb_sym, H. reflexivity.
Qed.

Lemma star_blocked (k : kont) (g : groups) (s : text) :
  needs_backslash k g ->
  forall tail pos prev,
    no_backslash s -> stops s tail ->
    star_greedy is_blank (s ++ tail) pos prev g k = None.
Proof.
  intros Hk. induction s as [|a s IH]; intros tail pos prev Hn Hs.
  - cbn [app].
    destruct Hs as [(c & s' & E & _)|[->|(c & t & -> & Hb & Hc)]].
    + now destruct s'.
    + cbn. now apply Hk.
    + cbn [star_greedy]. rewrite Hb. apply Hk. now apply startswith_head.
  - inversion Hn as [|? ? Ha Hn']; subst.
    cbn [app star_greedy].
    assert (Hhere : k (Cursor pos prev (a :: s ++ tail)) g = None)
      by (apply Hk; now apply startswith_head).
    destruct (is_blank a) eqn:Eb; [|exact Hhere].
    rewrite IH; [exact Hhere | exact Hn'|].
    destruct s as [|b s]; [|apply (stops_tail Hs); discriminate].
    right. exact (stops_blank_last Hs Eb).
Qed.

Lemma line_cont_blocked (s tail : text) (pos : nat) (prev : option ascii) :
  no_backslash s -> stops s tail ->
  match_here RE_PTRN_LINE_CONT (Cursor pos prev (s ++ tail)) false = None.
Proof.
  intros Hn Hs. unfold match_here, RE_PTRN_LINE_CONT.
  cbn [seqs rmatch c_rest c_pos c_prev].
  apply star_blocked; [|exact Hn | exact Hs].
  intros c H. cbn [rmatch]. now rewrite H.
Qed.

Section Sub.

Variable repl : mres -> text.

Local Abbreviation sub_from := (sub_aux RE_PTRN_LINE_CONT repl).

Lemma sub_keeps (a : ascii) (t : text) (pos : nat) (prev : option ascii) :
  match_here RE_PTRN_LINE_CONT (Cursor pos prev (a :: t)) false = None ->
  sub_from (a :: t) pos prev 0 = a :: sub_from t (S pos) (Some a) 0.
Proof. intros H. cbn [sub_aux]. now rewrite H. Qed.

(** A text without a backslash that stops the runs of blanks is passed
    over unchanged. *)
Lemma sub_passes (s : text) :
  forall tail pos prev,
    no_backslash s -> s = [] \/ stops s tail ->
    exists pos' prev',
      sub_from (s ++ tail) pos prev 0 = s ++ sub_from tail pos' prev' 0.
Proof.
  induction s as [|a s IH]; intros tail pos prev Hn Hs.
  - now exists pos, prev.
  - destruct Hs as [Hs|Hs]; [discriminate|].
    inversion Hn as [|? ? Ha Hn']; subst.
    cbn [app]. rewrite sub_keeps
      by (apply line_cont_blocked with (s := a :: s); assumption).
    destruct (IH tail (S pos) (Some a) Hn') as (pos' & prev' & E).
    { destruct s; [now left | right].
      apply (stops_tail Hs). discriminate. }
    exists pos', prev'. now rewrite E.
Qed.

Lemma sub_skips (xs : text) :
  forall tail pos prev,
    exists pos' prev',
      sub_from (xs ++ tail) pos prev (length xs) = sub_from tail pos' prev' 0.
Proof.
  induction xs as [|x xs IH]; intros tail pos prev.
  - now exists pos, prev.
  - cbn [app length sub_aux]. apply IH.
Qed.

Lemma sub_replaces (x : ascii) (xs rest : text) (pos : nat)
    (prev : option ascii) (m : mres) :
  match_here RE_PTRN_LINE_CONT (Cursor pos prev (x :: xs ++ rest)) false
  = Some m ->
  m_end m = pos + S (length xs) ->
  exists pos' prev',
    sub_from (x :: xs ++ rest) pos prev 0
    = repl m ++ sub_from rest pos' prev' 0.
Proof.
  intros H E. cbn [sub_aux]. rewrite H, E.
  replace (pos + S (length xs) =? pos) with false
    by (symmetry; apply Nat.eqb_neq; lia).
  replace (pos + S (length xs) - pos - 1) with (length xs) by lia.
  destruct (sub_skips xs rest (S pos) (Some x)) as (pos' & prev' & E').
  exists pos', prev'. now rewrite E'.
Qed.

End Sub.

(** The run of blanks before a continuation is taken whole. *)
Lemma star_takes_blanks (k : kont) (g : groups) (res : mres)
    (blanks : text) (c : ascii) (t : text) :
  forallb is_blank blanks = true -> is_blank c = false ->
  forall pos prev,
    (forall prev', k (Cursor (pos + length blanks) prev' (c :: t)) g
                   = Some res) ->
    star_greedy is_blank (blanks ++ c :: t) pos prev g k = Some res.
Proof.
  intros Hb Hc. induction blanks as [|b blanks IH]; intros pos prev Hk.
  - cbn [app star_greedy]. rewrite Hc. rewrite <- (Hk prev).
    cbn [length]. now rewrite Nat.add_0_r.
  - cbn [forallb] in Hb. apply andb_prop in Hb as [Hb1 Hb2].
    cbn [app star_greedy]. rewrite Hb1.
    rewrite (IH Hb2 (S pos) (Some b)); [reflexivity|].
    intros prev'. rewrite <- (Hk prev'). cbn [length].
    now rewrite Nat.add_succ_r.
Qed.

Lemma line_cont_matches (blanks rest : text) (pos : nat)
    (prev : option ascii) :
  forallb is_blank blanks = true ->
  match_here RE_PTRN_LINE_CONT
    (Cursor pos prev (blanks ++ BSLASH :: LF :: rest)) false
  = Some (MRes pos (pos + length blanks + 2) []).
Proof.
  intros Hb. unfold match_here, RE_PTRN_LINE_CONT.
  cbn [seqs rmatch c_rest c_pos c_prev].
  apply star_takes_blanks; [exact Hb | reflexivity|].
  intros prev'.
  replace (pos + length blanks + 2) with (S (S (pos + length blanks)))
    by lia.
  cbn. now destruct rest.
Qed.

Lemma sub_at_end (repl : mres -> text) (pos : nat) (prev : option ascii) :
  sub_aux RE_PTRN_LINE_CONT repl [] pos prev 0 = [].
Proof.
  assert (H : match_here RE_PTRN_LINE_CONT (Cursor pos prev []) false = None).
  { apply line_cont_blocked with (s := []) (tail := []);
      [constructor | right; now left]. }
  cbn [sub_aux]. now rewrite H.
Qed.

(** *** Tidy lines *)

Lemma line_char_no_backslash (l : text) :
  forallb line_char l = true -> no_backslash l.
Proof.
  intros H. apply Forall_forall. intros c Hc.
  rewrite forallb_forall in H. specialize (H c Hc).
  unfold line_char in H. apply andb_prop in H as [_ H].
  now apply negb_true_iff in H.
Qed.

Lemma blank_is_space (c : ascii) : is_blank c = true -> isspace c = true.
Proof.
  unfold is_blank, ch_eqb. intros H.
  apply orb_prop in H as [H|H]; apply Ascii.eqb_eq in H; now subst c.
Qed.

Lemma ends_tidy_stops (core tail : text) :
  ends_tidy core = true -> core = [] \/ stops core tail.
Proof.
  unfold ends_tidy. intros H.
  destruct core as [|a core] using rev_ind; [now left | right; left].
  rewrite rev_app_distr in H. cbn in H.
  exists a, core. split; [reflexivity|].
  destruct (is_blank a) eqn:E; [|reflexivity].
  apply blank_is_space in E. now rewrite E in H.
Qed.

Lemma no_backslash_app (s t : text) :
  no_backslash s -> no_backslash t -> no_backslash (s ++ t).
Proof. intros Hs Ht. apply Forall_app. now split. Qed.

Lemma text_of_cons (p : line) (ps : list line) (last_line : text) :
  text_of (p :: ps) last_line = written p ++ LF :: text_of ps last_line.
Proof.
  unfold text_of. cbn [map concat]. now rewrite <- !app_assoc.
Qed.

(** The substitution on tidy lines, from any position. *)
Lemma sub_tidy (repl_str : text) (last_line : text) (ps : list line) :
  forallb tidy_line ps = true -> forallb line_char last_line = true ->
  forall pos prev,
    sub_aux RE_PTRN_LINE_CONT (fun _ => repl_str) (text_of ps last_line)
      pos prev 0
    = concat
        (map (fun p => joined p ++ match p with
                                   | Plain _ => [LF]
                                   | Continued _ _ => repl_str
                                   end) ps)
      ++ last_line.
Proof.
  intros Hps Hl. induction ps as [|p ps IH]; intros pos prev.
  - unfold text_of. cbn [map concat app].
    rewrite <- (app_nil_r last_line) at 1.
    destruct (sub_passes (fun _ => repl_str) (s := last_line) (tail := [])
                pos prev) as (pos' & prev' & E).
    + now apply line_char_no_backslash.
    + right. right. now left.
    + rewrite E, sub_at_end. apply app_nil_r.
  - cbn [forallb] in Hps. apply andb_prop in Hps as [Hp Hps].
    rewrite text_of_cons. cbn [map concat]. rewrite <- app_assoc.
    destruct p as [l|core blanks]; cbn [written joined tidy_line] in *.
    + change (l ++ LF :: text_of ps last_line)
        with (l ++ [LF] ++ text_of ps last_line).
      rewrite app_assoc.
      destruct (sub_passes (fun _ => repl_str) (s := l ++ [LF])
                  (tail := text_of ps last_line) pos prev)
        as (pos' & prev' & E).
      * apply no_backslash_app; [now apply line_char_no_backslash|].
        now repeat constructor.
      * right. left. now exists LF, l.
      * rewrite E, (IH Hps). now rewrite <- !app_assoc.
    + apply andb_prop in Hp as [Hp Hb]. apply andb_prop in Hp as [Hc He].
      rewrite <- !app_assoc. cbn [app].
      destruct (sub_passes (fun _ => repl_str) (s := core)
                  (tail := blanks ++ BSLASH :: LF :: text_of ps last_line)
                  pos prev) as (pos' & prev' & E).
      * now apply line_char_no_backslash.
      * now apply ends_tidy_stops.
      * rewrite E. f_equal.
        pose proof (line_cont_matches blanks (text_of ps last_line)
                      pos' prev' Hb) as M.
        destruct (blanks ++ [BSLASH; LF]) as [|x xs] eqn:Ex;
          [now destruct blanks|].
        assert (Ew : blanks ++ BSLASH :: LF :: text_of ps last_line
                     = x :: xs ++ text_of ps last_line).
        { change (x :: xs ++ text_of ps last_line)
            with ((x :: xs) ++ text_of ps last_line).
          rewrite <- Ex, <- app_assoc. reflexivity. }
        assert (El : length blanks + 2 = S (length xs)).
        { change (S (length xs)) with (length (x :: xs)).
          rewrite <- Ex, length_app. reflexivity. }
        rewrite Ew in *.
        destruct (@sub_replaces (fun _ => repl_str) x xs
                    (text_of ps last_line) pos' prev' _ M)
          as (pos2 & prev2 & E2).
        { cbn [m_end]. lia. }
        rewrite E2, (IH Hps). reflexivity.
Qed.

(** X3. On tidy lines the regex version of [remove_line_escapes] drops the
    blanks and the backslash of every continued line, and puts a newline
    or nothing in the place of the line end, as [keep_newlines] says;
    everything else stays. *)
Theorem regex_version_joins_tidy_lines :
  forall (ps : list line) (last_line : text) (keep_newlines : bool),
    forallb tidy_line ps = true ->
    forallb line_char last_line = true ->
    CodeFormatter.remove_line_escapes (text_of ps last_line) keep_newlines
    = joined_with keep_newlines ps last_line.
Proof.
  intros ps last_line keep_newlines Hps Hl.
  unfold CodeFormatter.remove_line_escapes, Re.sub.
  rewrite sub_tidy by assumption.
  reflexivity.
Qed.

(** *** The line-by-line version *)

Lemma line_char_no_break (l : text) :
  forallb line_char l = true -> no_break l = true.
Proof.
  unfold no_break. intros H. rewrite forallb_forall in *. intros c Hc.
  specialize (H c Hc). unfold line_char in H.
  now apply andb_prop in H as [H _].
Qed.

Lemma blank_not_break (c : ascii) :
  is_blank c = true -> is_linebreak c = false.
Proof.
  unfold is_blank, ch_eqb. intros H.
  apply orb_prop in H as [H|H]; apply Ascii.eqb_eq in H; now subst c.
Qed.

Lemma no_break_app (s t : text) :
  no_break s = true -> no_break t = true -> no_break (s ++ t) = true.
Proof. unfold no_break. intros Hs Ht. now rewrite forallb_app, Hs, Ht. Qed.

Lemma written_no_break (p : line) :
  tidy_line p = true -> no_break (written p) = true.
Proof.
  destruct p as [l|core blanks]; cbn [tidy_line written]; intros H.
  - now apply line_char_no_break.
  - apply andb_prop in H as [H Hb]. apply andb_prop in H as [Hc _].
    apply no_break_app; [now apply line_char_no_break|].
    apply no_break_app; [|reflexivity].
    unfold no_break. rewrite forallb_forall in *. intros c Hin.
    now rewrite (blank_not_break _ (Hb c Hin)).
Qed.

Lemma text_of_terminated (ps : list line) (last_line : text) :
  text_of ps last_line = terminated (map written ps) ++ last_line.
Proof. unfold text_of, terminated. now rewrite map_map. Qed.

Lemma rstrip_tidy (core blanks : text) :
  ends_tidy core = true -> forallb is_blank blanks = true ->
  rstrip (core ++ blanks) = core.
Proof.
  intros He Hb. rewrite rstrip_spaces.
  - unfold ends_tidy in He.
    destruct core as [|c core] using rev_ind; [reflexivity|].
    rewrite rev_app_distr in He. cbn in He.
    apply rstrip_last. now apply negb_true_iff.
  - rewrite forallb_forall in *. intros c Hc.
    now apply blank_is_space, Hb.
Qed.

Lemma endswith_snoc (s : text) (c : ascii) : endswith (s ++ [c]) [c] = true.
Proof.
  unfold endswith. rewrite rev_app_distr. cbn [rev app startswith].
  unfold ch_eqb. rewrite Ascii.eqb_refl. now destruct (rev s).
Qed.

Lemma line_by_line_tidy_fold (keep_newlines : bool) (ps : list line) :
  forallb tidy_line ps = true ->
  forall acc,
    fold_left
      (fun out_code line =>
         if endswith (rstrip line) [BSLASH] then
           let line := rstrip (slice_to line (-1)) in
           if keep_newlines then out_code ++ line ++ [LF]
           else
             let line := lstrip line in
             out_code ++ line ++ [SP]
         else out_code ++ line ++ [LF])
      (map written ps) acc
    = acc ++ concat (map (line_by_line_piece keep_newlines) ps).
Proof.
  induction ps as [|p ps IH]; intros H acc; cbn [map fold_left concat].
  - now rewrite app_nil_r.
  - cbn [forallb] in H. apply andb_prop in H as [Hp Hps].
    rewrite (IH Hps).
    rewrite (app_assoc acc (line_by_line_piece keep_newlines p)). f_equal.
    destruct p as [l|core blanks];
      cbn [tidy_line written line_by_line_piece] in *.
    + now rewrite endswith_rstrip_backslash
        by (now apply line_char_no_backslash).
    + apply andb_prop in Hp as [Hp Hb]. apply andb_prop in Hp as [Hc He].
      rewrite (app_assoc core blanks [BSLASH]).
      rewrite (@rstrip_last (core ++ blanks) BSLASH) by reflexivity.
      rewrite endswith_snoc. cbv zeta.
      rewrite drop_last_char, rstrip_tidy by assumption.
      now destruct keep_newlines.
Qed.

Lemma line_by_line_tidy (keep_newlines : bool) (ps : list line)
    (last_line : text) :
  tidy ps last_line = true ->
  CpreprocUtils.remove_line_escapes (text_of ps last_line) keep_newlines
  = line_by_line_text keep_newlines ps last_line.
Proof.
  unfold tidy. intros H. apply andb_prop in H as [H Hne].
  apply andb_prop in H as [Hps Hl].
  unfold CpreprocUtils.remove_line_escapes, line_by_line_text.
  rewrite text_of_terminated, splitlines_terminated.
  - rewrite fold_left_app, line_by_line_tidy_fold by exact Hps.
    cbn [app]. destruct last_line as [|c last_line].
    + destruct ps; [reflexivity | discriminate Hne].
    + cbn [last_as_lines fold_left].
      rewrite endswith_rstrip_backslash
        by (now apply line_char_no_backslash).
      rewrite !app_assoc. apply drop_last_char.
  - rewrite forallb_forall in *. intros l Hin.
    apply in_map_iff in Hin as (p & <- & Hp).
    now apply written_no_break, Hps.
  - now apply line_char_no_break.
Qed.

Lemma regex_version_joins_tidy_lines_witness :
  forallb tidy_line sample_lines = true
  /\ CodeFormatter.remove_line_escapes
       (text_of sample_lines sample_last_line) false
     = joined_with false sample_lines sample_last_line.
Proof.
  split; [reflexivity|].
  apply (regex_version_joins_tidy_lines sample_lines sample_last_line false);
    reflexivity.
Defined.

(** X4. On tidy lines the line-by-line version of [remove_line_escapes]
    keeps the plain lines; a continued line loses its blanks and its
    backslash, and its line end stays a newline ([keep_newlines]) or the
    line loses its indentation too and its line end becomes a space. *)
Theorem line_by_line_version_on_tidy_lines :
  forall (ps : list line) (last_line : text) (keep_newlines : bool),
    tidy ps last_line = true ->
    CpreprocUtils.remove_line_escapes (text_of ps last_line) keep_newlines
    = line_by_line_text keep_newlines ps last_line.
Proof. intros. now apply line_by_line_tidy. Qed.

Lemma line_by_line_version_on_tidy_lines_witness :
  tidy sample_lines sample_last_line = true
  /\ CpreprocUtils.remove_line_escapes
       (text_of sample_lines sample_last_line) false
     = line_by_line_text false sample_lines sample_last_line.
Proof.
  split; [reflexivity|].
  apply (line_by_line_version_on_tidy_lines sample_lines sample_last_line
           false).
  reflexivity.
Defined.

(** X5. With [keep_newlines] the two versions of [remove_line_escapes]
    return the same text on tidy lines: every line end stays, the
    blanks and the backslash of the continued lines go. *)
Theorem remove_line_escapes_agree_with_newlines_kept :
  forall (ps : list line) (last_line : text),
    tidy ps last_line = true ->
    CodeFormatter.remove_line_escapes (text_of ps last_line) true
    = CpreprocUtils.remove_line_escapes (text_of ps last_line) true
    /\ CodeFormatter.remove_line_escapes (text_of ps last_line) true
       = joined_text_of ps last_line.
Proof.
  intros ps last_line H. rewrite line_by_line_tidy by exact H.
  unfold tidy in H. apply andb_prop in H as [H _].
  apply andb_prop in H as [Hps Hl].
  unfold CodeFormatter.remove_line_escapes, Re.sub.
  rewrite sub_tidy by assumption.
  unfold line_by_line_text, joined_text_of.
  split; f_equal; f_equal; apply map_ext; now intros [l|core blanks].
Qed.

Lemma remove_line_escapes_agree_with_newlines_kept_witness :
  tidy sample_lines sample_last_line = true
  /\ CodeFormatter.remove_line_escapes
       (text_of sample_lines sample_last_line) true
     = CpreprocUtils.remove_line_escapes
         (text_of sample_lines sample_last_line) true.
Proof.
  split; [reflexivity|].
  apply (remove_line_escapes_agree_with_newlines_kept sample_lines
           sample_last_line).
  reflexivity.
Defined.

End TidyFacts.

(** ** The segments of the input *)

Module InputFacts.
Import Py CodeFormatter PreprocInput Lines Segments TextFacts LineFacts
  LoopFacts.

(** A blank line is empty once stripped on the right. *)
Lemma lstrip_head (s : text) :
  match lstrip s with [] => True | c :: _ => isspace c = false end.
Proof.
  induction s as [|c s IH]; [exact I|]. cbn [lstrip].
  destruct (isspace c) eqn:E; [exact IH | exact E].
Qed.

Lemma lstrip_all_spaces (s : text) :
  lstrip s = [] -> forallb isspace s = true.
Proof.
  induction s as [|c s IH]; [reflexivity|]. cbn [lstrip forallb].
  destruct (isspace c); [exact IH | discriminate].
Qed.

Lemma lstrip_of_spaces (s : text) :
  forallb isspace s = true -> lstrip s = [].
Proof.
  intros H. rewrite <- (app_nil_r s). now rewrite lstrip_spaces.
Qed.

Lemma rstrip_nil_iff_lstrip_nil (s : text) : rstrip s = [] <-> lstrip s = [].
Proof.
  unfold rstrip. split; intros H.
  - apply lstrip_of_spaces.
    assert (H' : lstrip (rev s) = []).
    { apply (f_equal (@rev ascii)) in H. now rewrite rev_involutive in H. }
    apply lstrip_all_spaces in H'. rewrite forallb_forall in *.
    intros c Hc. apply H'. now apply in_rev in Hc.
  - apply lstrip_all_spaces in H.
    rewrite lstrip_of_spaces; [reflexivity|].
    rewrite forallb_forall in *. intros c Hc. apply H. now apply in_rev.
Qed.

Lemma blank_line_rstrip (l : text) :
  is_empty (strip l) = true -> rstrip l = [].
Proof.
  unfold strip. intros H.
  assert (E : rstrip (lstrip l) = []) by (now destruct (rstrip (lstrip l))).
  apply rstrip_nil_iff_lstrip_nil. apply rstrip_nil_iff_lstrip_nil in E.
  pose proof (lstrip_head l) as Hh.
  destruct (lstrip l) as [|c s]; [reflexivity|].
  cbn [lstrip] in E. now rewrite Hh in E.
Qed.

(** The lines taken by the inner loops are the next lines, stripped on
    the right. *)
Lemma take_continued_lines (lines : list text) :
  map rstrip lines
  = fst (take_continued lines) ++ map rstrip (snd (take_continued lines)).
Proof.
  induction lines as [|l rest IH]; [reflexivity|]. cbn [take_continued].
  destruct (endswith (rstrip l) [BSLASH]); [|reflexivity].
  destruct (take_continued rest) as [more rest']. cbn [fst snd map app] in *.
  now rewrite IH.
Qed.

Lemma take_comment_lines (lines : list text) :
  map rstrip lines
  = fst (fst (take_comment lines))
    ++ map rstrip (snd (fst (take_comment lines))).
Proof.
  induction lines as [|l rest IH]; [reflexivity|]. cbn [take_comment].
  destruct (contains (rstrip l) (lit "*/")); [reflexivity|].
  destruct (take_comment rest) as [[more rest'] u].
  cbn [fst snd map app] in *. now rewrite IH.
Qed.

Lemma take_blank_lines (lines : list text) :
  map rstrip lines
  = fst (take_blank lines) ++ map rstrip (snd (take_blank lines)).
Proof.
  induction lines as [|l rest IH]; [reflexivity|]. cbn [take_blank].
  destruct (is_empty (strip l)) eqn:E; [|reflexivity].
  destruct (take_blank rest) as [more rest']. cbn [fst snd map app] in *.
  now rewrite (blank_line_rstrip _ E), IH.
Qed.

Lemma terminated_cons (l : text) (ls : list text) :
  terminated (l :: ls) = l ++ LF :: terminated ls.
Proof. unfold terminated. cbn [map concat]. now rewrite <- app_assoc. Qed.

Lemma segment_then_rest (first : text) (more lines rest' : list text) :
  lines = more ++ rest' ->
  join [LF] (first :: more) ++ LF :: terminated rest'
  = terminated (first :: lines).
Proof.
  intros ->.
  change (join [LF] (first :: more) ++ LF :: terminated rest')
    with (join [LF] (first :: more) ++ [LF] ++ terminated rest').
  rewrite app_assoc, join_terminated.
  change (first :: more ++ rest') with ((first :: more) ++ rest').
  now rewrite terminated_app.
Qed.

Lemma yield_loop_lines (fuel : nat) :
  forall in_lines line_idx,
    length in_lines <= fuel ->
    terminated (map p_code (yield_loop fuel in_lines line_idx))
    = terminated (map rstrip in_lines).
Proof.
  induction fuel as [|f IH]; intros in_lines line_idx Hlen.
  - destruct in_lines; [reflexivity | cbn in Hlen; lia].
  - destruct in_lines as [|l rest]; [reflexivity|].
    cbn [length] in Hlen. cbn [yield_loop].
    pose proof (take_continued_shorter rest) as Hc.
    pose proof (take_comment_shorter rest) as Hm.
    pose proof (take_blank_shorter rest) as Hb.
    pose proof (take_continued_lines rest) as Lc.
    pose proof (take_comment_lines rest) as Lm.
    pose proof (take_blank_lines rest) as Lb.
    cbn [map].
    destruct (endswith (rstrip l) [BSLASH]).
    + destruct (take_continued rest) as [more rest'].
      cbn [fst snd] in *. cbn [map p_code].
      rewrite terminated_cons, IH by lia. now apply segment_then_rest.
    + destruct (contains (rstrip l) (lit "/*")
                && negb (contains (rstrip l) (lit "*/"))).
      * destruct (take_comment rest) as [[more rest'] u].
        cbn [fst snd] in *. cbn [map p_code].
        rewrite terminated_cons, IH by lia. now apply segment_then_rest.
      * destruct (is_empty (rstrip l)).
        -- destruct (take_blank rest) as [more rest'].
           cbn [fst snd] in *. cbn [map p_code].
           rewrite terminated_cons, IH by lia. now apply segment_then_rest.
        -- cbn [map p_code join].
           now rewrite !terminated_cons, IH by lia.
Qed.

(** X6. No line is lost and none is added: the segments, each followed by a
    newline, are the lines of the text, stripped of trailing white
    space and each followed by a newline. *)
Theorem segments_are_the_lines :
  forall (code : text),
    terminated (map p_code (yield_code_parts code))
    = terminated (map rstrip (splitlines code)).
Proof.
  intros code. unfold yield_code_parts. now apply yield_loop_lines.
Qed.

(** *** The line index of a segment *)

Lemma lstrip_incl (s : text) (c : ascii) : In c (lstrip s) -> In c s.
Proof.
  induction s as [|a s IH]; [easy|]. cbn [lstrip].
  destruct (isspace a); [right; now apply IH | easy].
Qed.

Lemma rstrip_no_break (l : text) :
  no_break l = true -> no_break (rstrip l) = true.
Proof.
  unfold no_break, rstrip. intros H. rewrite forallb_forall in *.
  intros c Hc. apply H. apply in_rev in Hc. apply lstrip_incl in Hc.
  now apply in_rev.
Qed.

Lemma take_continued_no_break (lines : list text) :
  forallb no_break lines = true ->
  forallb no_break (fst (take_continued lines)) = true
  /\ forallb no_break (snd (take_continued lines)) = true.
Proof.
  induction lines as [|l rest IH]; intros H; [now split|].
  cbn [forallb] in H. apply andb_prop in H as [Hl Hr].
  cbn [take_continued].
  destruct (endswith (rstrip l) [BSLASH]).
  - destruct (take_continued rest) as [more rest']. cbn [fst snd] in *.
    destruct (IH Hr) as [I1 I2]. cbn [forallb].
    now rewrite rstrip_no_break, I1.
  - cbn [fst snd forallb]. now rewrite rstrip_no_break.
Qed.

Lemma take_comment_no_break (lines : list text) :
  forallb no_break lines = true ->
  forallb no_break (fst (fst (take_comment lines))) = true
  /\ forallb no_break (snd (fst (take_comment lines))) = true.
Proof.
  induction lines as [|l rest IH]; intros H; [now split|].
  cbn [forallb] in H. apply andb_prop in H as [Hl Hr].
  cbn [take_comment].
  destruct (contains (rstrip l) (lit "*/")).
  - cbn [fst snd forallb]. now rewrite rstrip_no_break.
  - destruct (take_comment rest) as [[more rest'] u]. cbn [fst snd] in *.
    destruct (IH Hr) as [I1 I2]. cbn [forallb].
    now rewrite rstrip_no_break, I1.
Qed.

Lemma take_blank_no_break (lines : list text) :
  forallb no_break lines = true ->
  forallb no_break (fst (take_blank lines)) = true
  /\ forallb no_break (snd (take_blank lines)) = true.
Proof.
  induction lines as [|l rest IH]; intros H; [now split|].
  pose proof H as H0.
  cbn [forallb] in H. apply andb_prop in H as [Hl Hr].
  cbn [take_blank].
  destruct (is_empty (strip l)).
  - destruct (take_blank rest) as [more rest']. cbn [fst snd] in *.
    destruct (IH Hr) as [I1 I2]. cbn [forallb]. now rewrite I1.
  - now split.
Qed.

(** Counting the newlines of lines joined by newlines. *)
Lemma startswith_nil (s : text) : startswith s [] = true.
Proof. now destruct s. Qed.

Lemma count_newlines_line (l t : text) :
  no_break l = true ->
  count_aux [LF] (l ++ t) 0 = count_aux [LF] t 0.
Proof.
  induction l as [|c l IH]; intros H; [reflexivity|].
  apply no_break_cons in H as [Hc Hl]. cbn [app count_aux startswith].
  destruct (ch_eqb LF c) eqn:E.
  - apply Ascii.eqb_eq in E. subst c. discriminate Hc.
  - cbn [andb]. now apply IH.
Qed.

Lemma count_newlines_join (more : list text) :
  forall first,
    forallb no_break (first :: more) = true ->
    count (join [LF] (first :: more)) [LF] = Z.of_nat (length more).
Proof.
  unfold count.
  induction more as [|l more IH]; intros first H;
    cbn [forallb] in H; apply andb_prop in H as [Hf Hm].
  - cbn [join length]. rewrite <- (app_nil_r first).
    now rewrite count_newlines_line.
  - change (join [LF] (first :: l :: more))
      with (first ++ LF :: join [LF] (l :: more)).
    rewrite count_newlines_line by exact Hf.
    cbn [count_aux startswith length Nat.sub].
    unfold ch_eqb at 1. rewrite Ascii.eqb_refl, startswith_nil.
    cbn [andb]. rewrite (IH l Hm). cbn [length]. lia.
Qed.

Lemma line_count_part (line_idx : nat) (u : bool) (ty : CodeType)
    (first : text) (more : list text) :
  forallb no_break (first :: more) = true ->
  line_count (Part line_idx u ty (join [LF] (first :: more)))
  = 1 + length more.
Proof.
  intros H. unfold line_count. cbn [p_code].
  rewrite count_newlines_join by exact H. lia.
Qed.

Lemma yield_loop_numbered (fuel : nat) :
  forall in_lines line_idx,
    forallb no_break in_lines = true ->
    numbered line_idx (yield_loop fuel in_lines line_idx) = true.
Proof.
  induction fuel as [|f IH]; intros in_lines line_idx H; [reflexivity|].
  destruct in_lines as [|l rest]; [reflexivity|].
  cbn [forallb] in H. apply andb_prop in H as [Hl Hr].
  apply rstrip_no_break in Hl.
  cbn [yield_loop].
  pose proof (take_continued_no_break rest Hr) as Nc.
  pose proof (take_comment_no_break rest Hr) as Nm.
  pose proof (take_blank_no_break rest Hr) as Nb.
  assert (Step : forall more rest' u,
             forallb no_break more = true ->
             forallb no_break rest' = true ->
             numbered line_idx
               (Part line_idx u (classify (join [LF] (rstrip l :: more)))
                  (join [LF] (rstrip l :: more))
                :: yield_loop f rest' (line_idx + 1 + length more)) = true).
  { intros more rest' u Hm Hr'. cbn [numbered p_line].
    rewrite Nat.eqb_refl, line_count_part
      by (cbn [forallb]; now rewrite Hl, Hm).
    cbn [andb]. rewrite Nat.add_assoc. now apply IH. }
  destruct (endswith (rstrip l) [BSLASH]).
  - destruct (take_continued rest) as [more rest']. cbn [fst snd] in Nc.
    now apply Step.
  - destruct (contains (rstrip l) (lit "/*")
              && negb (contains (rstrip l) (lit "*/"))).
    + destruct (take_comment rest) as [[more rest'] u]. cbn [fst snd] in Nm.
      now apply Step.
    + destruct (is_empty (rstrip l)).
      * destruct (take_blank rest) as [more rest']. cbn [fst snd] in Nb.
        now apply Step.
      * now apply Step.
Qed.

(** X7. The line index that the generator leaves in the logger for a
    segment is the number of lines of the segments before it: the first
    segment starts at line 0 and every segment starts where the one
    before it ends. *)
Theorem segments_start_where_the_last_one_ends :
  forall (code : text), numbered 0 (yield_code_parts code) = true.
Proof.
  intros code. unfold yield_code_parts.
  apply yield_loop_numbered, splitlines_no_break.
Qed.

End InputFacts.

(** ** Tabs *)

Module TabFacts.
Import Py CodeFormatter Lines Measures TabStops TextFacts LineFacts LoopFacts.

Lemma tabs_app (s t : text) : tabs (s ++ t) = tabs s + tabs t.
Proof. unfold tabs. now rewrite filter_app, length_app. Qed.

Lemma tabs_spaces (n : nat) : tabs (spaces n) = 0.
Proof. unfold tabs. now rewrite spaces_no_tab. Qed.

Lemma tabs_cons (c : ascii) (s : text) :
  tabs (c :: s) = (if ch_eqb c TAB then 1 else 0) + tabs s.
Proof. unfold tabs, is_tab. cbn [filter]. now destruct (ch_eqb c TAB). Qed.

Lemma spaces_length (n : nat) : length (spaces n) = n.
Proof. apply repeat_length. Qed.

(** The first tab of a line. *)
Lemma first_tab_found (pre r : text) :
  tabs pre = 0 -> find (pre ++ TAB :: r) [TAB] = len pre.
Proof.
  rewrite find_char. unfold len. intros H.
  assert (G : forall p, find_aux [TAB] (pre ++ TAB :: r) p
                        = (p + Z.of_nat (length pre))%Z).
  { induction pre as [|c pre IH]; intros p.
    - cbn [app find_aux]. rewrite startswith_char. unfold ch_eqb.
      rewrite Ascii.eqb_refl. cbn [length]. lia.
    - rewrite tabs_cons in H. cbn [app find_aux].
      rewrite startswith_char, ch_eqb_sym.
      destruct (ch_eqb c TAB); [lia|].
      rewrite IH by lia. cbn [length]. lia. }
  now rewrite G.
Qed.

Lemma first_tab_replaced (pre r new : text) :
  tabs pre = 0 ->
  replace_first_char (pre ++ TAB :: r) TAB new = pre ++ new ++ r.
Proof.
  induction pre as [|c pre IH]; intros H.
  - cbn [app replace_first_char]. unfold ch_eqb.
    now rewrite Ascii.eqb_refl.
  - rewrite tabs_cons in H. cbn [app replace_first_char].
    destruct (ch_eqb c TAB); [lia|]. now rewrite IH by lia.
Qed.

Lemma no_tab_line (fuel : nat) (line : text) (tab_size : Z) :
  tabs line = 0 -> replace_tabs_line fuel line tab_size = line.
Proof.
  intros H. destruct fuel as [|f]; [reflexivity|].
  cbn [replace_tabs_line]. rewrite find_char, no_tab_found by exact H.
  reflexivity.
Qed.

(** The loop of [replace_tabs] on a line whose first part [pre] is
    expanded already. *)
Lemma replace_tabs_line_pass (tab_size : Z) (rest : text) :
  forall fuel pre,
    tabs pre = 0 -> tabs rest <= fuel ->
    replace_tabs_line fuel (pre ++ rest) tab_size
    = pre ++ expand_tabs tab_size (length pre) rest.
Proof.
  induction rest as [|c rest IH]; intros fuel pre Hp Hf.
  - rewrite app_nil_r. cbn [expand_tabs]. rewrite app_nil_r.
    now apply no_tab_line.
  - rewrite tabs_cons in Hf. cbn [expand_tabs].
    destruct (ch_eqb c TAB) eqn:E.
    + apply Ascii.eqb_eq in E. subst c.
      destruct fuel as [|f]; [lia|]. cbn [replace_tabs_line].
      rewrite first_tab_found by exact Hp.
      replace (0 <=? len pre)%Z with true
        by (symmetry; apply Z.leb_le; unfold len; lia).
      rewrite first_tab_replaced by exact Hp.
      unfold len. fold (to_next_stop tab_size (length pre)).
      rewrite app_assoc, IH.
      * now rewrite length_app, spaces_length, <- app_assoc.
      * now rewrite tabs_app, tabs_spaces, Hp.
      * lia.
    + change (pre ++ c :: rest) with (pre ++ [c] ++ rest).
      rewrite app_assoc, IH.
      * rewrite length_app, <- app_assoc. cbn [length app].
        now rewrite Nat.add_1_r.
      * rewrite tabs_app, tabs_cons, E, Hp. reflexivity.
      * lia.
Qed.

Lemma tabs_le_length (s : text) : tabs s <= length s.
Proof. unfold tabs. apply filter_length_le. Qed.

Lemma replace_tabs_line_expands (tab_size : Z) (line : text) :
  replace_tabs_line (length line) line tab_size
  = expand_tabs tab_size 0 line.
Proof.
  apply (@replace_tabs_line_pass tab_size line (length line) []);
    [reflexivity | apply tabs_le_length].
Qed.

Lemma replace_tabs_fold (tab_size : Z) (ls : list text) :
  forall acc,
    fold_left
      (fun out_code line =>
         out_code ++ replace_tabs_line (length line) line tab_size ++ [LF])
      ls acc
    = acc ++ terminated (map (expand_tabs tab_size 0) ls).
Proof.
  unfold terminated.
  induction ls as [|l ls IH]; intros acc; cbn [fold_left map concat].
  - now rewrite app_nil_r.
  - rewrite IH, replace_tabs_line_expands. now rewrite <- !app_assoc.
Qed.

Lemma replace_tabs_lines (code : text) (tab_size : Z) :
  replace_tabs code tab_size
  = terminated (map (expand_tabs tab_size 0) (splitlines code)).
Proof. unfold replace_tabs. now rewrite replace_tabs_fold. Qed.

Lemma next_stop (tab_size : Z) (col : nat) :
  (0 < tab_size)%Z ->
  (0 < Z.of_nat (to_next_stop tab_size col) <= tab_size)%Z
  /\ ((Z.of_nat col + Z.of_nat (to_next_stop tab_size col)) mod tab_size
      = 0)%Z.
Proof.
  intros H. unfold to_next_stop.
  pose proof (Z.mod_pos_bound (Z.of_nat col) tab_size H) as B.
  rewrite Z2Nat.id by lia. split; [lia|].
  pose proof (Z.div_mod (Z.of_nat col) tab_size ltac:(lia)) as D.
  replace (Z.of_nat col + (tab_size - Z.of_nat col mod tab_size))%Z
    with ((Z.of_nat col / tab_size + 1) * tab_size)%Z by lia.
  apply Z.mod_mul. lia.
Qed.

(** X8. [replace_tabs] expands the tabs of every line in one pass from the
    left: a tab at column [col] of the expanded line becomes the spaces
    up to the next multiple of [tab_size] (at least one, at most
    [tab_size]), every other character stays, and every line is
    followed by a newline. *)
Theorem tabs_go_to_the_next_stop :
  forall (code : text) (tab_size : Z),
    (0 < tab_size)%Z ->
    replace_tabs code tab_size
    = terminated (map (expand_tabs tab_size 0) (splitlines code))
    /\ forall col,
         (0 < Z.of_nat (to_next_stop tab_size col) <= tab_size)%Z
         /\ ((Z.of_nat col + Z.of_nat (to_next_stop tab_size col))
               mod tab_size = 0)%Z.
Proof.
  intros code tab_size H. split; [apply replace_tabs_lines|].
  intros col. now apply next_stop.
Qed.

Lemma tabs_go_to_the_next_stop_witness :
  (0 < 4)%Z
  /\ replace_tabs (lit "ab" ++ [TAB] ++ lit "c") 4
     = terminated
         (map (expand_tabs 4 0) (splitlines (lit "ab" ++ [TAB] ++ lit "c"))).
Proof.
  split; [reflexivity|].
  apply (@tabs_go_to_the_next_stop (lit "ab" ++ [TAB] ++ lit "c") 4).
  reflexivity.
Defined.

(** *** No tab is left *)

Lemma expand_tabs_no_tab (tab_size : Z) (l : text) :
  forall col, tabs (expand_tabs tab_size col l) = 0.
Proof.
  induction l as [|c l IH]; intros col; [reflexivity|].
  cbn [expand_tabs]. destruct (ch_eqb c TAB) eqn:E.
  - now rewrite tabs_app, tabs_spaces, IH.
  - now rewrite tabs_cons, E, IH.
Qed.

Lemma terminated_no_tab (ls : list text) :
  Forall (fun l => tabs l = 0) ls -> tabs (terminated ls) = 0.
Proof.
  unfold terminated. induction 1 as [|l ls Hl Hls IH]; [reflexivity|].
  cbn [map concat]. rewrite !tabs_app, Hl, IH. reflexivity.
Qed.

(** X9. The text [replace_tabs] returns holds no tab. *)
Theorem replace_tabs_leaves_no_tab :
  forall (code : text) (tab_size : Z),
    (0 < tab_size)%Z ->
    find (replace_tabs code tab_size) [TAB] = (-1)%Z.
Proof.
  intros code tab_size _. rewrite find_char. apply no_tab_found.
  rewrite replace_tabs_lines. apply terminated_no_tab.
  apply Forall_forall. intros l Hl.
  apply in_map_iff in Hl as (l0 & <- & _). apply expand_tabs_no_tab.
Qed.

Lemma replace_tabs_leaves_no_tab_witness :
  (0 < 4)%Z
  /\ find (replace_tabs (lit "ab" ++ [TAB] ++ lit "c") 4) [TAB] = (-1)%Z.
Proof.
  split; [reflexivity|].
  apply (@replace_tabs_leaves_no_tab (lit "ab" ++ [TAB] ++ lit "c") 4).
  reflexivity.
Defined.

(** *** Doing it again changes nothing *)

Lemma spaces_no_break (n : nat) : no_break (spaces n) = true.
Proof. induction n as [|n IH]; [reflexivity | exact IH]. Qed.

Lemma expand_tabs_no_break (tab_size : Z) (l : text) :
  no_break l = true ->
  forall col, no_break (expand_tabs tab_size col l) = true.
Proof.
  induction l as [|c l IH]; intros H col; [reflexivity|].
  apply no_break_cons in H as [Hc Hl]. cbn [expand_tabs].
  destruct (ch_eqb c TAB).
  - unfold no_break in *. rewrite forallb_app.
    fold (no_break (spaces (to_next_stop tab_size col))).
    rewrite spaces_no_break. now apply IH.
  - unfold no_break in *. cbn [forallb]. rewrite Hc. now apply IH.
Qed.

Lemma expand_tabs_no_tabs (tab_size : Z) (l : text) :
  tabs l = 0 -> forall col, expand_tabs tab_size col l = l.
Proof.
  induction l as [|c l IH]; intros H col; [reflexivity|].
  rewrite tabs_cons in H. cbn [expand_tabs].
  destruct (ch_eqb c TAB); [lia|]. now rewrite IH by lia.
Qed.

(** X10. [replace_tabs] applied to its own result returns it unchanged. *)
Theorem replace_tabs_twice :
  forall (code : text) (tab_size : Z),
    (0 < tab_size)%Z ->
    replace_tabs (replace_tabs code tab_size) tab_size
    = replace_tabs code tab_size.
Proof.
  intros code tab_size _. rewrite (replace_tabs_lines code).
  rewrite replace_tabs_lines.
  rewrite <- (app_nil_r (terminated (map _ (splitlines code)))) at 1.
  rewrite splitlines_terminated; [|clear|reflexivity].
  - cbn [last_as_lines]. rewrite app_nil_r, map_map. f_equal.
    apply map_ext. intros l.
    apply expand_tabs_no_tabs, expand_tabs_no_tab.
  - rewrite forallb_forall. intros l Hl.
    apply in_map_iff in Hl as (l0 & <- & Hl0).
    apply expand_tabs_no_break.
    pose proof (splitlines_no_break code) as N.
    rewrite forallb_forall in N. now apply N.
Qed.

Lemma replace_tabs_twice_witness :
  (0 < 4)%Z
  /\ replace_tabs (replace_tabs (lit "ab" ++ [TAB] ++ lit "c") 4) 4
     = replace_tabs (lit "ab" ++ [TAB] ++ lit "c") 4.
Proof.
  split; [reflexivity|].
  apply (@replace_tabs_twice (lit "ab" ++ [TAB] ++ lit "c") 4).
  reflexivity.
Defined.

End TabFacts.

(** ** Empty lines *)

Module EmptyLineFacts.
Import Py CodeFormatter Lines Blank TextFacts LineFacts.

Lemma join_last (ls : list text) :
  ls <> [] -> join [LF] ls = terminated (removelast ls) ++ last ls [].
Proof.
  induction ls as [|l ls IH]; intros H; [congruence|].
  destruct ls as [|l' ls]; [reflexivity|].
  change (join [LF] (l :: l' :: ls)) with (l ++ [LF] ++ join [LF] (l' :: ls)).
  rewrite IH by discriminate.
  change (removelast (l :: l' :: ls)) with (l :: removelast (l' :: ls)).
  change (last (l :: l' :: ls) []) with (last (l' :: ls) []).
  unfold terminated. cbn [map concat]. now rewrite <- !app_assoc.
Qed.

Lemma last_as_lines_not_blank (l : text) :
  not_blank l = true -> last_as_lines l = [l].
Proof. destruct l; [discriminate | reflexivity]. Qed.

(** The lines of lines joined by newlines, none of them blank. *)
Lemma splitlines_join (ls : list text) :
  forallb no_break ls = true -> forallb not_blank ls = true ->
  splitlines (join [LF] ls) = ls.
Proof.
  intros Hb Hn. destruct ls as [|l ls] using rev_ind; [reflexivity|].
  rewrite join_last by (now destruct ls).
  rewrite removelast_last, last_last.
  rewrite forallb_app in Hb, Hn. cbn [forallb] in Hb, Hn.
  apply andb_prop in Hb as [Hb1 Hb2]. apply andb_prop in Hn as [_ Hn2].
  rewrite andb_true_r in Hb2, Hn2.
  rewrite splitlines_terminated by assumption.
  now rewrite last_as_lines_not_blank.
Qed.

Lemma filter_no_break (f : text -> bool) (ls : list text) :
  forallb no_break ls = true -> forallb no_break (filter f ls) = true.
Proof.
  intros H. rewrite forallb_forall in *. intros l Hl.
  apply filter_In in Hl as [Hl _]. now apply H.
Qed.

Lemma filter_holds (f : text -> bool) (ls : list text) :
  forallb f (filter f ls) = true.
Proof.
  rewrite forallb_forall. intros l Hl. now apply filter_In in Hl as [_ Hl].
Qed.

Lemma filter_twice (f : text -> bool) (ls : list text) :
  filter f (filter f ls) = filter f ls.
Proof.
  induction ls as [|l ls IH]; [reflexivity|]. cbn [filter].
  destruct (f l) eqn:E; [|exact IH]. cbn [filter]. now rewrite E, IH.
Qed.

Lemma lines_after_removal (code : text) :
  splitlines (remove_empty_lines code) = filter not_blank (splitlines code).
Proof.
  unfold remove_empty_lines. apply splitlines_join.
  - apply filter_no_break, splitlines_no_break.
  - apply (filter_holds not_blank).
Qed.

(** X11. The lines of the text [remove_empty_lines] returns are the lines of
    its argument that hold something else than white space, in their
    order; so no line of the result is blank, and removing the empty
    lines again changes nothing. *)
Theorem remove_empty_lines_keeps_the_other_lines :
  forall (code : text),
    splitlines (remove_empty_lines code)
    = filter not_blank (splitlines code)
    /\ forallb not_blank (splitlines (remove_empty_lines code)) = true
    /\ remove_empty_lines (remove_empty_lines code)
       = remove_empty_lines code.
Proof.
  intros code. split; [apply lines_after_removal|]. split.
  - rewrite lines_after_removal. apply (filter_holds not_blank).
  - unfold remove_empty_lines at 1. fold not_blank.
    rewrite lines_after_removal.
    change (filter (fun line => negb (is_empty (strip line))))
      with (filter not_blank).
    now rewrite filter_twice.
Qed.

End EmptyLineFacts.

(** ** Enclosed substrings *)

Module EnclosedFacts.
Import Py Re CodeFormatter TextFacts LoopFacts.

Lemma find_aux_sound (sub s : text) :
  forall p r,
    (0 <= p)%Z -> find_aux sub s p = r -> (0 <= r)%Z ->
    (p <= r <= p + len s)%Z
    /\ startswith (skipn (Z.to_nat (r - p)) s) sub = true.
Proof.
  induction s as [|a s IH]; intros p r Hp E Hr; cbn [find_aux] in E.
  - destruct (startswith [] sub) eqn:St0; [|lia]. subst r.
    rewrite Z.sub_diag. cbn. split; [lia | exact St0].
  - destruct (startswith (a :: s) sub) eqn:St0.
    + subst r. rewrite Z.sub_diag. unfold len. cbn [Z.to_nat skipn].
      split; [lia | exact St0].
    + destruct (IH (p + 1)%Z r ltac:(lia) E Hr) as [B St].
      unfold len in *. cbn [length]. split; [lia|].
      replace (Z.to_nat (r - p)) with (S (Z.to_nat (r - (p + 1)))) by lia.
      exact St.
Qed.

Lemma find_from_sound (code sub : text) (start r : Z) :
  (0 <= start)%Z -> find_from code sub start = r -> (0 <= r)%Z ->
  (start <= r <= len code)%Z
  /\ startswith (skipn (Z.to_nat r) code) sub = true.
Proof.
  unfold find_from, find_in, adjust, adjust_start. intros Hs E Hr.
  assert (Hn : (0 <= len code)%Z) by (unfold len; lia).
  replace (len code <? 0)%Z with false in E by lia.
  replace (start <? 0)%Z with false in E by lia.
  rewrite Z.min_id in E.
  destruct (len code - start <? len sub)%Z eqn:L; [lia|].
  apply Z.ltb_ge in L.
  assert (Hsub : (0 <= len sub)%Z) by (unfold len; lia).
  unfold len in E at 1. rewrite Nat2Z.id, firstn_all in E.
  destruct (find_aux_sound sub (skipn (Z.to_nat start) code) Hs E Hr)
    as [B St].
  assert (Hl : len (skipn (Z.to_nat start) code) = (len code - start)%Z).
  { unfold len in *. rewrite length_skipn. lia. }
  split; [lia|]. rewrite skipn_skipn in St.
  now replace (Z.to_nat (r - start) + Z.to_nat start) with (Z.to_nat r)
    in St by lia.
Qed.

(** What the loop keeps: [e_pos] is -1 or the position of an [end_str]
    after [s_pos]. *)
Lemma find_enclosing_end_inv (code : text) (s_pos : Z)
    (start_str end_str : text) (fuel : nat) :
  (0 <= s_pos)%Z ->
  forall e_pos,
    e_pos = (-1)%Z
    \/ ((s_pos < e_pos <= len code)%Z
        /\ startswith (skipn (Z.to_nat e_pos) code) end_str = true) ->
    let e := find_enclosing_end fuel code s_pos start_str end_str e_pos in
    e = (-1)%Z
    \/ ((s_pos < e <= len code)%Z
        /\ startswith (skipn (Z.to_nat e) code) end_str = true).
Proof.
  intros Hs. induction fuel as [|f IH]; intros e_pos H;
    cbn [find_enclosing_end]; [exact H|].
  destruct (unbalanced code s_pos start_str end_str e_pos) eqn:U; [|exact H].
  apply IH.
  assert (He : (0 <= e_pos)%Z).
  { unfold unbalanced in U. apply andb_prop in U as [U _]. lia. }
  destruct H as [->|[B _]]; [lia|].
  destruct (find_from_next code end_str He) as [E|E]; [now left | right].
  destruct (@find_from_sound code end_str (e_pos + 1) _
              ltac:(lia) eq_refl ltac:(lia)) as [B' St].
  split; [lia | exact St].
Qed.

(** X12. The positions [get_enclosed_subst_pos] returns, for a start position
    that is not negative.  Either no end position is returned, and then
    no start position either unless the ignored prefix did not match;
    or the start position is that of a [start_str] at or after
    [start_pos], the end position is that of an [end_str] after it, and
    the text from the one up to and including the first character of
    the other holds as many [start_str] as [end_str]. *)
Theorem enclosed_positions_are_balanced :
  forall (code : text) (start_pos : Z) (start_str end_str : text)
         (ignored_prefix_re_ptrn : regex) (s_pos e_pos : Z),
    (0 <= start_pos)%Z ->
    get_enclosed_subst_pos code start_pos start_str end_str
      ignored_prefix_re_ptrn = (s_pos, e_pos) ->
    (e_pos = (-1)%Z
     /\ (s_pos = (-1)%Z
         \/ ((start_pos <= s_pos)%Z
             /\ match_range ignored_prefix_re_ptrn code start_pos s_pos
                = None)))
    \/ ((start_pos <= s_pos < e_pos)%Z /\ (e_pos <= len code)%Z
        /\ startswith (skipn (Z.to_nat s_pos) code) start_str = true
        /\ startswith (skipn (Z.to_nat e_pos) code) end_str = true
        /\ count (slice code s_pos (e_pos + 1)) start_str
           = count (slice code s_pos (e_pos + 1)) end_str).
Proof.
  intros code start_pos start_str end_str re s_pos e_pos Hstart E.
  unfold get_enclosed_subst_pos in E.
  set (s := find_from code start_str start_pos) in *.
  assert (Hs : s = (-1)%Z
               \/ ((start_pos <= s <= len code)%Z
                   /\ startswith (skipn (Z.to_nat s) code) start_str = true)).
  { destruct (Z.ltb_spec s 0) as [L|L].
    - left. subst s. unfold find_from, find_in in *.
      destruct (_ <? _)%Z; [reflexivity|].
      match goal with
      | |- find_aux ?sub ?t ?p = _ =>
          destruct (find_aux_bounds sub t p) as [B|B]; [exact B|]
      end.
      unfold adjust_start in *.
      replace (start_pos <? 0)%Z with false in * by lia. lia.
    - right. now apply (@find_from_sound code start_str start_pos s). }
  destruct (0 <=? s)%Z eqn:P; cbn [andb] in E.
  - destruct Hs as [Hs|[B St]]; [lia|].
    destruct (match_range re code start_pos s) eqn:M; cbn [is_some] in E.
    + set (e := find_enclosing_end (S (length code)) code s start_str end_str
                  (find_from code end_str (s + 1))) in *.
      assert (I : e = (-1)%Z
                  \/ ((s < e <= len code)%Z
                      /\ startswith (skipn (Z.to_nat e) code) end_str = true)).
      { apply find_enclosing_end_inv; [lia|].
        destruct (@find_from_next code end_str s ltac:(lia)) as [F|F];
          [now left | right].
        destruct (@find_from_sound code end_str (s + 1) _
                    ltac:(lia) eq_refl ltac:(lia)) as [B' St'].
        split; [lia | exact St']. }
      assert (U : unbalanced code s start_str end_str e = false)
        by (apply enclosing_loop_ends; lia).
      destruct (e <? 0)%Z eqn:N; injection E as <- <-.
      * left. split; [|now left]. destruct I as [I|[I _]]; [exact I | lia].
      * right. destruct I as [I|[I Ie]]; [lia|].
        unfold unbalanced in U.
        replace (0 <=? e)%Z with true in U by lia. cbn [andb] in U.
        apply negb_false_iff, Z.eqb_eq in U.
        repeat split; try lia; assumption.
    + injection E as <- <-. left. split; [reflexivity|]. right.
      split; [lia | exact M].
  - injection E as <- <-. left. split; [reflexivity|]. left.
    destruct Hs as [Hs|[B _]]; [exact Hs | lia].
Qed.

Lemma enclosed_positions_are_balanced_witness :
  (0 <= 1)%Z
  /\ get_enclosed_subst_pos (lit "f(a(b)) + c") 1 (lit "(") (lit ")")
       RE_PTRN_IGNORED_PREFIX = (1%Z, 6%Z)
  /\ count (slice (lit "f(a(b)) + c") 1 (6 + 1)) (lit "(")
     = count (slice (lit "f(a(b)) + c") 1 (6 + 1)) (lit ")").
Proof.
  assert (H0 : (0 <= 1)%Z) by (vm_compute; discriminate).
  assert (H : get_enclosed_subst_pos (lit "f(a(b)) + c") 1 (lit "(") (lit ")")
                RE_PTRN_IGNORED_PREFIX = (1%Z, 6%Z)) by reflexivity.
  split; [exact H0|]. split; [exact H|].
  destruct (@enclosed_positions_are_balanced _ _ _ _ _ _ _ H0 H)
    as [[E _]|(_ & _ & _ & _ & C)]; [discriminate E | exact C].
Defined.

End EnclosedFacts.

(** ** Macro bodies *)

Module MacroFacts.
Import Py Re Macro Absent TextFacts LineFacts.

(** *** The value of the variadic parameter *)

Lemma drop_last_two (s : text) (a b : ascii) :
  slice_to (s ++ [a; b]) (-2) = s.
Proof.
  unfold slice_to, slice, adjust, len. rewrite length_app. cbn [length].
  replace (0 <? 0)%Z with false by reflexivity.
  replace (-2 <? 0)%Z with true by reflexivity.
  replace (Z.to_nat (Z.min 0 (Z.of_nat (length s + 2)))) with 0 by lia.
  cbn [skipn].
  replace (Z.to_nat
             (Z.max 0 (-2 + Z.of_nat (length s + 2))
              - Z.min 0 (Z.of_nat (length s + 2))))
    with (length s + 0) by lia.
  rewrite firstn_app_2. cbn. now rewrite app_nil_r.
Qed.

Lemma separated_fold (sep : text) (vals : list text) :
  forall acc,
    fold_left (fun acc v => acc ++ v ++ sep) vals acc
    = acc ++ concat (map (fun v => v ++ sep) vals).
Proof.
  induction vals as [|v vals IH]; intros acc; cbn [fold_left map concat].
  - now rewrite app_nil_r.
  - rewrite IH. now rewrite <- !app_assoc.
Qed.

Lemma join_then_sep (sep v : text) (vals : list text) :
  concat (map (fun v => v ++ sep) (v :: vals)) = join sep (v :: vals) ++ sep.
Proof.
  revert v. induction vals as [|v' vals IH]; intros v.
  - cbn. now rewrite app_nil_r.
  - change (join sep (v :: v' :: vals))
      with (v ++ sep ++ join sep (v' :: vals)).
    cbn [map concat] in *. rewrite IH. now rewrite <- !app_assoc.
Qed.

(** X13. The value of the variadic parameter is the values from its index
    on, joined by a comma and a space. *)
Theorem variadic_value_joins_the_rest :
  forall (vals : list text) (arg_idx : nat),
    variadic_value vals arg_idx = join (lit ", ") (skipn arg_idx vals).
Proof.
  intros vals arg_idx. unfold variadic_value.
  rewrite separated_fold. cbn [app].
  destruct (skipn arg_idx vals) as [|v rest]; [reflexivity|].
  rewrite join_then_sep. apply (drop_last_two _ ","%char " "%char).
Qed.

(** *** Bodies without an operator *)

Lemma startswith_lacks (x : ascii) (s t : text) :
  lacks x s -> startswith s (x :: t) = false.
Proof.
  intros H. destruct s as [|c s]; [reflexivity|].
  inversion H; subst. cbn [startswith]. rewrite ch_eqb_sym.
  now replace (ch_eqb c x) with false.
Qed.

Lemma star_greedy_lacks (x : ascii) (p : ascii -> bool) (k : kont)
    (g : groups) (rest : text) :
  (forall c, lacks x (c_rest c) -> k c g = None) ->
  lacks x rest ->
  forall pos prev, star_greedy p rest pos prev g k = None.
Proof.
  intros Hk. induction rest as [|a t IH]; intros Hn pos prev; cbn.
  - now apply Hk.
  - inversion Hn; subst.
    destruct (p a); [rewrite IH by assumption|]; now apply Hk.
Qed.

Lemma sub_lacks (x : ascii) (r : regex) (repl : mres -> text) (rest : text) :
  (forall c, lacks x (c_rest c) -> match_here r c false = None) ->
  lacks x rest ->
  forall pos prev, sub_aux r repl rest pos prev 0 = rest.
Proof.
  intros Hr. induction rest as [|a t IH]; intros Hn pos prev; cbn.
  - now rewrite Hr.
  - rewrite Hr by assumption. inversion Hn; subst. now rewrite IH.
Qed.

Lemma re_concat_needs_operator (c : cursor) :
  lacks "#" (c_rest c) -> match_here re_concat c false = None.
Proof.
  intros H. unfold match_here, re_concat. cbn [seqs rmatch].
  apply star_greedy_lacks with (x := "#"%char); [|exact H].
  intros c' H'. cbn [rmatch].
  change (lit "##") with ("#"%char :: lit "#").
  now rewrite startswith_lacks.
Qed.

(** X14. A reference to a macro without parameters whose body holds no "#"
    is replaced by the body, without the white space it starts with. *)
Theorem object_like_macro_gives_its_body :
  forall (m : Macro.t),
    lacks "#" (body m) -> expand_args m None = Some (lstrip (body m)).
Proof.
  intros m H. unfold expand_args, Re.sub.
  rewrite sub_lacks with (x := "#"%char);
    [reflexivity | apply re_concat_needs_operator | exact H].
Qed.

Lemma object_like_macro_gives_its_body_witness :
  lacks "#" (body Tables.X)
  /\ expand_args Tables.X None = Some (lstrip (body Tables.X)).
Proof.
  assert (H : lacks "#" (body Tables.X)) by (repeat constructor).
  split; [exact H|]. exact (object_like_macro_gives_its_body _ H).
Defined.

End MacroFacts.

(** ** The macro expander *)

Module ExpanderFacts.
Import Py Re CodeFormatter Engine Expander Arguments TextFacts LoopFacts Run.
Local Open Scope engine_scope.

(** *** The arguments of a reference *)

Lemma collect_args_complete (temp_args : list text) :
  forall cur done,
    forallb complete done = true ->
    forallb complete (removelast (collect_args (cur :: done) temp_args))
    = true.
Proof.
  induction temp_args as [|temp_arg rest IH]; intros cur done H;
    cbn [collect_args].
  - cbn [rev]. rewrite removelast_last.
    rewrite forallb_forall in *. intros a Ha. apply H. now apply in_rev.
  - fold (complete cur).
    destruct (odd_count cur DQUOTE || odd_count cur SQUOTE
              || negb (count cur (lit "(") =? count cur (lit ")"))%Z) eqn:E.
    + now apply IH.
    + apply IH. cbn [forallb]. unfold complete at 1. now rewrite E.
Qed.

Lemma collect_args_not_empty (temp_args : list text) :
  forall cur done, collect_args (cur :: done) temp_args <> [].
Proof.
  induction temp_args as [|temp_arg rest IH]; intros cur done;
    cbn [collect_args].
  - cbn [rev]. now destruct (rev done).
  - destruct (_ || _); apply IH.
Qed.

Lemma split_aux_not_empty (sep : ascii) (s : text) :
  forall cur, split_aux sep cur s <> [].
Proof.
  induction s as [|y t IH]; intros cur; cbn [split_aux]; [discriminate|].
  destruct (ch_eqb y sep); [discriminate | apply IH].
Qed.

(** X15. An argument ends at a comma only when its quotes are paired and its
    parentheses closed: every argument but the last one is complete.
    An empty text between the parentheses gives no argument, any other
    text at least one. *)
Theorem arguments_end_where_they_are_complete :
  forall (args_code : text),
    forallb complete (removelast (extract_macro_ref_args args_code)) = true
    /\ (extract_macro_ref_args args_code = [] <-> args_code = []).
Proof.
  intros args_code. unfold extract_macro_ref_args.
  destruct args_code as [|c args_code]; [now split|].
  cbn [is_empty].
  destruct (split (replace (strip (c :: args_code)) [LF] []) ",")
    as [|first rest] eqn:E.
  - unfold split in E. now apply split_aux_not_empty in E.
  - split; [now apply collect_args_complete|].
    split; [intros H; now apply collect_args_not_empty in H | discriminate].
Qed.

(** *** Texts without a reference *)

Lemma startswith_length (s p : text) :
  startswith s p = true -> length p <= length s.
Proof.
  revert s. induction p as [|x p IH]; intros s H; [cbn; lia|].
  destruct s as [|y s]; [discriminate H|]. cbn [startswith] in H.
  apply andb_prop in H as [_ H]. apply IH in H. cbn [length]. lia.
Qed.

Lemma find_aux_nowhere (sub s : text) :
  forall p, (0 <= p)%Z -> find_aux sub s p = (-1)%Z ->
  forall n, startswith (skipn n s) sub = false.
Proof.
  induction s as [|a s IH]; intros p Hp E n; cbn [find_aux] in E.
  - destruct (startswith [] sub) eqn:S0; [lia|]. now destruct n.
  - destruct (startswith (a :: s) sub) eqn:S0; [lia|].
    destruct n as [|n]; [exact S0|]. cbn [skipn].
    apply (IH (p + 1)%Z); [lia | exact E].
Qed.

Lemma find_nowhere (code sub : text) :
  find code sub = (-1)%Z -> forall n, startswith (skipn n code) sub = false.
Proof.
  unfold find, find_from, find_in, adjust, adjust_start. intros E n.
  assert (Hn : (0 <= len code)%Z) by (unfold len; lia).
  replace (len code <? 0)%Z with false in E by lia.
  replace (0 <? 0)%Z with false in E by reflexivity.
  rewrite Z.min_id, Z.sub_0_r in E.
  destruct (len code <? len sub)%Z eqn:L.
  - destruct (startswith (skipn n code) sub) eqn:S0; [|reflexivity].
    apply startswith_length in S0. rewrite length_skipn in S0.
    unfold len in L. lia.
  - unfold len in E at 1. rewrite Nat2Z.id, firstn_all in E.
    cbn [Z.to_nat skipn] in E.
    now apply (@find_aux_nowhere sub code 0%Z).
Qed.

Lemma no_reference_here (macro_ident : text) (tail_ptrn : regex)
    (c : cursor) :
  (forall n, startswith (skipn n (c_rest c)) macro_ident = false) ->
  match_here
    (seqs [Alt (Bol true) (Cls (neg is_word)); Grp 1 (Lit macro_ident);
           tail_ptrn]) c false = None.
Proof.
  intros H. unfold match_here. cbn [seqs rmatch].
  pose proof (H 0) as H0. cbn [skipn] in H0. rewrite H0.
  destruct (at_bol true c); destruct (c_rest c) as [|a t] eqn:E;
    try reflexivity;
    destruct (neg is_word a); try reflexivity;
    cbn [c_rest]; pose proof (H 1) as H1; cbn [skipn] in H1;
    now rewrite H1.
Qed.

Lemma no_reference_found (macro_ident : text) (tail_ptrn : regex)
    (rest : text) :
  (forall n, startswith (skipn n rest) macro_ident = false) ->
  forall pos prev,
    search_aux
      (seqs [Alt (Bol true) (Cls (neg is_word)); Grp 1 (Lit macro_ident);
             tail_ptrn]) rest pos prev = None.
Proof.
  induction rest as [|a t IH]; intros H pos prev; cbn [search_aux];
    rewrite no_reference_here by exact H; [reflexivity|].
  apply IH. intros n. exact (H (S n)).
Qed.

Lemma ident_not_found (code macro_ident : text) (with_args : bool) :
  Macro.plain_word macro_ident = true ->
  find code macro_ident = (-1)%Z ->
  get_macro_ident_pos code macro_ident with_args = Some (-1)%Z.
Proof.
  intros Hw Hf. unfold get_macro_ident_pos, Re.search. rewrite Hw.
  rewrite no_reference_found; [reflexivity|]. now apply find_nowhere.
Qed.

Lemma fold_without_references (f : nat) (exp_depth : nat) (exp_code : text)
    (w : world) (table : list (text * Macro.t)) :
  (forall macro_id macro,
      In (macro_id, macro) table ->
      Macro.plain_word macro_id = true
      /\ find exp_code macro_id = (-1)%Z) ->
  foldM
    (fun exp_code (entry : text * Macro.t) =>
       let (macro_id, macro) := entry in
       macro_start_pos <-
         lift (get_macro_ident_pos exp_code macro_id (has_args macro)) ;;
       expand_refs (S f) macro_id macro exp_depth exp_code macro_start_pos)
    table exp_code w
  = Done (exp_code, w).
Proof.
  induction table as [|[macro_id macro] table IH]; intros H; [reflexivity|].
  cbn [foldM]. destruct (H macro_id macro (or_introl eq_refl)) as [Hw Hf].
  rewrite ident_not_found by assumption. cbn [lift].
  unfold bind at 1. unfold bind at 1. cbn [ret expand_refs].
  cbn [Z.leb andb]. unfold ret at 1. apply IH.
  intros i m Hin. apply (H i m). now right.
Qed.

(** X16. A text in which no name of the macro table occurs is left as it is
    by [expand_macros], apart from the line continuations that the
    call at depth 0 removes; nothing is reported and the engine is
    unchanged. *)
Theorem text_without_macro_names_is_kept :
  forall (fuel : nat) (code : text) (w : world),
    (forall macro_id macro,
        In (macro_id, macro) (macros (self w)) ->
        Macro.plain_word macro_id = true
        /\ find (remove_line_escapes code false) macro_id = (-1)%Z) ->
    expand_macros (S (S fuel)) code 0 w
    = Done (remove_line_escapes code false, w).
Proof.
  intros fuel code w H.
  change (expand_macros (S (S fuel)) code 0 w)
    with ((table <- gets (fun w => macros (self w)) ;;
           foldM
             (fun exp_code (entry : text * Macro.t) =>
                let (macro_id, macro) := entry in
                macro_start_pos <-
                  lift (get_macro_ident_pos exp_code macro_id
                          (has_args macro)) ;;
                expand_refs (S fuel) macro_id macro 0 exp_code
                  macro_start_pos)
             table (remove_line_escapes code false)) w).
  unfold bind at 1, gets at 1.
  now apply fold_without_references.
Qed.

Lemma text_without_macro_names_is_kept_witness :
  expand_macros 2 (lit "a + b") 0 Tables.sum_world
  = Done (remove_line_escapes (lit "a + b") false, Tables.sum_world).
Proof.
  apply (text_without_macro_names_is_kept 0 (lit "a + b") Tables.sum_world).
  intros macro_id macro [E|[]]. injection E as <- <-.
  split; reflexivity.
Defined.

End ExpanderFacts.

(** ** What the facade writes to *)

Module FrameFacts.
Import Py Re CodeFormatter Engine Expander PyCpp Frames Frame Run.
Local Open Scope engine_scope.

Lemma preserves_weaken {A : Type} (R1 R2 : world -> world -> Prop)
    (m : M A) :
  (forall w w', R1 w w' -> R2 w w') -> preserves R1 m -> preserves R2 m.
Proof. intros H Hm w a w' E. apply H. eapply Hm, E. Qed.

Lemma same_buffers_refl w : same_buffers w w.
Proof. now split. Qed.

Lemma same_buffers_trans w1 w2 w3 :
  same_buffers w1 w2 -> same_buffers w2 w3 -> same_buffers w1 w3.
Proof. unfold same_buffers. intros [A1 A2] [B1 B2]. split; congruence. Qed.

Lemma same_tables_refl w : same_tables w w.
Proof. now repeat split. Qed.

Lemma same_tables_trans w1 w2 w3 :
  same_tables w1 w2 -> same_tables w2 w3 -> same_tables w1 w3.
Proof.
  unfold same_tables. intros (A1 & A2 & A3) (B1 & B2 & B3).
  repeat split; congruence.
Qed.

Lemma same_tables_buffers w w' : same_tables w w' -> same_buffers w w'.
Proof. intros (_ & A & B). now split. Qed.

Lemma same_engine_tables w w' : same_engine w w' -> same_tables w w'.
Proof. unfold same_engine, same_tables. intros ->. now repeat split. Qed.

Lemma expand_same_tables fuel code exp_depth :
  preserves same_tables (expand_macros fuel code exp_depth).
Proof.
  eapply preserves_weaken; [apply same_engine_tables|].
  apply (proj1 (expand_same_engine fuel)).
Qed.

(** One step through a method that only touches the condition manager
    and the logger. *)
Ltac table_step :=
  first
    [ apply (preserves_ret _ same_tables_refl)
    | apply (preserves_gets _ same_tables_refl)
    | apply (preserves_lift _ same_tables_refl)
    | apply preserves_out_of_fuel
    | apply preserves_abort
    | apply expand_same_tables
    | apply preserves_modify; intro; now repeat split
    | apply (preserves_bind same_tables_trans)
    | apply (preserves_mapM same_tables_refl same_tables_trans)
    | apply (preserves_foldM same_tables_refl same_tables_trans)
    | match goal with
      | |- preserves _ (if ?b then _ else _) => destruct b
      | |- preserves _ (let (_, _) := ?p in _) => destruct p
      | |- preserves _ (match ?x with _ => _ end) => destruct x
      end
    | intro ].

Ltac buffer_step :=
  first
    [ apply (preserves_ret _ same_buffers_refl)
    | apply (preserves_gets _ same_buffers_refl)
    | apply (preserves_lift _ same_buffers_refl)
    | apply preserves_out_of_fuel
    | apply preserves_abort
    | apply preserves_weaken with (R1 := same_tables);
      [apply same_tables_buffers | apply expand_same_tables]
    | apply preserves_modify; intro; now repeat split
    | apply (preserves_bind same_buffers_trans)
    | apply (preserves_mapM same_buffers_refl same_buffers_trans)
    | apply (preserves_foldM same_buffers_refl same_buffers_trans)
    | match goal with
      | |- preserves _ (if ?b then _ else _) => destruct b
      | |- preserves _ (let (_, _) := ?p in _) => destruct p
      | |- preserves _ (match ?x with _ => _ end) => destruct x
      end
    | intro ].

Section WithEnvironment.

Variable py_eval : text -> eval_result.
Variable dedent : text -> text.
Variable read_path : text -> text -> option text.
Variable path_name : text -> text.

Local Abbreviation process_code :=
  (process_code py_eval dedent read_path path_name).
Local Abbreviation process_parts :=
  (process_parts py_eval dedent read_path path_name).
Local Abbreviation process_part :=
  (process_part py_eval dedent read_path path_name).
Local Abbreviation process_directives :=
  (process_directives py_eval dedent read_path path_name).

(** *** The conditional directives *)

Lemma conditional_same_tables (fuel : nat) (code : text) :
  preserves same_tables (process_group (conditional_directives py_eval fuel) code).
Proof.
  unfold conditional_directives.
  cbn [process_group]. unfold directive_process.
  unfold process_if, process_elif, process_else, process_endif,
    process_ifdef, process_ifndef, update_cond, is_true, evaluate,
    eval_input, preproc_eval_expr.
  repeat table_step.
Qed.

(** A group that processes nothing leaves the state as it is. *)
Lemma process_group_nothing
    (ds : list (regex * (text -> mres -> text -> M unit))) (code : text)
    (w w' : world) :
  process_group ds code w = Done (false, w') -> w' = w.
Proof.
  induction ds as [|[re_ptrn handler] ds IH]; cbn [process_group]; intros H.
  - now injection H as <-.
  - unfold bind at 1 in H. unfold directive_process in H.
    destruct (re_match re_ptrn (remove_line_escapes code false)) as [m|].
    + unfold bind at 1 in H.
      destruct (handler (remove_line_escapes code false) m code w)
        as [[u w1]| |]; discriminate H.
    + cbn in H. now apply IH.
Qed.

Lemma inactive_directive (fuel : nat)
    (pc : text -> bool -> bool -> text -> M text) (code : text)
    (w : world) (processed : bool) (w' : world) :
  ConditionManager.branch_active (cond_mngr (self w)) = false ->
  process_directives fuel pc code w = Done (processed, w') ->
  same_tables w w'.
Proof.
  intros Hi H. unfold PyCpp.process_directives in H.
  unfold bind at 1 in H.
  destruct (process_group (conditional_directives py_eval fuel) code w)
    as [[p w1]| |] eqn:E; try discriminate H.
  unfold bind at 1, gets at 1 in H.
  destruct p; cbn [negb andb] in H.
  - injection H as _ <-. now apply conditional_same_tables in E.
  - apply process_group_nothing in E. subst w1. rewrite Hi in H.
    injection H as _ <-. apply same_tables_refl.
Qed.

(** *** Calls that do not write to the global output *)

Section Nested.

Variable pc : text -> bool -> bool -> text -> M text.
Hypothesis Hpc :
  forall code full_local_output proc_file_name,
    preserves same_buffers (pc code false full_local_output proc_file_name).

Lemma process_directives_same_buffers (fuel : nat) (code : text) :
  preserves same_buffers (process_directives fuel pc code).
Proof.
  unfold PyCpp.process_directives.
  apply (preserves_bind same_buffers_trans).
  - apply preserves_weaken with (R1 := same_tables);
      [apply same_tables_buffers | apply conditional_same_tables].
  - intros processed. apply (preserves_bind same_buffers_trans);
      [buffer_step|].
    intros active. destruct (negb processed && active); [|buffer_step].
    unfold standard_directives. cbn [process_group].
    unfold directive_process, process_define, process_undef,
      process_include, process_file_with, read_file.
    repeat first [ apply Hpc | buffer_step ].
Qed.

Lemma process_part_same_buffers (fuel : nat) (lo : PreprocOutput.t)
    (p : PreprocInput.part) :
  preserves same_buffers (process_part fuel pc false lo p).
Proof.
  unfold PyCpp.process_part.
  repeat first [ apply process_directives_same_buffers | buffer_step ].
Qed.

(** With the global output, the segment goes to both buffers. *)
Lemma process_part_feeds_both (fuel : nat) (lo : PreprocOutput.t)
    (p : PreprocInput.part) (w : world) (lo' : PreprocOutput.t)
    (w' : world) :
  process_part fuel pc true lo p w = Done (lo', w') ->
  exists code_part,
    lo' = PreprocOutput.add_code_part code_part (PreprocInput.p_type p) lo
    /\ output (self w')
       = PreprocOutput.add_code_part code_part (PreprocInput.p_type p)
           (output (self w)).
Proof.
  unfold PyCpp.process_part. intros H.
  unfold bind at 1, modify_log at 1, modify at 1 in H.
  unfold bind at 1 in H.
  match type of H with
  | match ?m ?w0 with _ => _ end = _ =>
      assert (P1 : preserves same_buffers m) by (repeat buffer_step);
      destruct (m w0) as [[u w1]| |] eqn:E1; try discriminate H;
      apply P1 in E1
  end.
  unfold bind at 1 in H.
  match type of H with
  | match ?m ?w0 with _ => _ end = _ =>
      assert (P2 : preserves same_buffers m)
        by (repeat first [ apply process_directives_same_buffers
                         | buffer_step ]);
      destruct (m w0) as [[code_part w2]| |] eqn:E2; try discriminate H;
      apply P2 in E2
  end.
  cbn in H. injection H as <- <-. exists code_part.
  split; [reflexivity|]. cbn [self output].
  destruct E1 as [E1 _]. destruct E2 as [E2 _]. cbn [self output] in E1.
  now rewrite E2, E1.
Qed.

Lemma process_parts_feed_both (fuel : nat) (parts : list PreprocInput.part) :
  forall lo w lo' w',
    foldM (process_part fuel pc true) parts lo w = Done (lo', w') ->
    exists segs,
      lo' = feed_from lo segs
      /\ output (self w') = feed_from (output (self w)) segs
      /\ map snd segs = map PreprocInput.p_type parts.
Proof.
  induction parts as [|p parts IH]; intros lo w lo' w' H; cbn [foldM] in H.
  - injection H as <- <-. now exists [].
  - unfold bind at 1 in H.
    destruct (process_part fuel pc true lo p w) as [[lo1 w1]| |] eqn:E;
      try discriminate H.
    apply process_part_feeds_both in E as (code_part & E1 & E2).
    apply IH in H as (segs & H1 & H2 & H3).
    exists ((code_part, PreprocInput.p_type p) :: segs).
    cbn [feed_from fold_left fst snd map].
    unfold feed_from in H1, H2. rewrite <- E1, <- E2.
    repeat split; [exact H1 | exact H2 | now rewrite H3].
Qed.

End Nested.

Lemma process_code_same_buffers (fuel : nat) :
  forall code full_local_output proc_file_name,
    preserves same_buffers
      (process_code fuel code false full_local_output proc_file_name).
Proof.
  induction fuel as [|f IH]; intros code flo name;
    [apply preserves_out_of_fuel|].
  cbn [PyCpp.process_code]. unfold branch_depth_now.
  apply (preserves_bind same_buffers_trans); [buffer_step | intros _].
  apply (preserves_bind same_buffers_trans); [buffer_step | intros orig].
  apply (preserves_bind same_buffers_trans).
  - unfold PyCpp.process_parts.
    apply (preserves_foldM same_buffers_refl same_buffers_trans).
    intros lo p.
    apply process_part_same_buffers
      with (pc := PyCpp.process_code py_eval dedent read_path path_name f).
    exact IH.
  - intros lo. repeat buffer_step.
Qed.

End WithEnvironment.







End FrameFacts.

(** ** Files that are missing or empty *)

Module FileFacts.
Import Py Re CodeFormatter Engine PyCpp Lookup Run.
Local Open Scope engine_scope.

Lemma find_nothing_to_read (read_path : text -> text -> option text)
    (file_path : text) (dirs : list text) :
  (forall dir, In dir dirs ->
     read_path dir file_path = None \/ read_path dir file_path = Some []) ->
  List.find (fun o => is_some o)
    (map (fun dir => read_path dir file_path) dirs)
  = if existsb (fun dir => is_some (read_path dir file_path)) dirs
    then Some (Some []) else None.
Proof.
  induction dirs as [|d dirs IH]; intros H; [reflexivity|].
  cbn [map List.find existsb].
  destruct (H d (or_introl eq_refl)) as [E|E]; rewrite E; cbn [is_some orb].
  - apply IH. intros dir Hd. apply H. now right.
  - reflexivity.
Qed.

(** X20. When every include directory either lacks the file or holds it
    empty, [process_file] returns the empty text without processing
    anything, whatever the step budget: if no directory holds the file
    the WARNING "file not found" is reported and nothing else changes,
    and if one holds it (empty) nothing changes at all. *)
Theorem process_file_with_nothing_to_read :
  forall py_eval dedent read_path path_name (fuel : nat) (file_path : text)
         (global_output full_local_output : bool) (w : world),
    (forall dir,
        In dir (FileIO.incl_dir_paths (file_io (self w))) ->
        read_path dir file_path = None \/ read_path dir file_path = Some []) ->
    PyCpp.process_file py_eval dedent read_path path_name fuel file_path
      global_output full_local_output w
    = Done ([], if found read_path w file_path then w
                else not_found file_path w).
Proof.
  intros py_eval dedent read_path path_name fuel file_path g flo w H.
  unfold PyCpp.process_file, process_file_with, read_file.
  unfold bind at 1. unfold bind at 1, gets at 1.
  rewrite (find_nothing_to_read _ _ _ H). unfold found.
  destruct (existsb _ _); reflexivity.
Qed.

Lemma process_file_with_nothing_to_read_witness :
  PyCpp.process_file Tables.eval_bit Tables.same_text Tables.no_file
    Tables.same_text 0 (lit "a.h") true false init_world
  = Done ([], not_found (lit "a.h") init_world).
Proof.
  apply (@process_file_with_nothing_to_read Tables.eval_bit Tables.same_text
           Tables.no_file Tables.same_text 0 (lit "a.h") true false
           init_world).
  intros dir _. now left.
Defined.

End FileFacts.

(** ** Matches and substitutions *)

Module SpanFacts.
Import Py Re Spans.

Lemma extends_refl (c : cursor) : extends c c.
Proof. exists []. split; [reflexivity | cbn; lia]. Qed.

Lemma extends_trans (c1 c2 c3 : cursor) :
  extends c1 c2 -> extends c2 c3 -> extends c1 c3.
Proof.
  intros (xs & E1 & P1) (ys & E2 & P2). exists (xs ++ ys).
  rewrite E1, E2, P2, P1, length_app, <- app_assoc. split; [reflexivity | lia].
Qed.

Lemma extends_step (pos : nat) (prev : option ascii) (a : ascii) (t : text) :
  extends (Cursor pos prev (a :: t)) (Cursor (S pos) (Some a) t).
Proof. exists [a]. cbn. split; [reflexivity | lia]. Qed.

Lemma advance_extends (n : nat) : forall c, extends c (advance c n).
Proof.
  induction n as [|n IH]; intros [pos prev rest]; cbn [advance c_rest c_pos].
  - apply extends_refl.
  - destruct rest as [|a t]; [apply extends_refl|].
    eapply extends_trans; [apply extends_step | apply IH].
Qed.

(** Where a greedy repetition hands over, and what it has taken. *)
Lemma star_greedy_taken (p : ascii -> bool) (k : kont) (g : groups)
    (res : mres) (rest : text) :
  forall pos prev,
    star_greedy p rest pos prev g k = Some res ->
    exists xs t prev',
      rest = xs ++ t /\ forallb p xs = true
      /\ k (Cursor (pos + length xs) prev' t) g = Some res.
Proof.
  induction rest as [|a t IH]; intros pos prev H; cbn [star_greedy] in H.
  - exists [], [], prev. cbn. now rewrite Nat.add_0_r.
  - destruct (p a) eqn:E.
    + destruct (star_greedy p t (S pos) (Some a) g k) eqn:S1.
      * injection H as ->.
        destruct (IH _ _ S1) as (xs & t' & prev' & -> & Hp & Hk).
        exists (a :: xs), t', prev'. cbn [app forallb length].
        rewrite E, Hp. repeat split.
        now replace (pos + S (length xs)) with (S pos + length xs) by lia.
      * exists [], (a :: t), prev. cbn. now rewrite Nat.add_0_r.
    + exists [], (a :: t), prev. cbn. now rewrite Nat.add_0_r.
Qed.

Lemma star_greedy_extends (p : ascii -> bool) (k : kont) (g : groups)
    (res : mres) (rest : text) (pos : nat) (prev : option ascii) :
  star_greedy p rest pos prev g k = Some res ->
  exists c', extends (Cursor pos prev rest) c' /\ k c' g = Some res.
Proof.
  intros H. apply star_greedy_taken in H as (xs & t & prev' & -> & _ & Hk).
  eexists. split; [|exact Hk]. exists xs. now split.
Qed.

Lemma star_lazy_extends (p : ascii -> bool) (k : kont) (g : groups)
    (res : mres) (rest : text) :
  forall pos prev,
    star_lazy p rest pos prev g k = Some res ->
    exists c', extends (Cursor pos prev rest) c' /\ k c' g = Some res.
Proof.
  induction rest as [|a t IH]; intros pos prev H; cbn [star_lazy] in H.
  - destruct (k (Cursor pos prev []) g) eqn:K; [|discriminate H].
    injection H as ->. eexists. split; [apply extends_refl | exact K].
  - destruct (k (Cursor pos prev (a :: t)) g) eqn:K.
    + injection H as ->. eexists. split; [apply extends_refl | exact K].
    + destruct (p a); [|discriminate H].
      destruct (IH _ _ H) as (c' & Ec & Hk). exists c'.
      split; [|exact Hk].
      eapply extends_trans; [apply extends_step | exact Ec].
Qed.

(** A match goes on from a cursor that is further in the subject. *)
Lemma rmatch_extends (r : regex) :
  forall c g k res,
    rmatch r c g k = Some res ->
    exists c' g', extends c c' /\ k c' g' = Some res.
Proof.
  induction r as [|p|s|r1 IH1 r2 IH2|r1 IH1 r2 IH2|p|p|m|m|n r IH];
    intros c g k res H; cbn [rmatch] in H.
  - exists c, g. split; [apply extends_refl | exact H].
  - destruct c as [pos prev rest]. cbn [c_rest c_pos] in H.
    destruct rest as [|a t]; [discriminate H|].
    destruct (p a); [|discriminate H].
    eexists. exists g. split; [apply extends_step | exact H].
  - destruct (startswith (c_rest c) s); [|discriminate H].
    eexists. exists g. split; [apply advance_extends | exact H].
  - apply IH1 in H as (c1 & g1 & E1 & H).
    apply IH2 in H as (c2 & g2 & E2 & H).
    exists c2, g2. split; [eapply extends_trans; eassumption | exact H].
  - destruct (rmatch r1 c g k) eqn:M1.
    + injection H as ->. now apply IH1 in M1.
    + now apply IH2 in H.
  - destruct c as [pos prev rest]. cbn [c_rest c_pos c_prev] in H.
    apply star_greedy_extends in H as (c' & E & H). now exists c', g.
  - destruct c as [pos prev rest]. cbn [c_rest c_pos c_prev] in H.
    apply star_lazy_extends in H as (c' & E & H). now exists c', g.
  - destruct (at_bol m c); [|discriminate H].
    exists c, g. split; [apply extends_refl | exact H].
  - destruct (at_eol m c); [|discriminate H].
    exists c, g. split; [apply extends_refl | exact H].
  - apply IH in H as (c' & g' & E & H). eexists. eexists.
    split; [exact E | exact H].
Qed.

(** A match starts at the cursor and ends in the subject, after the
    cursor if it must advance. *)
Lemma match_here_span (r : regex) (c : cursor) (must_advance : bool)
    (m : mres) :
  match_here r c must_advance = Some m ->
  m_start m = c_pos c
  /\ (exists xs t, c_rest c = xs ++ t /\ m_end m = c_pos c + length xs)
  /\ (must_advance = true -> m_end m <> c_pos c).
Proof.
  unfold match_here. intros H.
  apply rmatch_extends in H as (c' & g' & (xs & E & P) & H).
  destruct (must_advance && (c_pos c' =? c_pos c)) eqn:A; [discriminate H|].
  injection H as <-. cbn [m_start m_end]. split; [reflexivity|]. split.
  - now exists xs, (c_rest c').
  - intros ->. cbn [andb] in A. now apply Nat.eqb_neq in A.
Qed.

(** *** What a substitution keeps *)

Section Related.

(** A relation between a text and what replaces it, that goes through
    concatenation. *)
Variable R : text -> text -> Prop.
Hypothesis R_nil : R [] [].
Hypothesis R_one : forall a, R [a] [a].
Hypothesis R_app : forall x y x' y', R x y -> R x' y' -> R (x ++ x') (y ++ y').

(** What is known of the places where a match is tried. *)
Variable known : nat -> text -> Prop.
Hypothesis known_next : forall pos a t, known pos (a :: t) -> known (S pos) t.

Variable r : regex.
Variable repl : mres -> text.

Hypothesis R_repl :
  forall pos prev rest must_advance m,
    known pos rest ->
    match_here r (Cursor pos prev rest) must_advance = Some m ->
    R (firstn (m_end m - pos) rest) (repl m).

Lemma split_at (n : nat) (a : ascii) (t : text) :
  1 <= n -> a :: t = firstn n (a :: t) ++ skipn (n - 1) t.
Proof.
  intros H. destruct n as [|n]; [lia|].
  cbn [firstn]. replace (S n - 1) with n by lia.
  cbn [app]. now rewrite firstn_skipn.
Qed.

Lemma sub_aux_related (rest : text) :
  forall pos prev skip,
    known pos rest ->
    R (skipn skip rest) (sub_aux r repl rest pos prev skip).
Proof.
  induction rest as [|a t IH]; intros pos prev skip K.
  - destruct skip as [|k]; cbn [sub_aux skipn]; [|exact R_nil].
    destruct (match_here r (Cursor pos prev []) false) as [m|] eqn:M;
      [|exact R_nil].
    pose proof (R_repl _ _ K M) as Rm. rewrite firstn_nil in Rm.
    destruct (m_end m =? pos).
    + destruct (match_here r (Cursor pos prev []) true) as [m'|] eqn:M'.
      * pose proof (R_repl _ _ K M') as Rm'. rewrite firstn_nil in Rm'.
        rewrite app_nil_r. apply (R_app Rm Rm').
      * now rewrite app_nil_r.
    + now rewrite app_nil_r.
  - destruct skip as [|k]; cbn [sub_aux skipn];
      [|apply IH; now apply known_next with (a := a)].
    pose proof (known_next K) as K'.
    assert (Keep : R (a :: t) (a :: sub_aux r repl t (S pos) (Some a) 0)).
    { apply (@R_app [a] [a]); [apply R_one|].
      apply (IH (S pos) (Some a) 0 K'). }
    assert (Skip : forall must_advance m,
               match_here r (Cursor pos prev (a :: t)) must_advance = Some m ->
               m_end m <> pos ->
               R (a :: t)
                 (repl m
                  ++ sub_aux r repl t (S pos) (Some a) (m_end m - pos - 1))).
    { intros b m M Hne.
      destruct (match_here_span _ _ _ M) as (_ & (xs & t' & _ & E) & _).
      cbn [c_pos] in E.
      rewrite (@split_at (m_end m - pos) a t) at 1 by lia.
      apply R_app; [now apply (R_repl prev b)|].
      apply IH, K'. }
    destruct (match_here r (Cursor pos prev (a :: t)) false) as [m|] eqn:M;
      [|exact Keep].
    destruct (m_end m =? pos) eqn:E.
    + apply Nat.eqb_eq in E.
      pose proof (R_repl _ _ K M) as Rm. rewrite E, Nat.sub_diag in Rm.
      cbn [firstn] in Rm.
      apply (@R_app [] (repl m) (a :: t) _ Rm).
      destruct (match_here r (Cursor pos prev (a :: t)) true) as [m'|] eqn:M';
        [|exact Keep].
      apply (Skip true m' M').
      now apply (match_here_span _ _ _ M').
    + apply Nat.eqb_neq in E. now apply (Skip false m M).
Qed.

End Related.

End SpanFacts.

(** ** Comments *)

Module CommentFacts.
Import Py Re CodeFormatter Spans Absent SpanFacts MacroFacts InputFacts.

(** *** Replaced with spaces *)

Lemma blanked_trans (a b c : ascii) :
  blanked a b -> blanked b c -> blanked a c.
Proof.
  unfold blanked. intros [->|[-> Ha]] [->|[-> Hb]]; auto.
Qed.

Lemma Forall2_blanked_trans (x y z : text) :
  Forall2 blanked x y -> Forall2 blanked y z -> Forall2 blanked x z.
Proof.
  intros H. revert z. induction H as [|a b x y Hab Hxy IH]; intros z Hz.
  - inversion Hz. constructor.
  - inversion Hz as [|b' c y' z' Hbc Hyz]; subst. constructor.
    + eapply blanked_trans; eassumption.
    + now apply IH.
Qed.

Lemma Forall2_blanked_refl (x : text) : Forall2 blanked x x.
Proof. induction x; constructor; [now left | assumption]. Qed.

Lemma blanked_spaces (xs : text) :
  forallb not_newline xs = true -> Forall2 blanked xs (spaces (length xs)).
Proof.
  induction xs as [|c xs IH]; intros H; [constructor|].
  cbn [forallb] in H. apply andb_prop in H as [Hc Hxs].
  cbn [length]. constructor; [|now apply IH].
  right. split; [reflexivity|]. unfold not_newline in Hc.
  now apply negb_true_iff in Hc.
Qed.

(** A run of characters that are not newlines becomes as many spaces. *)
Lemma run_becomes_spaces (pos : nat) (prev : option ascii) (rest : text)
    (must_advance : bool) (m : mres) :
  match_here (Plus not_newline) (Cursor pos prev rest) must_advance = Some m ->
  Forall2 blanked (firstn (m_end m - pos) rest)
    (spaces (m_end m - m_start m)).
Proof.
  unfold match_here, Plus. cbn [rmatch c_rest c_pos c_prev]. intros H.
  destruct rest as [|a t]; [discriminate H|].
  destruct (not_newline a) eqn:Ea; [|discriminate H].
  apply star_greedy_taken in H as (xs & t' & prev' & -> & Hxs & H).
  cbn [c_pos] in H.
  destruct (must_advance && (S pos + length xs =? pos)); [discriminate H|].
  injection H as <-. cbn [m_start m_end].
  replace (S (pos + length xs) - pos) with (length (a :: xs) + 0)
    by (cbn [length]; lia).
  change (a :: xs ++ t') with ((a :: xs) ++ t').
  rewrite firstn_app_2. cbn [firstn]. rewrite app_nil_r, Nat.add_0_r.
  apply blanked_spaces. cbn [forallb]. now rewrite Ea, Hxs.
Qed.

Lemma chunk_becomes_spaces (chunk : text) :
  Forall2 blanked chunk
    (Re.sub (Plus not_newline) (fun m' => spaces (m_end m' - m_start m'))
       chunk).
Proof.
  unfold Re.sub.
  apply (@sub_aux_related (Forall2 blanked)) with (known := fun _ _ => True)
                                                  (skip := 0);
    try exact I.
  - constructor.
  - intros a. apply Forall2_blanked_refl.
  - intros x y x' y'. apply Forall2_app.
  - trivial.
  - intros pos prev rest b m _. apply run_becomes_spaces.
Qed.

Lemma skipn_next (s : text) (pos : nat) (a : ascii) (t : text) :
  a :: t = skipn pos s -> t = skipn (S pos) s.
Proof.
  revert s. induction pos as [|pos IH]; intros s H.
  - cbn in H. now subst s.
  - destruct s as [|c s]; [discriminate H|]. cbn [skipn] in *. now apply IH.
Qed.

(** Whatever the pattern, replacing its matches with spaces keeps the
    place of every character. *)
Lemma spaces_keep_places (r : regex) (s : text) :
  Forall2 blanked s (Re.sub r (repl_with_spaces s) s).
Proof.
  unfold Re.sub.
  apply (@sub_aux_related (Forall2 blanked))
    with (known := fun pos rest => rest = skipn pos s) (skip := 0);
    try reflexivity.
  - constructor.
  - intros a. apply Forall2_blanked_refl.
  - intros x y x' y'. apply Forall2_app.
  - intros pos a t. apply skipn_next.
  - intros pos prev rest b m -> M.
    destruct (match_here_span _ _ _ M) as (Es & _ & _). cbn [c_pos] in Es.
    unfold repl_with_spaces, whole, span_text. cbn [fst snd].
    rewrite Es. apply chunk_becomes_spaces.
Qed.

(** X21. With [replace_with_spaces], [remove_comments] keeps the place of
    every character: the text it returns has the length of its
    argument, and holds at every index the character of the argument or,
    where that is not a newline, a space. *)
Theorem comments_replaced_with_spaces_keep_places :
  forall (code : text) (replace_with_newlines : bool),
    Forall2 blanked code (remove_comments code true replace_with_newlines)
    /\ length (remove_comments code true replace_with_newlines)
       = length code.
Proof.
  intros code b.
  assert (H : Forall2 blanked code (remove_comments code true b)).
  { unfold remove_comments.
    eapply Forall2_blanked_trans; apply spaces_keep_places. }
  split; [exact H|]. symmetry. exact (Forall2_length H).
Qed.

(** *** Replaced with newlines *)

Lemma count_newlines_app (x y : text) :
  count_aux [LF] (x ++ y) 0
  = (count_aux [LF] x 0 + count_aux [LF] y 0)%Z.
Proof.
  induction x as [|c x IH]; [reflexivity|].
  cbn [app count_aux startswith length Nat.sub].
  rewrite !startswith_nil, IH. destruct (ch_eqb LF c); cbn [andb]; lia.
Qed.

Lemma newlines_app (x y : text) :
  newlines (x ++ y) = (newlines x + newlines y)%Z.
Proof. apply count_newlines_app. Qed.

Lemma newlines_nonneg (x : text) : (0 <= newlines x)%Z.
Proof.
  unfold newlines, count. induction x as [|c x IH]; [reflexivity|].
  cbn [count_aux startswith length Nat.sub]. rewrite startswith_nil.
  destruct (ch_eqb LF c); cbn [andb]; lia.
Qed.

Lemma newlines_repeat (n : nat) : newlines (repeat LF n) = Z.of_nat n.
Proof.
  unfold newlines, count. induction n as [|n IH]; [reflexivity|].
  cbn [repeat count_aux startswith length Nat.sub].
  rewrite startswith_nil. unfold ch_eqb at 1. rewrite Ascii.eqb_refl.
  cbn [andb]. rewrite IH. lia.
Qed.

(** Whatever the pattern, replacing its matches with their newlines
    keeps the number of newlines. *)
Lemma newlines_are_kept (r : regex) (s : text) :
  newlines s = newlines (Re.sub r (repl_with_newlines s) s).
Proof.
  unfold Re.sub.
  apply (@sub_aux_related (fun x y => newlines x = newlines y))
    with (known := fun pos rest => rest = skipn pos s) (skip := 0);
    try reflexivity.
  - intros x y x' y' H H'. now rewrite !newlines_app, H, H'.
  - intros pos a t. apply skipn_next.
  - intros pos prev rest b m -> M.
    destruct (match_here_span _ _ _ M) as (Es & _ & _). cbn [c_pos] in Es.
    unfold repl_with_newlines, whole, span_text. cbn [fst snd].
    rewrite Es, newlines_repeat.
    fold (newlines (firstn (m_end m - pos) (skipn pos s))).
    rewrite Z2Nat.id; [reflexivity | apply newlines_nonneg].
Qed.

(** X22. With [replace_with_newlines] (and not [replace_with_spaces]),
    [remove_comments] keeps the number of newlines: the lines after a
    comment keep their line numbers. *)
Theorem comments_replaced_with_newlines_keep_line_numbers :
  forall (code : text),
    count (remove_comments code false true) [LF] = count code [LF].
Proof.
  intros code. unfold remove_comments.
  fold (newlines code).
  rewrite (newlines_are_kept RE_PTRN_MLINE_CMNT code).
  now rewrite (newlines_are_kept RE_PTRN_SLINE_CMNT
                 (Re.sub RE_PTRN_MLINE_CMNT (repl_with_newlines code) code)).
Qed.

(** *** Texts without a slash *)

Lemma mline_needs_slash (c : cursor) :
  lacks "/" (c_rest c) -> match_here RE_PTRN_MLINE_CMNT c false = None.
Proof.
  intros H. unfold match_here, RE_PTRN_MLINE_CMNT. cbn [seqs rmatch].
  change (lit "/*") with ("/"%char :: lit "*").
  now rewrite startswith_lacks.
Qed.

Lemma sline_needs_slash (c : cursor) :
  lacks "/" (c_rest c) -> match_here RE_PTRN_SLINE_CMNT c false = None.
Proof.
  intros H. unfold match_here, RE_PTRN_SLINE_CMNT. cbn [seqs rmatch].
  apply star_greedy_lacks with (x := "/"%char); [|exact H].
  intros c' H'. cbn [rmatch].
  change (lit "//") with ("/"%char :: lit "/").
  now rewrite startswith_lacks.
Qed.

(** X23. A text without a slash holds no comment: [remove_comments] returns
    it unchanged in every mode. *)
Theorem text_without_slash_has_no_comment :
  forall (code : text) (replace_with_spaces replace_with_newlines : bool),
    lacks "/" code ->
    remove_comments code replace_with_spaces replace_with_newlines = code.
Proof.
  intros code a b H. unfold remove_comments, Re.sub.
  destruct a; [|destruct b; [|reflexivity]];
    rewrite (@sub_lacks "/"%char RE_PTRN_MLINE_CMNT) by
      (try apply mline_needs_slash; exact H);
    now rewrite (@sub_lacks "/"%char RE_PTRN_SLINE_CMNT) by
      (try apply sline_needs_slash; exact H).
Qed.

Lemma text_without_slash_has_no_comment_witness :
  lacks "/" (lit "a * b")
  /\ remove_comments (lit "a * b") true false = lit "a * b".
Proof.
  assert (H : lacks "/" (lit "a * b")) by (repeat constructor).
  split; [exact H|].
  exact (@text_without_slash_has_no_comment (lit "a * b") true false H).
Defined.

End CommentFacts.

(** ** Texts with nothing to preprocess *)

Module PlainFacts.
Import Py Re CodeFormatter Engine Expander PyCpp PreprocInput Lines Absent
  Continuation TabStops Frames TextFacts LineFacts InputFacts TabFacts
  MacroFacts Run.
Local Open Scope engine_scope.

(** *** The characters of the segments *)

Lemma lacks_iff (x : ascii) (s : text) : lacks x s <-> ~ In x s.
Proof.
  unfold lacks. rewrite Forall_forall. split.
  - intros H Hin. specialize (H x Hin). unfold ch_eqb in H.
    now rewrite Ascii.eqb_refl in H.
  - intros H c Hc. destruct (ch_eqb c x) eqn:E; [|reflexivity].
    apply Ascii.eqb_eq in E. now subst c.
Qed.

Lemma rstrip_incl (s : text) (c : ascii) : In c (rstrip s) -> In c s.
Proof.
  unfold rstrip. intros H. apply in_rev in H. apply lstrip_incl in H.
  now apply in_rev.
Qed.

Lemma strip_incl (s : text) (c : ascii) : In c (strip s) -> In c s.
Proof. unfold strip. intros H. now apply lstrip_incl, rstrip_incl. Qed.

Lemma splitlines_aux_incl (n : nat) :
  forall s cur l c,
    length s <= n -> In l (splitlines_aux cur s) -> In c l ->
    In c cur \/ In c s.
Proof.
  assert (Hrev : forall (cur l : text) (c : ascii),
             In l [rev cur] -> In c l -> In c cur).
  { intros cur l c [<-|[]] Hc. now apply in_rev. }
  induction n as [|n IH]; intros s cur l c Hlen Hl Hc.
  - destruct s; [|cbn in Hlen; lia]. cbn in Hl.
    destruct cur; [easy|]. left. eapply Hrev; eassumption.
  - destruct s as [|a s]; cbn [splitlines_aux] in Hl.
    + destruct cur; [easy|]. left. eapply Hrev; eassumption.
    + cbn in Hlen.
      assert (Next : forall s', length s' <= n -> (forall x, In x s' -> In x s) ->
                 In l (rev cur :: splitlines_aux [] s') ->
                 In c cur \/ In c (a :: s)).
      { intros s' Hs' Hsub [<-|Hin].
        - left. now apply in_rev.
        - destruct (IH s' [] l c Hs' Hin Hc) as [[]|H].
          right. right. now apply Hsub. }
      destruct (ch_eqb a CR).
      * destruct s as [|d s'].
        -- apply (Next []); [cbn; lia | easy | exact Hl].
        -- cbn in Hlen. destruct (ch_eqb d LF).
           ++ apply (Next s'); [lia | intros x Hx; now right | exact Hl].
           ++ apply (Next (d :: s')); [cbn; lia | easy | exact Hl].
      * destruct (is_linebreak a).
        -- apply (Next s); [lia | easy | exact Hl].
        -- destruct (IH s (a :: cur) l c ltac:(lia) Hl Hc) as [[<-|H]|H].
           ++ right. now left.
           ++ now left.
           ++ right. now right.
Qed.

Lemma splitlines_incl (s l : text) (c : ascii) :
  In l (splitlines s) -> In c l -> In c s.
Proof.
  intros Hl Hc.
  destruct (@splitlines_aux_incl (length s) s [] l c (le_n _) Hl Hc)
    as [[]|H]; exact H.
Qed.

Lemma terminated_incl (ls : list text) (c : ascii) :
  In c (terminated ls) -> c = LF \/ exists l, In l ls /\ In c l.
Proof.
  unfold terminated. intros H. apply in_concat in H as (x & Hx & Hc).
  apply in_map_iff in Hx as (l & <- & Hl).
  apply in_app_or in Hc as [Hc|[<-|[]]]; [right | now left].
  now exists l.
Qed.

Lemma in_terminated (ls : list text) (l : text) (c : ascii) :
  In l ls -> In c l -> In c (terminated ls).
Proof.
  unfold terminated. intros Hl Hc. apply in_concat.
  exists (l ++ [LF]). split; [|apply in_or_app; now left].
  apply in_map_iff. now exists l.
Qed.

Lemma expand_tabs_incl (tab_size : Z) (l : text) (c : ascii) :
  forall col, In c (expand_tabs tab_size col l) -> c = SP \/ In c l.
Proof.
  induction l as [|a l IH]; intros col H; [easy|]. cbn [expand_tabs] in H.
  destruct (ch_eqb a TAB).
  - apply in_app_or in H as [H|H].
    + left. unfold spaces in H. now apply repeat_spec in H.
    + destruct (IH _ H) as [E|E]; [now left | right; now right].
  - destruct H as [<-|H]; [right; now left|].
    destruct (IH _ H) as [E|E]; [now left | right; now right].
Qed.

(** A character other than the space and the newline occurs in a
    segment only if it occurs in the text. *)
Lemma segment_incl (code : text) (p : part) (c : ascii) :
  In p (yield_code_parts (replace_tabs code 4)) -> In c (p_code p) ->
  c = LF \/ c = SP \/ In c code.
Proof.
  intros Hp Hc.
  assert (H : In c (terminated (map p_code
                       (yield_code_parts (replace_tabs code 4))))).
  { apply in_terminated with (l := p_code p); [|exact Hc].
    apply in_map_iff. now exists p. }
  unfold yield_code_parts in H. rewrite yield_loop_lines in H by apply le_n.
  apply terminated_incl in H as [H|(l & Hl & Hcl)]; [now left|].
  apply in_map_iff in Hl as (l0 & <- & Hl0). apply rstrip_incl in Hcl.
  pose proof (splitlines_incl _ _ _ Hl0 Hcl) as H.
  rewrite replace_tabs_lines in H.
  apply terminated_incl in H as [H|(l1 & Hl1 & Hc1)]; [now left|].
  apply in_map_iff in Hl1 as (l2 & <- & Hl2).
  apply expand_tabs_incl in Hc1 as [E|E]; [right; now left|].
  right. right. eapply splitlines_incl; eassumption.
Qed.

Lemma segment_lacks (x : ascii) (code : text) (p : part) :
  x <> LF -> x <> SP -> lacks x code ->
  In p (yield_code_parts (replace_tabs code 4)) -> lacks x (p_code p).
Proof.
  intros H1 H2 H Hp. apply lacks_iff. intros Hin.
  apply lacks_iff in H.
  destruct (segment_incl _ _ _ Hp Hin) as [E|[E|E]]; congruence.
Qed.

(** *** The kind of a segment *)

Lemma yield_loop_kinds (fuel : nat) :
  forall in_lines line_idx p,
    In p (yield_loop fuel in_lines line_idx) ->
    p_type p = classify (p_code p).
Proof.
  induction fuel as [|f IH]; intros in_lines line_idx p H; [easy|].
  destruct in_lines as [|l rest]; [easy|]. cbn [yield_loop] in H.
  destruct (endswith (rstrip l) [BSLASH]).
  - destruct (take_continued rest) as [more rest'].
    destruct H as [<-|H]; [reflexivity | eapply IH, H].
  - destruct (contains (rstrip l) (lit "/*")
              && negb (contains (rstrip l) (lit "*/"))).
    + destruct (take_comment rest) as [[more rest'] u].
      destruct H as [<-|H]; [reflexivity | eapply IH, H].
    + destruct (is_empty (rstrip l)).
      * destruct (take_blank rest) as [more rest'].
        destruct H as [<-|H]; [reflexivity | eapply IH, H].
      * destruct H as [<-|H]; [reflexivity | eapply IH, H].
Qed.

Lemma no_hash_no_directive (s : text) :
  lacks "#" s -> classify s <> DIRECTIVE.
Proof.
  intros H. unfold classify.
  assert (Hs : lacks "#" (strip s)).
  { apply lacks_iff. intros Hin. apply strip_incl in Hin.
    now apply lacks_iff in H. }
  change (lit "#") with ["#"%char]. rewrite (startswith_lacks _ Hs).
  destruct (is_empty (strip s)); [discriminate|].
  destruct (_ || _); discriminate.
Qed.

(** *** The run *)

Section WithEnvironment.

Variable py_eval : text -> eval_result.
Variable dedent : text -> text.
Variable read_path : text -> text -> option text.
Variable path_name : text -> text.

Local Abbreviation process_code :=
  (process_code py_eval dedent read_path path_name).
Local Abbreviation process_part :=
  (process_part py_eval dedent read_path path_name).

Lemma expand_empty_table (f : nat) (code : text) (w : world) :
  macros (self w) = [] ->
  expand_macros (S f) code 0 w = Done (remove_line_escapes code false, w).
Proof.
  intros H. rewrite Divergence.expand_macros_S.
  cbn [Nat.eqb Nat.ltb Nat.leb]. unfold bind, gets. now rewrite H.
Qed.

Lemma plain_part_run (f : nat)
    (pc : text -> bool -> bool -> text -> M text) (global_output : bool)
    (lo : PreprocOutput.t) (p : part) (w : world) :
  p_type p <> DIRECTIVE -> no_backslash (p_code p) ->
  macros (self w) = [] ->
  exists w',
    process_part (S f) pc global_output lo p w
    = Done (PreprocOutput.add_code_part (p_code p) (p_type p) lo, w')
    /\ macros (self w') = []
    /\ cond_mngr (self w') = cond_mngr (self w).
Proof.
  intros Hd Hb Hm. destruct p as [line u ty code].
  cbn [p_type p_code] in *.
  assert (Hx : forall l, expand_macros (S f) code 0 (World (self w) l)
                         = Done (code, World (self w) l)).
  { intros l. rewrite expand_empty_table by exact Hm.
    now rewrite regex_version_plain. }
  unfold PyCpp.process_part.
  cbn [p_line p_unterminated p_type p_code].
  destruct (ConditionManager.branch_active (cond_mngr (self w))) eqn:A;
    destruct u, ty, global_output; try congruence;
    unfold bind, log_err, set_output; unfold modify_log;
    unfold modify, gets, ret;
    cbn [self log cond_mngr macros output file_io];
    rewrite ?A, ?Hx;
    eexists; (split; [reflexivity|]); (split; [exact Hm | reflexivity]).
Qed.

Lemma plain_parts_run (f : nat)
    (pc : text -> bool -> bool -> text -> M text) (global_output : bool)
    (parts : list part) :
  forall lo w,
    (forall p, In p parts ->
               p_type p <> DIRECTIVE /\ no_backslash (p_code p)) ->
    macros (self w) = [] ->
    exists w',
      foldM (process_part (S f) pc global_output) parts lo w
      = Done (feed_from lo (map (fun p => (p_code p, p_type p)) parts), w')
      /\ macros (self w') = []
      /\ cond_mngr (self w') = cond_mngr (self w).
Proof.
  induction parts as [|p parts IH]; intros lo w H Hm; cbn [foldM].
  - exists w. now repeat split.
  - destruct (H p (or_introl eq_refl)) as [Hd Hb].
    destruct (@plain_part_run f pc global_output lo p w Hd Hb Hm)
      as (w1 & E1 & M1 & C1).
    destruct (IH (PreprocOutput.add_code_part (p_code p) (p_type p) lo) w1)
      as (w2 & E2 & M2 & C2); [intros q Hq; apply H; now right | exact M1|].
    exists w2. erewrite bind_done by exact E1. split; [exact E2|].
    split; [exact M2 | congruence].
Qed.

Lemma code_all_feed (segs : list (text * CodeType)) :
  forall o,
    PreprocOutput.code_all (feed_from o segs)
    = PreprocOutput.code_all o ++ terminated (map fst segs).
Proof.
  unfold feed_from, terminated.
  induction segs as [|[t ty] segs IH]; intros o; cbn [fold_left map concat].
  - now rewrite app_nil_r.
  - rewrite IH. cbn [fst snd].
    replace (PreprocOutput.code_all (PreprocOutput.add_code_part t ty o))
      with (PreprocOutput.code_all o ++ t ++ [LF]) by now destruct ty.
    now rewrite <- !app_assoc.
Qed.

Lemma plain_text_run (fuel : nat) (code : text) (global_output : bool)
    (proc_file_name : text) (w : world) :
  lacks "#" code -> no_backslash code -> macros (self w) = [] ->
  exists w',
    process_code (S (S fuel)) code global_output true proc_file_name w
    = Done (terminated (map rstrip (splitlines (replace_tabs code 4))), w')
    /\ macros (self w') = []
    /\ cond_mngr (self w') = cond_mngr (self w).
Proof.
  intros Hh Hb Hm. rewrite ReportFacts.process_code_by_loop.
  unfold PyCpp.process_parts.
  destruct (@plain_parts_run fuel (process_code (S fuel)) global_output
              (yield_code_parts (replace_tabs code 4)) PreprocOutput.init
              (Reports.at_entry proc_file_name w))
    as (w1 & E & M1 & C1).
  - intros p Hp. split.
    + unfold yield_code_parts in Hp.
      rewrite (yield_loop_kinds _ _ _ _ Hp). apply no_hash_no_directive.
      apply (@segment_lacks "#"%char code p); [discriminate.. | exact Hh|].
      exact Hp.
    + apply (@segment_lacks BSLASH code p); [discriminate.. | exact Hb|].
      exact Hp.
  - exact Hm.
  - rewrite E. eexists. split; [|split].
    + rewrite code_all_feed, map_map. cbn [fst PreprocOutput.code_all
        PreprocOutput.init app].
      unfold yield_code_parts. now rewrite yield_loop_lines by apply le_n.
    + exact M1.
    + unfold Reports.at_exit. cbn [self]. exact C1.
Qed.

End WithEnvironment.

(** X24. A text without "#" and without a backslash, processed by an engine
    whose macro table is empty, comes out whole in the full output: its
    lines with the tabs expanded (tab size 4) and the trailing white
    space stripped, each followed by a newline.  The macro table stays
    empty and the condition manager is unchanged. *)
Theorem plain_text_passes_through :
  forall py_eval dedent read_path path_name (fuel : nat) (code : text)
         (global_output : bool) (proc_file_name : text) (w : world),
    lacks "#" code -> lacks BSLASH code -> macros (self w) = [] ->
    exists w',
      PyCpp.process_code py_eval dedent read_path path_name (S (S fuel)) code
        global_output true proc_file_name w
      = Done (terminated
                (map (fun l => rstrip (expand_tabs 4 0 l)) (splitlines code)),
              w')
      /\ macros (self w') = []
      /\ cond_mngr (self w') = cond_mngr (self w).
Proof.
  intros py_eval dedent read_path path_name fuel code g name w Hh Hb Hm.
  destruct (@plain_text_run py_eval dedent read_path path_name fuel code g
              name w Hh Hb Hm) as (w' & E & M & C).
  exists w'. split; [|now split]. rewrite E. f_equal. f_equal.
  assert (S : splitlines (replace_tabs code 4)
              = map (expand_tabs 4 0) (splitlines code)).
  { rewrite replace_tabs_lines.
    rewrite <- (app_nil_r (terminated (map (expand_tabs 4 0)
                                         (splitlines code)))).
    rewrite splitlines_terminated; [|clear|reflexivity].
    - cbn [last_as_lines]. now rewrite app_nil_r.
    - rewrite forallb_forall. intros l Hl.
      apply in_map_iff in Hl as (l0 & <- & Hl0).
      apply expand_tabs_no_break.
      pose proof (splitlines_no_break code) as N.
      rewrite forallb_forall in N. now apply N. }
  now rewrite S, map_map.
Qed.

Lemma plain_text_passes_through_witness :
  exists w',
    PyCpp.process_code Tables.eval_bit Tables.same_text Tables.no_file
      Tables.same_text 2 (lit "a b") true true [] init_world
    = Done (terminated
              (map (fun l => rstrip (expand_tabs 4 0 l))
                 (splitlines (lit "a b"))),
            w')
    /\ macros (self w') = []
    /\ cond_mngr (self w') = cond_mngr (self init_world).
Proof.
  apply (@plain_text_passes_through Tables.eval_bit Tables.same_text
           Tables.no_file Tables.same_text 0 (lit "a b") true []
           init_world);
    [repeat constructor | repeat constructor | reflexivity].
Defined.

End PlainFacts.

(** ** Where a macro identifier is found *)

Module IdentFacts.
Import Py Re Expander Spans Places SpanFacts CommentFacts InputFacts.

Lemma skipn_head (code : text) (pos : nat) (a : ascii) (t : text) :
  a :: t = skipn pos code -> nth_error code pos = Some a.
Proof.
  revert code. induction pos as [|pos IH]; intros code H.
  - cbn in H. now subst code.
  - destruct code as [|c code]; [discriminate H|]. cbn [skipn] in H.
    cbn [nth_error]. now apply IH.
Qed.

Lemma skipn_none (code : text) (pos : nat) :
  [] = skipn pos code -> nth_error code pos = None.
Proof.
  revert code. induction pos as [|pos IH]; intros code H.
  - cbn in H. now subst code.
  - destruct code as [|c code]; [reflexivity|]. cbn [skipn] in H.
    cbn [nth_error]. now apply IH.
Qed.

Lemma placed_start (code : text) : placed code (start_cursor code).
Proof. now split. Qed.

Lemma placed_step (code : text) (pos : nat) (prev : option ascii)
    (a : ascii) (t : text) :
  placed code (Cursor pos prev (a :: t)) ->
  placed code (Cursor (S pos) (Some a) t).
Proof.
  intros [Hr _]. cbn [c_rest c_pos c_prev] in *. split.
  - now apply skipn_next with (a := a).
  - symmetry. now apply skipn_head with (t := t).
Qed.

Lemma search_aux_placed (r : regex) (code : text) (m : mres) (rest : text) :
  forall pos prev,
    placed code (Cursor pos prev rest) ->
    search_aux r rest pos prev = Some m ->
    exists c, placed code c /\ match_here r c false = Some m.
Proof.
  induction rest as [|a t IH]; intros pos prev P H; cbn [search_aux] in H.
  - destruct (match_here r (Cursor pos prev []) false) eqn:M;
      [|discriminate H].
    injection H as ->. now exists (Cursor pos prev []).
  - destruct (match_here r (Cursor pos prev (a :: t)) false) eqn:M.
    + injection H as ->. now exists (Cursor pos prev (a :: t)).
    + apply (IH (S pos) (Some a)); [|exact H]. now apply placed_step in P.
Qed.

Lemma advance_over (s : text) :
  forall pos prev rest,
    startswith rest s = true ->
    exists prev',
      advance (Cursor pos prev rest) (length s)
      = Cursor (pos + length s) prev' (skipn (length s) rest).
Proof.
  induction s as [|x s IH]; intros pos prev rest H.
  - exists prev. cbn. now rewrite Nat.add_0_r.
  - destruct rest as [|a t]; [discriminate H|]. cbn [startswith] in H.
    apply andb_prop in H as [_ H].
    destruct (IH (S pos) (Some a) t H) as (prev' & E).
    exists prev'. cbn [length advance c_rest c_pos skipn]. rewrite E.
    f_equal. lia.
Qed.

Lemma tail_sound (with_args : bool) (c : cursor) (g : groups) (start : nat)
    (m : mres) :
  rmatch (if with_args then Seq (Star is_space) (Lit (lit "("))
          else Alt (Eol true) (Cls (neg is_word)))
    c g (fun c' g' => Some (MRes start (c_pos c') g')) = Some m ->
  m_groups m = g /\ after_ident with_args (c_rest c).
Proof.
  destruct c as [pos prev rest]. destruct with_args; cbn [rmatch c_rest
    c_pos c_prev after_ident]; intros H.
  - apply star_greedy_taken in H as (ws & t & prev' & -> & Hws & H).
    cbn [rmatch c_rest] in H.
    destruct (startswith t (lit "(")) eqn:St; [|discriminate H].
    injection H as <-. split; [reflexivity|].
    destruct t as [|x t]; [discriminate St|]. cbn [startswith lit
      list_ascii_of_string] in St.
    apply andb_prop in St as [St _]. apply Ascii.eqb_eq in St. subst x.
    now exists ws, t.
  - unfold at_eol in H. cbn [c_rest] in H.
    destruct rest as [|x t]; [injection H as <-; now split|].
    destruct (ch_eqb x LF && (true || match t with [] => true | _ => false end))
      eqn:E.
    + injection H as <-. split; [reflexivity|].
      apply andb_prop in E as [E _]. apply Ascii.eqb_eq in E. now subst x.
    + unfold neg in H. destruct (is_word x) eqn:W; [discriminate H|].
      cbn [negb] in H. injection H as <-. now split.
Qed.

(** The identifier and the end of the pattern, from a place before
    which no word character stands. *)
Lemma ident_sound (code macro_ident : text) (with_args : bool) (c : cursor)
    (start : nat) (m : mres) :
  placed code c ->
  rmatch
    (Seq (Grp 1 (Lit macro_ident))
       (if with_args then Seq (Star is_space) (Lit (lit "("))
        else Alt (Eol true) (Cls (neg is_word))))
    c [] (fun c' g' => Some (MRes start (c_pos c') g')) = Some m ->
  group_span (m_groups m) 1 = Some (c_pos c, c_pos c + length macro_ident)
  /\ startswith (skipn (c_pos c) code) macro_ident = true
  /\ after_ident with_args (skipn (c_pos c + length macro_ident) code).
Proof.
  intros [Hr _] H. cbn [rmatch] in H.
  destruct (startswith (c_rest c) macro_ident) eqn:St; [|discriminate H].
  destruct c as [pos prev rest]. cbn [c_rest c_pos] in *.
  destruct (advance_over macro_ident pos prev rest St) as (prev' & E).
  rewrite E in H. cbn [c_pos] in H.
  apply tail_sound in H as [G A]. cbn [c_rest] in A.
  rewrite G. cbn [group_span Nat.eqb]. split; [reflexivity|].
  subst rest. split; [exact St|].
  now rewrite skipn_skipn, Nat.add_comm in A.
Qed.

Lemma not_word_before (code : text) (c : cursor) :
  placed code c -> at_bol true c = true ->
  c_pos c = 0 \/ not_word_at code (c_pos c - 1) = true.
Proof.
  intros [_ Hp] H. unfold at_bol in H. rewrite Hp in H.
  destruct (c_pos c) as [|n]; [now left | right].
  cbn [Nat.sub]. rewrite Nat.sub_0_r. unfold not_word_at.
  destruct (nth_error code n) as [a|]; [|reflexivity].
  cbn [andb] in H. apply Ascii.eqb_eq in H. now subst a.
Qed.

Lemma after_ident_not_word (code : text) (n : nat) :
  after_ident false (skipn n code) -> not_word_at code n = true.
Proof.
  unfold after_ident, not_word_at. intros H.
  destruct (skipn n code) as [|x t] eqn:E.
  - now rewrite (skipn_none code n (eq_sym E)).
  - rewrite (skipn_head code n (eq_sym E)). now rewrite H.
Qed.

(** X25. The position [__get_macro_ident_pos] returns, when it is not -1, is
    that of an occurrence of the identifier before which no word
    character stands; after the identifier of a macro without
    parameters no word character stands either, and after that of a
    macro with parameters come white space, if any, and an opening
    parenthesis. *)
Theorem identifier_is_found_as_a_word :
  forall (code macro_ident : text) (with_args : bool) (pos : Z),
    get_macro_ident_pos code macro_ident with_args = Some pos ->
    (0 <= pos)%Z ->
    startswith (skipn (Z.to_nat pos) code) macro_ident = true
    /\ (pos = 0%Z \/ not_word_at code (Z.to_nat pos - 1) = true)
    /\ (if with_args
        then exists ws t,
               skipn (Z.to_nat pos + length macro_ident) code
               = ws ++ "("%char :: t
               /\ forallb is_space ws = true
        else not_word_at code (Z.to_nat pos + length macro_ident) = true).
Proof.
  intros code macro_ident with_args pos H Hpos.
  unfold get_macro_ident_pos in H.
  destruct (Macro.plain_word macro_ident); [|discriminate H].
  destruct (Re.search _ code) as [m|] eqn:S; [|injection H as <-; lia].
  unfold Re.search in S.
  apply search_aux_placed with (code := code) in S as (c & P & M);
    [|apply placed_start].
  unfold match_here in M. cbn [seqs rmatch] in M. cbn [andb] in M.
  assert (G : exists c',
             placed code c'
             /\ (c_pos c' = 0 \/ not_word_at code (c_pos c' - 1) = true)
             /\ group_span (m_groups m) 1
                = Some (c_pos c', c_pos c' + length macro_ident)
             /\ startswith (skipn (c_pos c') code) macro_ident = true
             /\ after_ident with_args
                  (skipn (c_pos c' + length macro_ident) code)).
  { destruct (at_bol true c) eqn:B.
    - match type of M with
      | match ?x with _ => _ end = _ => destruct x as [m0|] eqn:M0
      end.
      + injection M as <-. exists c. split; [exact P|].
        split; [now apply not_word_before|].
        exact (@ident_sound code macro_ident with_args _ _ _ P M0).
      + destruct c as [p prev rest]. cbn [c_rest c_pos] in M.
        destruct rest as [|a t]; [discriminate M|].
        destruct (neg is_word a) eqn:W; [|discriminate M].
        pose proof (placed_step P) as P'.
        exists (Cursor (S p) (Some a) t). split; [exact P'|].
        split.
        * right. cbn [c_pos Nat.sub]. rewrite Nat.sub_0_r.
          destruct P' as [_ Hp]. cbn [c_prev c_pos] in Hp.
          unfold not_word_at. now rewrite <- Hp.
        * exact (@ident_sound code macro_ident with_args _ _ _ P' M).
    - destruct c as [p prev rest]. cbn [c_rest c_pos] in M.
      destruct rest as [|a t]; [discriminate M|].
      destruct (neg is_word a) eqn:W; [|discriminate M].
      pose proof (placed_step P) as P'.
      exists (Cursor (S p) (Some a) t). split; [exact P'|].
      split.
      + right. cbn [c_pos Nat.sub]. rewrite Nat.sub_0_r.
        destruct P' as [_ Hp]. cbn [c_prev c_pos] in Hp.
        unfold not_word_at. now rewrite <- Hp.
      + exact (@ident_sound code macro_ident with_args _ _ _ P' M). }
  destruct G as (c' & _ & Hb & Hg & Hs & Ha).
  rewrite Hg in H. cbn [fst] in H. injection H as <-.
  rewrite Nat2Z.id. split; [exact Hs|]. split.
  - destruct Hb as [Hb|Hb]; [left; lia | now right].
  - destruct with_args; [exact Ha | now apply after_ident_not_word].
Qed.

Lemma identifier_is_found_as_a_word_witness :
  get_macro_ident_pos (lit "a SUM (1)") (lit "SUM") true = Some 2%Z
  /\ startswith (skipn (Z.to_nat 2) (lit "a SUM (1)")) (lit "SUM") = true.
Proof.
  assert (H : get_macro_ident_pos (lit "a SUM (1)") (lit "SUM") true
              = Some 2%Z) by reflexivity.
  assert (H0 : (0 <= 2)%Z) by (vm_compute; discriminate).
  split; [exact H|].
  exact (proj1 (@identifier_is_found_as_a_word (lit "a SUM (1)") (lit "SUM")
                  true 2%Z H H0)).
Defined.

End IdentFacts.

(** ** The indentation of an expanded macro *)

Module InsertFacts.
Import Py CodeFormatter Expander Indentation LineFacts.

Lemma slice_to_prefix (s t : text) : slice_to (s ++ t) (len s) = s.
Proof.
  unfold slice_to, slice, adjust, len. rewrite length_app.
  replace (0 <? 0)%Z with false by reflexivity.
  replace (Z.of_nat (length s) <? 0)%Z with false
    by (symmetry; apply Z.ltb_ge; lia).
  replace (Z.to_nat (Z.min 0 (Z.of_nat (length s + length t)))) with 0
    by lia.
  cbn [skipn].
  replace (Z.to_nat
             (Z.min (Z.of_nat (length s)) (Z.of_nat (length s + length t))
              - Z.min 0 (Z.of_nat (length s + length t))))
    with (length s + 0) by lia.
  rewrite firstn_app_2. cbn. now rewrite app_nil_r.
Qed.

Lemma slice_from_suffix (s t : text) (n : Z) :
  n = len s -> slice_from (s ++ t) n = t.
Proof.
  intros ->. unfold slice_from, slice, adjust, len. rewrite length_app.
  replace (Z.of_nat (length s) <? 0)%Z with false
    by (symmetry; apply Z.ltb_ge; lia).
  replace (Z.of_nat (length s + length t) <? 0)%Z with false
    by (symmetry; apply Z.ltb_ge; lia).
  rewrite Z.min_id, Z.min_l by lia.
  rewrite Nat2Z.id.
  replace (Z.to_nat (Z.of_nat (length s + length t) - Z.of_nat (length s)))
    with (length t) by lia.
  rewrite skipn_app, skipn_all, Nat.sub_diag. cbn [skipn app].
  apply firstn_all.
Qed.

Lemma slice_to_indent (indent s : text) :
  s <> [] -> slice_to (indent ++ s) (- len s) = indent.
Proof.
  intros H. unfold slice_to, slice, adjust, len. rewrite length_app.
  assert (0 < length s) by (destruct s; [congruence | cbn; lia]).
  replace (0 <? 0)%Z with false by reflexivity.
  replace (- Z.of_nat (length s) <? 0)%Z with true
    by (symmetry; apply Z.ltb_lt; lia).
  replace (Z.to_nat (Z.min 0 (Z.of_nat (length indent + length s))))
    with 0 by lia.
  cbn [skipn].
  replace (Z.to_nat
             (Z.max 0 (- Z.of_nat (length s)
                       + Z.of_nat (length indent + length s))
              - Z.min 0 (Z.of_nat (length indent + length s))))
    with (length indent + 0) by lia.
  rewrite firstn_app_2. cbn. now rewrite app_nil_r.
Qed.

Lemma lstrip_tidy (s : text) : starts_tidy s = true -> lstrip s = s.
Proof.
  destruct s as [|c s]; [reflexivity|]. cbn [starts_tidy lstrip].
  intros H. apply negb_true_iff in H. now rewrite H.
Qed.

(** X26. A reference that stands on the first line of the text after the
    white space [indent] and the text [before]: the first line of the
    expanded macro takes its place, and every further line of it is put
    after [indent] (and stripped of trailing white space). *)
Theorem body_lines_take_the_indentation :
  forall (indent before reference after exp_macro_code : text),
    forallb isspace indent = true ->
    starts_tidy before = true ->
    contains (indent ++ before) [LF] = false ->
    insert_expanded_macro (indent ++ before ++ reference ++ after)
      (len (indent ++ before))
      (len (indent ++ before) + len reference) exp_macro_code
    = indent ++ before ++ indented indent exp_macro_code ++ after.
Proof.
  intros indent before reference after exp Hi Hb Hn.
  unfold insert_expanded_macro, indented.
  rewrite (app_assoc indent before), slice_to_prefix.
  rewrite (app_assoc (indent ++ before) reference after).
  rewrite slice_from_suffix
    by (unfold len; rewrite !length_app; lia).
  rewrite Hn, lstrip_spaces, (lstrip_tidy _ Hb) by exact Hi.
  rewrite <- !app_assoc. do 2 f_equal.
  destruct (contains exp [LF]); [|reflexivity].
  destruct before as [|c before]; cbn [is_empty negb].
  - now rewrite app_nil_r.
  - now rewrite slice_to_indent by discriminate.
Qed.

Lemma body_lines_take_the_indentation_witness :
  insert_expanded_macro
    (lit "  " ++ lit "x = " ++ lit "M" ++ lit ";")
    (len (lit "  " ++ lit "x = "))
    (len (lit "  " ++ lit "x = ") + len (lit "M"))
    (lit "1 +" ++ [LF] ++ lit "2")
  = lit "  " ++ lit "x = "
    ++ indented (lit "  ") (lit "1 +" ++ [LF] ++ lit "2") ++ lit ";".
Proof.
  apply (@body_lines_take_the_indentation (lit "  ") (lit "x = ") (lit "M")
           (lit ";") (lit "1 +" ++ [LF] ++ lit "2"));
    reflexivity.
Defined.

End InsertFacts.

(** ** Type suffixes of numbers *)

Module SuffixFacts.
Import Py Re CodeFormatter Spans Dropping SpanFacts CommentFacts.

Lemma drops_refl (p : ascii -> bool) (x : text) : drops p x x.
Proof. induction x; constructor; assumption. Qed.

Lemma drops_app (p : ascii -> bool) (x y x' y' : text) :
  drops p x y -> drops p x' y' -> drops p (x ++ x') (y ++ y').
Proof.
  intros H H'. induction H; cbn [app]; [assumption | |];
    constructor; assumption.
Qed.

Lemma drops_all (p : ascii -> bool) (x : text) :
  forallb p x = true -> drops p x [].
Proof.
  induction x as [|a x IH]; intros H; [constructor|].
  cbn [forallb] in H. apply andb_prop in H as [Ha Hx].
  apply drops_drop; [exact Ha | now apply IH].
Qed.

(** A pattern without a group hands the groups over as they are. *)
Lemma rmatch_group_free (r : regex) :
  group_free r = true ->
  forall c g k res,
    rmatch r c g k = Some res ->
    exists c', extends c c' /\ k c' g = Some res.
Proof.
  induction r as [|p|s|r1 IH1 r2 IH2|r1 IH1 r2 IH2|p|p|m|m|n r IH];
    intros F c g k res H; cbn [rmatch] in H; cbn [group_free] in F.
  - exists c. split; [apply extends_refl | exact H].
  - destruct c as [pos prev rest]. cbn [c_rest c_pos] in H.
    destruct rest as [|a t]; [discriminate H|].
    destruct (p a); [|discriminate H].
    eexists. split; [apply extends_step | exact H].
  - destruct (startswith (c_rest c) s); [|discriminate H].
    eexists. split; [apply advance_extends | exact H].
  - apply andb_prop in F as [F1 F2].
    apply (IH1 F1) in H as (c1 & E1 & H).
    apply (IH2 F2) in H as (c2 & E2 & H).
    exists c2. split; [eapply extends_trans; eassumption | exact H].
  - apply andb_prop in F as [F1 F2].
    destruct (rmatch r1 c g k) eqn:M1.
    + injection H as ->. now apply (IH1 F1) in M1.
    + now apply (IH2 F2) in H.
  - destruct c as [pos prev rest]. cbn [c_rest c_pos c_prev] in H.
    now apply star_greedy_extends in H.
  - destruct c as [pos prev rest]. cbn [c_rest c_pos c_prev] in H.
    now apply star_lazy_extends in H.
  - destruct (at_bol m c); [|discriminate H].
    exists c. split; [apply extends_refl | exact H].
  - destruct (at_eol m c); [|discriminate H].
    exists c. split; [apply extends_refl | exact H].
  - discriminate F.
Qed.

(** A match of the pattern for numbers: the number, which is the group
    [num], and after it letters of the suffix only. *)
Lemma num_const_match (pos : nat) (prev : option ascii) (rest : text)
    (must_advance : bool) (m : mres) :
  match_here RE_PTRN_NUM_CONST (Cursor pos prev rest) must_advance = Some m ->
  exists num suffix t,
    rest = num ++ suffix ++ t
    /\ forallb (one_of "uUlLfF") suffix = true
    /\ m_end m = pos + length num + length suffix
    /\ group_span (m_groups m) 1 = Some (pos, pos + length num).
Proof.
  unfold match_here, RE_PTRN_NUM_CONST, Plus. intros H.
  cbn [rmatch] in H.
  apply rmatch_group_free in H as (c1 & (num & E1 & P1) & H);
    [|reflexivity].
  cbn [c_rest c_pos] in E1, P1. cbn [rmatch c_pos] in H.
  destruct c1 as [pos1 prev1 rest1]. cbn [c_rest c_pos c_prev] in *.
  destruct rest1 as [|a t]; [discriminate H|].
  destruct (one_of "uUlLfF" a) eqn:Ea; [|discriminate H].
  apply star_greedy_taken in H as (xs & t' & prev' & -> & Hxs & H).
  cbn [c_pos] in H.
  destruct (must_advance && (S pos1 + length xs =? pos)); [discriminate H|].
  injection H as <-. cbn [m_end m_groups group_span Nat.eqb].
  exists num, (a :: xs), t'. subst pos1 rest.
  cbn [forallb length]. rewrite Ea, Hxs.
  split; [reflexivity|]. split; [reflexivity|]. split; [lia | reflexivity].
Qed.

(** X27. [remove_num_type_suffix] only takes letters of the type suffixes
    away: the text it returns is its argument without some of its
    letters u, U, l, L, f and F, everything else in place. *)
Theorem only_suffix_letters_are_removed :
  forall (code : text),
    drops (one_of "uUlLfF") code (remove_num_type_suffix code).
Proof.
  intros code. unfold remove_num_type_suffix, Re.sub.
  apply (@sub_aux_related (drops (one_of "uUlLfF")))
    with (known := fun pos rest => rest = skipn pos code) (skip := 0);
    try reflexivity.
  - constructor.
  - intros a. apply drops_refl.
  - intros x y x' y'. apply drops_app.
  - intros pos a t. apply skipn_next.
  - intros pos prev rest b m -> M.
    apply num_const_match in M as (num & suffix & t & E & Hs & Hend & Hg).
    unfold group_or_empty, group. rewrite Hg. cbn [option_map].
    unfold span_text. cbn [fst snd]. rewrite E, Hend.
    replace (pos + length num - pos) with (length num + 0) by lia.
    replace (pos + length num + length suffix - pos)
      with (length num + length suffix) by lia.
    rewrite !firstn_app_2. cbn [firstn]. rewrite app_nil_r.
    rewrite <- (app_nil_r num) at 2. apply drops_app; [apply drops_refl|].
    replace (length suffix) with (length suffix + 0) by lia.
    rewrite firstn_app_2. cbn [firstn]. rewrite app_nil_r.
    now apply drops_all.
Qed.

End SuffixFacts.

(** ** A definition on one line *)

Module DefineFacts.
Import Py Re CodeFormatter Engine Expander PyCpp Continuation Tidy
  Indentation Definitions Absent TextFacts LineFacts TidyFacts InputFacts
  ExpanderFacts IdentFacts InsertFacts Run.
Local Open Scope engine_scope.

(** *** The text of the directive *)

Lemma word_not_backslash (c : ascii) :
  is_word c = true -> ch_eqb c BSLASH = false.
Proof.
  intros H. destruct (ch_eqb c BSLASH) eqn:E; [|reflexivity].
  apply Ascii.eqb_eq in E. now subst c.
Qed.

Lemma word_not_blank (c : ascii) : is_word c = true -> is_blank c = false.
Proof.
  intros H. destruct (is_blank c) eqn:E; [|reflexivity].
  unfold is_blank, ch_eqb in E.
  apply orb_prop in E as [E|E]; apply Ascii.eqb_eq in E; now subst c.
Qed.

Lemma define_line_no_backslash (name body : text) :
  Macro.plain_word name = true -> no_backslash body ->
  no_backslash (define_line name body).
Proof.
  intros Hw Hb. unfold define_line.
  apply no_backslash_app; [now repeat constructor|].
  apply no_backslash_app; [|now constructor].
  apply Forall_forall. intros c Hc. apply word_not_backslash.
  unfold Macro.plain_word in Hw. rewrite forallb_forall in Hw. now apply Hw.
Qed.

(** *** The name in the directive *)

Lemma star_takes_all (p : ascii -> bool) (k : kont) (g : groups)
    (res : mres) (xs : text) (t : text) :
  forallb p xs = true ->
  match t with [] => True | c :: _ => p c = false end ->
  forall pos prev,
    (forall prev', k (Cursor (pos + length xs) prev' t) g = Some res) ->
    star_greedy p (xs ++ t) pos prev g k = Some res.
Proof.
  intros Hp Ht. induction xs as [|x xs IH]; intros pos prev Hk.
  - cbn [app length] in *. rewrite Nat.add_0_r in Hk.
    destruct t as [|c t]; cbn [star_greedy]; [apply Hk|].
    rewrite Ht. apply Hk.
  - cbn [forallb] in Hp. apply andb_prop in Hp as [Hx Hxs].
    cbn [app star_greedy]. rewrite Hx.
    rewrite (IH Hxs (S pos) (Some x)); [reflexivity|].
    intros prev'. rewrite <- (Hk prev'). cbn [length].
    now rewrite Nat.add_succ_r.
Qed.

Lemma define_matches (name body : text) :
  name <> [] -> Macro.plain_word name = true ->
  re_match RE_DEFINE (define_line name body)
  = Some (MRes 0 (8 + length name) [(1, (8, 8 + length name))]).
Proof.
  intros Hn Hw. destruct name as [|c0 name]; [congruence|].
  unfold Macro.plain_word in Hw. cbn [forallb] in Hw.
  apply andb_prop in Hw as [H0 Hw].
  unfold define_line.
  change (re_match RE_DEFINE (lit "#define " ++ (c0 :: name) ++ SP :: body))
    with (star_greedy is_blank ((c0 :: name) ++ SP :: body) 8 (Some SP) []
            (fun c' g' =>
               rmatch (Seq (Grp 1 (Plus is_word))
                         (Opt (seqs [Lit (lit "(");
                                     Grp 2 (Star (neg (is_ch ")")));
                                     Lit (lit ")")])))
                 c' g'
                 (fun c'' g'' => Some (MRes 0 (c_pos c'') g'')))).
  cbn [app star_greedy]. rewrite (word_not_blank _ H0).
  unfold Plus. cbn [rmatch c_rest c_pos c_prev]. rewrite H0.
  apply star_takes_all; [exact Hw | reflexivity|].
  intros prev'. cbn [c_pos length]. unfold Opt. cbn [rmatch seqs c_rest].
  cbn [startswith lit list_ascii_of_string]. cbn.
  repeat f_equal; lia.
Qed.

Lemma skipn_define_line (name body : text) :
  skipn 8 (define_line name body) = name ++ SP :: body.
Proof. reflexivity. Qed.

Lemma name_of_define (name body : text) :
  span_text (define_line name body) (8, 8 + length name) = name.
Proof.
  unfold span_text. cbn [fst snd]. rewrite skipn_define_line.
  replace (8 + length name - 8) with (length name + 0) by lia.
  rewrite firstn_app_2. cbn. apply app_nil_r.
Qed.

(** *** The start of the body *)

Lemma find_aux_first (sub s : text) :
  forall p r,
    find_aux sub s p = r ->
    forall n, (p + Z.of_nat n < r)%Z -> startswith (skipn n s) sub = false.
Proof.
  induction s as [|a s IH]; intros p r E n Hn; cbn [find_aux] in E.
  - destruct (startswith [] sub) eqn:S0; [lia|]. now destruct n.
  - destruct (startswith (a :: s) sub) eqn:S0; [lia|].
    destruct n as [|n]; [exact S0|]. cbn [skipn].
    apply (IH (p + 1)%Z r E). lia.
Qed.

Lemma find_first (s sub : text) (r : Z) :
  find s sub = r -> (0 <= r)%Z ->
  forall n, (Z.of_nat n < r)%Z -> startswith (skipn n s) sub = false.
Proof.
  unfold find, find_from, find_in, adjust, adjust_start. intros E Hr n Hn.
  replace (len s <? 0)%Z with false in E
    by (symmetry; apply Z.ltb_ge; unfold len; lia).
  replace (0 <? 0)%Z with false in E by reflexivity.
  rewrite Z.min_id, Z.sub_0_r in E.
  destruct (len s <? len sub)%Z; [lia|].
  unfold len in E at 1. rewrite Nat2Z.id, firstn_all in E.
  cbn [Z.to_nat skipn] in E.
  apply (@find_aux_first sub s 0%Z r E). lia.
Qed.

Lemma startswith_app_left (s t sub : text) :
  length sub <= length s -> startswith (s ++ t) sub = startswith s sub.
Proof.
  revert s. induction sub as [|x sub IH]; intros s H.
  - now rewrite !startswith_nil.
  - destruct s as [|a s]; [cbn in H; lia|]. cbn [app startswith].
    cbn [length] in H. now rewrite IH by lia.
Qed.

Lemma startswith_self (s t : text) : startswith (s ++ t) s = true.
Proof.
  induction s as [|a s IH]; [apply startswith_nil|].
  cbn [app startswith]. unfold ch_eqb. now rewrite Ascii.eqb_refl.
Qed.

Lemma search_passes (r : regex) (pre : text) :
  forall rest pos prev,
    (forall n prev', n < length pre ->
       match_here r (Cursor (pos + n) prev' (skipn n (pre ++ rest))) false
       = None) ->
    exists prev',
      search_aux r (pre ++ rest) pos prev
      = search_aux r rest (pos + length pre) prev'.
Proof.
  induction pre as [|a pre IH]; intros rest pos prev H.
  - exists prev. cbn. now rewrite Nat.add_0_r.
  - cbn [app search_aux].
    pose proof (H 0 prev ltac:(cbn; lia)) as H0.
    rewrite Nat.add_0_r in H0. cbn [skipn app] in H0. rewrite H0.
    destruct (IH rest (S pos) (Some a)) as (prev' & E).
    + intros n prev' Hn.
      pose proof (H (S n) prev' ltac:(cbn; lia)) as Hs.
      cbn [skipn app] in Hs. now rewrite Nat.add_succ_r in Hs.
    + exists prev'. rewrite E. cbn [length]. f_equal. lia.
Qed.

Lemma search_here (r : regex) (rest : text) (pos : nat)
    (prev : option ascii) (m : mres) :
  match_here r (Cursor pos prev rest) false = Some m ->
  search_aux r rest pos prev = Some m.
Proof. intros H. destruct rest; cbn [search_aux]; now rewrite H. Qed.

Lemma body_start_found (name body : text) :
  find (lit "#define " ++ name) name = 8%Z ->
  starts_tidy body = true ->
  exists m,
    Re.search (Seq (Lit name) (Star is_blank)) (define_line name body)
    = Some m
    /\ m_end m = 8 + length name + 1.
Proof.
  intros Hf Hb. unfold Re.search, define_line.
  destruct (@search_passes (Seq (Lit name) (Star is_blank))
              (lit "#define ") (name ++ SP :: body) 0 None)
    as (prev' & E).
  - intros n prev' Hn. unfold match_here. cbn [rmatch c_rest].
    assert (L : n < 8) by exact Hn.
    assert (F : startswith (skipn n (lit "#define " ++ name ++ SP :: body))
                  name = false).
    { eapply eq_trans;
        [|exact (@find_first _ _ _ Hf ltac:(lia) n ltac:(lia))].
      change (lit "#define " ++ name ++ SP :: body)
        with ((lit "#define " ++ name) ++ SP :: body).
      rewrite skipn_app.
      replace (n - length (lit "#define " ++ name)) with 0
        by (rewrite length_app; change (length (lit "#define ")) with 8; lia).
      cbn [skipn]. apply startswith_app_left.
      rewrite length_skipn, length_app.
      change (length (lit "#define ")) with 8. lia. }
    now rewrite F.
  - rewrite E. change (0 + length (lit "#define ")) with 8.
    destruct (advance_over name 8 prev' (name ++ SP :: body)
                (startswith_self name (SP :: body))) as (prev2 & A).
    exists (MRes 8 (S (8 + length name)) []). split; [|cbn [m_end]; lia].
    apply search_here. unfold match_here. cbn [rmatch c_rest].
    rewrite startswith_self, A. cbn [c_rest c_pos c_prev].
    rewrite skipn_app, skipn_all, Nat.sub_diag.
    cbn [skipn app star_greedy].
    change (is_blank SP) with true. cbv iota.
    assert (S1 : forall k,
               star_greedy is_blank body (S (8 + length name)) (Some SP) [] k
               = k (Cursor (S (8 + length name)) (Some SP) body) []).
    { intros k. destruct body as [|c body]; [reflexivity|].
      cbn [star_greedy starts_tidy] in *.
      apply negb_true_iff in Hb.
      destruct (is_blank c) eqn:Bc; [|reflexivity].
      apply blank_is_space in Bc. congruence. }
    rewrite S1. reflexivity.
Qed.

(** *** The directive *)

Section WithEnvironment.

Variable py_eval : text -> eval_result.
Variable dedent : text -> text.
Variable read_path : text -> text -> option text.
Variable path_name : text -> text.

Lemma not_a_conditional (fuel : nat) (name body : text) (w : world) :
  remove_line_escapes (define_line name body) false = define_line name body ->
  process_group (conditional_directives py_eval fuel) (define_line name body) w
  = Done (false, w).
Proof.
  intros J. unfold conditional_directives. cbn [process_group].
  unfold directive_process. rewrite J. reflexivity.
Qed.

Lemma define_handler (name body : text) (m : mres) (w : world) :
  find (lit "#define " ++ name) name = 8%Z ->
  no_backslash (define_line name body) ->
  starts_tidy body = true -> ends_tidy body = true ->
  m_groups m = [(1, (8, 8 + length name))] ->
  process_define dedent (define_line name body) m (define_line name body) w
  = Done (tt, defined name body w).
Proof.
  intros Hf Hn Hs He Hg. unfold process_define, group. rewrite Hg.
  cbn [group_span Nat.eqb option_map]. rewrite name_of_define.
  rewrite (regex_version_plain true Hn). cbn [re_body_start lift].
  unfold bind at 1. unfold ret at 1.
  destruct (body_start_found name body Hf Hs) as (m' & S & Em).
  rewrite S, Em.
  assert (B : slice_from (define_line name body)
                (Z.of_nat (8 + length name + 1)) = body).
  { unfold define_line.
    change (SP :: body) with ([SP] ++ body).
    rewrite !app_assoc. apply slice_from_suffix.
    unfold len. rewrite !length_app.
    change (length (lit "#define ")) with 8. cbn [length]. reflexivity. }
  rewrite B.
  assert (R : rstrip body = body).
  { rewrite <- (app_nil_r body) at 1. now apply rstrip_tidy. }
  rewrite R.
  assert (L : startswith body [LF] = false).
  { destruct body as [|c body]; [reflexivity|].
    cbn [starts_tidy] in Hs. apply negb_true_iff in Hs.
    cbn [startswith]. rewrite startswith_nil, andb_true_r.
    destruct (ch_eqb LF c) eqn:E; [|reflexivity].
    apply Ascii.eqb_eq in E. now subst c. }
  rewrite L, (lstrip_tidy _ Hs). reflexivity.
Qed.

Lemma define_directive (fuel : nat)
    (pc : text -> bool -> bool -> text -> M text) (name body : text)
    (w : world) :
  Macro.plain_word name = true ->
  find (lit "#define " ++ name) name = 8%Z ->
  no_backslash body -> starts_tidy body = true -> ends_tidy body = true ->
  ConditionManager.branch_active (cond_mngr (self w)) = true ->
  process_directives py_eval dedent read_path path_name fuel pc
    (define_line name body) w
  = Done (true, defined name body w).
Proof.
  intros Hw Hf Hb Hs He Ha.
  assert (Hne : name <> []).
  { intros ->. cbn in Hf. discriminate Hf. }
  pose proof (define_line_no_backslash name Hw Hb) as Hn.
  pose proof (regex_version_plain false Hn) as J.
  unfold process_directives.
  erewrite bind_done by (apply not_a_conditional; exact J).
  unfold bind at 1, gets at 1. rewrite Ha. cbn [negb andb].
  unfold standard_directives. cbn [process_group].
  unfold directive_process at 1. rewrite J.
  rewrite (define_matches body Hne Hw).
  erewrite bind_done;
    [|erewrite bind_done; [reflexivity|];
      now apply define_handler].
  reflexivity.
Qed.

End WithEnvironment.

(** X28. In an active branch, the directive "#define NAME BODY" written on
    one line gives the macro NAME, without parameters, the body BODY,
    and changes nothing else, provided that NAME is made of word
    characters and does not occur in the directive before its own
    place (the body is searched from the first occurrence of NAME in the
    directive), and that BODY holds no backslash and neither starts nor
    ends with white space. *)
Theorem define_on_one_line :
  forall py_eval dedent read_path path_name (fuel : nat)
         (pc : text -> bool -> bool -> text -> M text) (name body : text)
         (w : world),
    Macro.plain_word name = true ->
    find (lit "#define " ++ name) name = 8%Z ->
    lacks BSLASH body -> starts_tidy body = true -> ends_tidy body = true ->
    ConditionManager.branch_active (cond_mngr (self w)) = true ->
    PyCpp.process_directives py_eval dedent read_path path_name fuel pc
      (define_line name body) w
    = Done (true, defined name body w)
    /\ dict_mem name (macros (self (defined name body w))) = true.
Proof.
  intros py_eval dedent read_path path_name fuel pc name body w
         Hw Hf Hb Hs He Ha.
  split; [now apply define_directive|].
  unfold defined. cbn [self macros].
  assert (T : forall k, text_eqb k k = true).
  { induction k as [|c k IH]; [reflexivity|]. cbn [text_eqb].
    unfold ch_eqb. now rewrite Ascii.eqb_refl, IH. }
  induction (macros (self w)) as [|[k v] d IH]; cbn [dict_set dict_mem].
  - now rewrite T.
  - destruct (text_eqb name k) eqn:E; cbn [dict_mem]; rewrite E;
      [reflexivity | exact IH].
Qed.

Lemma define_on_one_line_witness :
  PyCpp.process_directives Tables.eval_bit Tables.same_text Tables.no_file
    Tables.same_text 0
    (PyCpp.process_code Tables.eval_bit Tables.same_text Tables.no_file
       Tables.same_text 0)
    (define_line (lit "A") (lit "1 + 2")) init_world
  = Done (true, defined (lit "A") (lit "1 + 2") init_world).
Proof.
  apply (@define_on_one_line Tables.eval_bit Tables.same_text Tables.no_file
           Tables.same_text 0
           (PyCpp.process_code Tables.eval_bit Tables.same_text
              Tables.no_file Tables.same_text 0)
           (lit "A") (lit "1 + 2") init_world);
    first [reflexivity | repeat constructor].
Defined.

End DefineFacts.

(** ** The directives that name a macro *)

Module NamedFacts.
Import Py Re CodeFormatter Engine Expander PyCpp Continuation
  NamedDirectives TextFacts LineFacts TidyFacts DefineFacts Run.
Local Open Scope engine_scope.

Lemma word_not_newline (c : ascii) :
  is_word c = true -> not_newline c = true.
Proof.
  intros H. unfold not_newline. destruct (ch_eqb c LF) eqn:E; [|reflexivity].
  apply Ascii.eqb_eq in E. now subst c.
Qed.

Lemma words_no_backslash (name : text) :
  Macro.plain_word name = true -> no_backslash name.
Proof.
  intros Hw. apply Forall_forall. intros c Hc. apply word_not_backslash.
  unfold Macro.plain_word in Hw. rewrite forallb_forall in Hw. now apply Hw.
Qed.

Lemma words_not_newline (name : text) :
  Macro.plain_word name = true -> forallb not_newline name = true.
Proof.
  unfold Macro.plain_word. intros Hw. rewrite forallb_forall in *.
  intros c Hc. now apply word_not_newline, Hw.
Qed.

Lemma firstn_whole (s : text) (n : nat) :
  firstn (n + length s - n) s = s.
Proof. replace (n + length s - n) with (length s) by lia. apply firstn_all. Qed.

(** *** [#undef] *)

Lemma undef_matches (name : text) :
  name <> [] -> Macro.plain_word name = true ->
  re_match RE_UNDEF (undef_line name)
  = Some (MRes 0 (7 + length name) [(1, (7, 7 + length name))]).
Proof.
  intros Hn Hw. destruct name as [|c0 name]; [congruence|].
  unfold Macro.plain_word in Hw. cbn [forallb] in Hw.
  apply andb_prop in Hw as [H0 Hw].
  unfold undef_line.
  change (re_match RE_UNDEF (lit "#undef " ++ c0 :: name))
    with (star_greedy is_blank (c0 :: name) 7 (Some SP) []
            (fun c' g' =>
               rmatch (Grp 1 (Plus is_word)) c' g'
                 (fun c'' g'' => Some (MRes 0 (c_pos c'') g'')))).
  cbn [star_greedy]. rewrite (word_not_blank _ H0).
  unfold Plus. cbn [rmatch c_rest c_pos c_prev]. rewrite H0.
  rewrite <- (app_nil_r name) at 1.
  apply star_takes_all; [exact Hw | exact I|].
  intros prev'. cbn [c_pos length]. repeat f_equal; lia.
Qed.

Section WithEnvironment.

Variable py_eval : text -> eval_result.
Variable dedent : text -> text.
Variable read_path : text -> text -> option text.
Variable path_name : text -> text.

Lemma undef_directive (fuel : nat)
    (pc : text -> bool -> bool -> text -> M text) (name : text) (w : world) :
  name <> [] -> Macro.plain_word name = true ->
  ConditionManager.branch_active (cond_mngr (self w)) = true ->
  process_directives py_eval dedent read_path path_name fuel pc
    (undef_line name) w
  = Done (true,
          if dict_mem name (macros (self w))
          then with_table (dict_del name (macros (self w))) w
          else w).
Proof.
  intros Hne Hw Ha.
  assert (J : remove_line_escapes (undef_line name) false = undef_line name).
  { apply regex_version_plain. unfold undef_line.
    apply no_backslash_app; [now repeat constructor|].
    now apply words_no_backslash. }
  unfold process_directives.
  assert (C : process_group (conditional_directives py_eval fuel)
                (undef_line name) w = Done (false, w)).
  { unfold conditional_directives. cbn [process_group].
    unfold directive_process. rewrite J. reflexivity. }
  erewrite bind_done by exact C.
  unfold bind at 1, gets at 1. rewrite Ha. cbn [negb andb].
  unfold standard_directives. cbn [process_group].
  unfold directive_process at 1. rewrite J.
  change (re_match RE_DEFINE (undef_line name)) with (@None mres).
  unfold bind at 1. unfold ret at 1.
  unfold directive_process at 1. rewrite J.
  rewrite (undef_matches Hne Hw).
  unfold process_undef, group. cbn [m_groups group_span Nat.eqb option_map].
  unfold span_text. cbn [fst snd].
  change (skipn 7 (undef_line name)) with name. rewrite firstn_whole.
  unfold bind, gets. cbn [fst].
  destruct (dict_mem name (macros (self w))); reflexivity.
Qed.

(** *** [#ifdef] and [#ifndef] *)

Lemma ifdef_matches (name : text) :
  name <> [] -> Macro.plain_word name = true ->
  re_match RE_IFDEF (ifdef_line name)
  = Some (MRes 0 (7 + length name) [(1, (7, 7 + length name))]).
Proof.
  intros Hn Hw. pose proof (words_not_newline name Hw) as Hl.
  destruct name as [|c0 name]; [congruence|].
  unfold Macro.plain_word in Hw. cbn [forallb] in Hw.
  apply andb_prop in Hw as [H0 Hw].
  unfold ifdef_line.
  change (re_match RE_IFDEF (lit "#ifdef " ++ c0 :: name))
    with (star_greedy is_blank (c0 :: name) 7 (Some SP) []
            (fun c' g' =>
               rmatch (Grp 1 (Star not_newline)) c' g'
                 (fun c'' g'' => Some (MRes 0 (c_pos c'') g'')))).
  cbn [star_greedy]. rewrite (word_not_blank _ H0).
  cbn [rmatch c_rest c_pos c_prev].
  rewrite <- (app_nil_r (c0 :: name)) at 1.
  apply star_takes_all; [exact Hl | exact I|].
  intros prev'. reflexivity.
Qed.

Lemma ifndef_matches (name : text) :
  name <> [] -> Macro.plain_word name = true ->
  re_match RE_IFNDEF (ifndef_line name)
  = Some (MRes 0 (8 + length name) [(1, (8, 8 + length name))]).
Proof.
  intros Hn Hw. pose proof (words_not_newline name Hw) as Hl.
  destruct name as [|c0 name]; [congruence|].
  unfold Macro.plain_word in Hw. cbn [forallb] in Hw.
  apply andb_prop in Hw as [H0 Hw].
  unfold ifndef_line.
  change (re_match RE_IFNDEF (lit "#ifndef " ++ c0 :: name))
    with (star_greedy is_blank (c0 :: name) 8 (Some SP) []
            (fun c' g' =>
               rmatch (Grp 1 (Star not_newline)) c' g'
                 (fun c'' g'' => Some (MRes 0 (c_pos c'') g'')))).
  cbn [star_greedy]. rewrite (word_not_blank _ H0).
  cbn [rmatch c_rest c_pos c_prev].
  rewrite <- (app_nil_r (c0 :: name)) at 1.
  apply star_takes_all; [exact Hl | exact I|].
  intros prev'. reflexivity.
Qed.

Lemma ifdef_directive (fuel : nat)
    (pc : text -> bool -> bool -> text -> M text) (name : text) (w : world) :
  name <> [] -> Macro.plain_word name = true ->
  process_directives py_eval dedent read_path path_name fuel pc
    (ifdef_line name) w
  = Done (true, entered (dict_mem name (macros (self w))) w).
Proof.
  intros Hne Hw.
  assert (J : remove_line_escapes (ifdef_line name) false = ifdef_line name).
  { apply regex_version_plain. unfold ifdef_line.
    apply no_backslash_app; [now repeat constructor|].
    now apply words_no_backslash. }
  unfold process_directives, conditional_directives. cbn [process_group].
  unfold directive_process. rewrite J.
  change (re_match RE_IF (ifdef_line name)) with (@None mres).
  change (re_match RE_ELIF (ifdef_line name)) with (@None mres).
  change (re_match RE_ELSE (ifdef_line name)) with (@None mres).
  change (re_match RE_ENDIF (ifdef_line name)) with (@None mres).
  rewrite (ifdef_matches Hne Hw).
  unfold process_ifdef, update_cond, group_or_empty, group.
  cbn [m_groups group_span Nat.eqb option_map].
  unfold span_text. cbn [fst snd].
  change (skipn 7 (ifdef_line name)) with name. rewrite firstn_whole.
  unfold bind, gets, ret, set_cond_mngr, modify. cbn [negb andb].
  reflexivity.
Qed.

Lemma ifndef_directive (fuel : nat)
    (pc : text -> bool -> bool -> text -> M text) (name : text) (w : world) :
  name <> [] -> Macro.plain_word name = true ->
  process_directives py_eval dedent read_path path_name fuel pc
    (ifndef_line name) w
  = Done (true, entered (negb (dict_mem name (macros (self w)))) w).
Proof.
  intros Hne Hw.
  assert (J : remove_line_escapes (ifndef_line name) false = ifndef_line name).
  { apply regex_version_plain. unfold ifndef_line.
    apply no_backslash_app; [now repeat constructor|].
    now apply words_no_backslash. }
  unfold process_directives, conditional_directives. cbn [process_group].
  unfold directive_process. rewrite J.
  change (re_match RE_IF (ifndef_line name)) with (@None mres).
  change (re_match RE_ELIF (ifndef_line name)) with (@None mres).
  change (re_match RE_ELSE (ifndef_line name)) with (@None mres).
  change (re_match RE_ENDIF (ifndef_line name)) with (@None mres).
  change (re_match RE_IFDEF (ifndef_line name)) with (@None mres).
  rewrite (ifndef_matches Hne Hw).
  unfold process_ifndef, update_cond, group_or_empty, group.
  cbn [m_groups group_span Nat.eqb option_map].
  unfold span_text. cbn [fst snd].
  change (skipn 8 (ifndef_line name)) with name. rewrite firstn_whole.
  unfold bind, gets, ret, set_cond_mngr, modify. cbn [negb andb].
  reflexivity.
Qed.

End WithEnvironment.

(** X29. In an active branch, "#undef NAME" removes the macro NAME from the
    table if it is there, and changes nothing and reports nothing if it
    is not. *)
Theorem undef_removes_the_macro :
  forall py_eval dedent read_path path_name (fuel : nat)
         (pc : text -> bool -> bool -> text -> M text) (name : text)
         (w : world),
    name <> [] -> Macro.plain_word name = true ->
    ConditionManager.branch_active (cond_mngr (self w)) = true ->
    PyCpp.process_directives py_eval dedent read_path path_name fuel pc
      (undef_line name) w
    = Done (true,
            if dict_mem name (macros (self w))
            then with_table (dict_del name (macros (self w))) w
            else w).
Proof. intros. now apply undef_directive. Qed.

Lemma undef_removes_the_macro_witness :
  PyCpp.process_directives Tables.eval_bit Tables.same_text Tables.no_file
    Tables.same_text 0
    (PyCpp.process_code Tables.eval_bit Tables.same_text Tables.no_file
       Tables.same_text 0)
    (undef_line (lit "SUM")) Tables.sum_world
  = Done (true, with_table [] Tables.sum_world).
Proof.
  apply (@undef_removes_the_macro Tables.eval_bit Tables.same_text
           Tables.no_file Tables.same_text 0
           (PyCpp.process_code Tables.eval_bit Tables.same_text
              Tables.no_file Tables.same_text 0)
           (lit "SUM") Tables.sum_world);
    [discriminate | reflexivity | reflexivity].
Defined.

(** X30. "#ifdef NAME" enters a conditional whose condition is that NAME is
    in the macro table, and "#ifndef NAME" one whose condition is that
    it is not; whatever the branch, nothing else changes. *)
Theorem ifdef_tests_the_macro_table :
  forall py_eval dedent read_path path_name (fuel : nat)
         (pc : text -> bool -> bool -> text -> M text) (name : text)
         (w : world),
    name <> [] -> Macro.plain_word name = true ->
    PyCpp.process_directives py_eval dedent read_path path_name fuel pc
      (ifdef_line name) w
    = Done (true, entered (dict_mem name (macros (self w))) w)
    /\ PyCpp.process_directives py_eval dedent read_path path_name fuel pc
         (ifndef_line name) w
       = Done (true, entered (negb (dict_mem name (macros (self w)))) w).
Proof.
  intros. split; [now apply ifdef_directive | now apply ifndef_directive].
Qed.

Lemma ifdef_tests_the_macro_table_witness :
  PyCpp.process_directives Tables.eval_bit Tables.same_text Tables.no_file
    Tables.same_text 0
    (PyCpp.process_code Tables.eval_bit Tables.same_text Tables.no_file
       Tables.same_text 0)
    (ifdef_line (lit "SUM")) Tables.sum_world
  = Done (true, entered true Tables.sum_world).
Proof.
  apply (@ifdef_tests_the_macro_table Tables.eval_bit Tables.same_text
           Tables.no_file Tables.same_text 0
           (PyCpp.process_code Tables.eval_bit Tables.same_text
              Tables.no_file Tables.same_text 0)
           (lit "SUM") Tables.sum_world);
    [discriminate | reflexivity].
Defined.

End NamedFacts.
